(** * cookie-more: conversions between the four cookie representations

    A shallow embedding of [src/dist/cookie.js] (the TypeScript original is
    the second part of [src/unnamed/part_001]), and the properties the
    specification states about it.

    Strings are sequences of ASCII characters: [toLowerCase], the regular
    expression class [\s] and the percent-coding are modelled on ASCII.
    Numbers are the integers and [NaN]; they are exact here, as
    JavaScript's are up to [2^53].
    An object is the list of its own enumerable properties in enumeration
    order, a new key being added at the end (engines enumerate keys that
    are array indices first; an object handed to a function is taken in its
    enumeration order). *)

From Stdlib Require Import String Ascii List ZArith Lia Bool DecimalString DecimalPos.
Import ListNotations.
Open Scope list_scope.
Open Scope string_scope.

Set Warnings "-register-all".

(** ** Values *)

Inductive num : Type :=
| NaN
| Int (z : Z).

Inductive value : Type :=
| VUndefined
| VNull
| VBool (b : bool)
| VNum (n : num)
| VStr (s : string)
| VArr (l : list value)
| VObj (o : list (string * value)).

(** An object: own enumerable properties, in enumeration order. *)
Definition obj : Type := list (string * value).

(** ** Exceptions *)

Inductive error : Type :=
| UnknownFormat   (* new Error('Unknown cookies format') *)
| TypeError.      (* raised by the engine: a property of null, a call of a non-function *)

Inductive result (A : Type) : Type :=
| Ok (a : A)
| Throw (e : error).

Arguments Ok {A} a.
Arguments Throw {A} e.

Definition bind {A B} (r : result A) (k : A -> result B) : result B :=
  match r with
  | Ok a => k a
  | Throw e => Throw e
  end.

Notation "x <- r ;; k" := (bind r (fun x => k))
  (at level 61, r at next level, right associativity).

(** [array.map(f)] for a callback that may throw: the first exception
    leaves the loop. *)
Fixpoint mapM {A B} (f : A -> result B) (l : list A) : result (list B) :=
  match l with
  | [] => Ok []
  | a :: t => b <- f a ;; bs <- mapM f t ;; Ok (b :: bs)
  end.

(** ** Strings *)

Definition semicolon : ascii := ";"%char.
Definition equals : ascii := "="%char.
Definition space : ascii := " "%char.

(** The class [\s], on ASCII: tab, line feed, vertical tab, form feed,
    carriage return, space. *)
Definition is_space (c : ascii) : bool :=
  let n := nat_of_ascii c in
  ((9 <=? n) && (n <=? 13))%nat || (n =? 32)%nat.

Definition is_upper (c : ascii) : bool :=
  let n := nat_of_ascii c in ((65 <=? n) && (n <=? 90))%nat.

Definition lower_char (c : ascii) : ascii :=
  if is_upper c then ascii_of_nat (nat_of_ascii c + 32) else c.

(** [s.toLowerCase()] *)
Fixpoint toLowerCase (s : string) : string :=
  match s with
  | EmptyString => EmptyString
  | String c t => String (lower_char c) (toLowerCase t)
  end.

(** Puts [c] in front of the first piece of a split. *)
Definition cons_head (c : ascii) (l : list string) : list string :=
  match l with
  | seg :: rest => String c seg :: rest
  | [] => [String c EmptyString]
  end.

(** [s.split(delimiter)] with [delimiter = /; |;/]: a semicolon separates, and
    takes one following space with it. *)
Fixpoint split_delimiter (s : string) : list string :=
  match s with
  | EmptyString => [EmptyString]
  | String c t =>
      if Ascii.eqb c semicolon then
        match t with
        | String c' t' =>
            if Ascii.eqb c' space then EmptyString :: split_delimiter t'
            else EmptyString :: split_delimiter t
        | EmptyString => EmptyString :: split_delimiter t
        end
      else cons_head c (split_delimiter t)
  end.

(** [s.split(/;\s*/)]: a semicolon separates, and takes all the white space
    that follows it.  [skip] holds while that white space is being consumed. *)
Fixpoint split_flags (skip : bool) (s : string) : list string :=
  match s with
  | EmptyString => [EmptyString]
  | String c t =>
      if skip && is_space c then split_flags true t
      else if Ascii.eqb c semicolon then EmptyString :: split_flags true t
      else cons_head c (split_flags false t)
  end.

Definition split_semicolon_ws (s : string) : list string := split_flags false s.

(** [s.split('=')]: every [=] separates. *)
Fixpoint split_equals (s : string) : list string :=
  match s with
  | EmptyString => [EmptyString]
  | String c t =>
      if Ascii.eqb c equals then EmptyString :: split_equals t
      else cons_head c (split_equals t)
  end.

(** [const [a, b] = parts]: the first two elements, [b] undefined when
    there is no second one. *)
Definition destructure2 (parts : list string) : string * option string :=
  match parts with
  | [] => (EmptyString, None)
  | [a] => (a, None)
  | a :: b :: _ => (a, Some b)
  end.

(** [parts.join(sep)] *)
Fixpoint join (sep : string) (parts : list string) : string :=
  match parts with
  | [] => EmptyString
  | [a] => a
  | a :: rest => a ++ sep ++ join sep rest
  end.


(** The character [c] does not occur in [s]. *)
Fixpoint free_of (c : ascii) (s : string) : bool :=
  match s with
  | EmptyString => true
  | String c' t => negb (Ascii.eqb c' c) && free_of c t
  end.


(** [p] holds of every character of [s]. *)
Fixpoint all_chars (p : ascii -> bool) (s : string) : bool :=
  match s with
  | EmptyString => true
  | String c t => p c && all_chars p t
  end.

(** [c] is one of the characters of [s]. *)
Fixpoint one_of (s : string) (c : ascii) : bool :=
  match s with
  | EmptyString => false
  | String c' t => Ascii.eqb c' c || one_of t c
  end.

(** The code of [c] lies between [lo] and [hi]. *)
Definition in_range (lo hi : nat) (c : ascii) : bool :=
  ((lo <=? nat_of_ascii c) && (nat_of_ascii c <=? hi))%nat.

Definition alnum (c : ascii) : bool :=
  in_range 48 57 c || in_range 65 90 c || in_range 97 122 c.

(** [s.split(d)] for a one-character string [d]. *)
Fixpoint split_on (d : ascii) (s : string) : list string :=
  match s with
  | EmptyString => [EmptyString]
  | String c t =>
      if Ascii.eqb c d then EmptyString :: split_on d t
      else cons_head c (split_on d t)
  end.

(** ** Percent-coding *)

(** The characters that [encodeURIComponent] leaves as they are. *)
Definition unreserved (c : ascii) : bool :=
  alnum c || one_of "-_.!~*'()" c.

Definition hex_digit (n : nat) : ascii :=
  match String.get n "0123456789ABCDEF" with
  | Some c => c
  | None => "0"%char
  end.

Definition hex_value (c : ascii) : option nat :=
  let n := nat_of_ascii c in
  if in_range 48 57 c then Some (n - 48)
  else if in_range 65 70 c then Some (n - 55)
  else if in_range 97 102 c then Some (n - 87)
  else None.

Definition encode_char (c : ascii) : string :=
  if unreserved c then String c EmptyString
  else String "%" (String (hex_digit (nat_of_ascii c / 16))
                          (String (hex_digit (nat_of_ascii c mod 16)) EmptyString)).

(** [encodeURIComponent(s)]: every character but the unreserved ones is
    written as [%XX]. *)
Fixpoint encodeURIComponent (s : string) : string :=
  match s with
  | EmptyString => EmptyString
  | String c t => encode_char c ++ encodeURIComponent t
  end.

(** What [decodeURIComponent] reads: a character, or an octet written as
    [%XX]. *)
Inductive token : Type :=
| Raw (c : ascii)
| Esc (b : ascii).

(** [None] when a [%] is not followed by two hexadecimal digits. *)
Fixpoint tokens (s : string) : option (list token) :=
  match s with
  | EmptyString => Some []
  | String c t =>
      if Ascii.eqb c "%" then
        match t with
        | String h1 (String h2 t') =>
            match hex_value h1, hex_value h2 with
            | Some a, Some b =>
                option_map (cons (Esc (ascii_of_nat (16 * a + b)))) (tokens t')
            | _, _ => None
            end
        | _ => None
        end
      else option_map (cons (Raw c)) (tokens t)
  end.

Definition continuation (b : ascii) : bool := in_range 128 191 b.

(** The second octet that may follow the first one [b] of a sequence of
    three, and of four: no overlong form, no surrogate, nothing beyond
    U+10FFFF. *)
Definition second_of_three (b b1 : ascii) : bool :=
  if Ascii.eqb b (ascii_of_nat 224) then in_range 160 191 b1
  else if Ascii.eqb b (ascii_of_nat 237) then in_range 128 159 b1
  else continuation b1.

Definition second_of_four (b b1 : ascii) : bool :=
  if Ascii.eqb b (ascii_of_nat 240) then in_range 144 191 b1
  else if Ascii.eqb b (ascii_of_nat 244) then in_range 128 143 b1
  else continuation b1.

(** The octets that the tokens stand for; an octet beyond 127 has to start
    or continue a well-formed UTF-8 sequence written in [%XX] throughout,
    or the whole is refused. *)
Fixpoint octets (l : list token) : option (list ascii) :=
  match l with
  | [] => Some []
  | Raw c :: t => option_map (cons c) (octets t)
  | Esc b :: t =>
      if in_range 0 127 b then option_map (cons b) (octets t)
      else if in_range 194 223 b then
        match t with
        | Esc b1 :: t1 =>
            if continuation b1
            then option_map (fun r => b :: b1 :: r) (octets t1)
            else None
        | _ => None
        end
      else if in_range 224 239 b then
        match t with
        | Esc b1 :: Esc b2 :: t2 =>
            if second_of_three b b1 && continuation b2
            then option_map (fun r => b :: b1 :: b2 :: r) (octets t2)
            else None
        | _ => None
        end
      else if in_range 240 244 b then
        match t with
        | Esc b1 :: Esc b2 :: Esc b3 :: t3 =>
            if second_of_four b b1 && continuation b2 && continuation b3
            then option_map (fun r => b :: b1 :: b2 :: b3 :: r) (octets t3)
            else None
        | _ => None
        end
      else None
  end.

(** [decodeURIComponent(s)]; [None] stands for the [URIError]. *)
Definition decodeURIComponent (s : string) : option string :=
  match tokens s with
  | Some l => option_map string_of_list_ascii (octets l)
  | None => None
  end.

(** Space and tab, what the package trims. *)
Definition is_blank (c : ascii) : bool :=
  Ascii.eqb c space || Ascii.eqb c (ascii_of_nat 9).

Fixpoint trim_start (s : string) : string :=
  match s with
  | String c t => if is_blank c then trim_start t else s
  | EmptyString => EmptyString
  end.

Fixpoint trim_end (s : string) : string :=
  match s with
  | EmptyString => EmptyString
  | String c t =>
      match trim_end t with
      | EmptyString => if is_blank c then EmptyString else String c EmptyString
      | r => String c r
      end
  end.

Definition trim (s : string) : string := trim_end (trim_start s).

(** ** Numbers *)

(** [String(n)] for an integer: decimal digits, with a minus sign. *)
Definition Z_to_string (z : Z) : string :=
  match z with
  | Z0 => "0"
  | Zpos p => NilEmpty.string_of_uint (Pos.to_uint p)
  | Zneg p => String "-" (NilEmpty.string_of_uint (Pos.to_uint p))
  end.

(** [String(n)].  (The engine writes an integer of more than 21 digits
    with an exponent; the statements keep to the numbers it holds
    exactly, which are shorter.) *)
Definition num_to_string (n : num) : string :=
  match n with
  | NaN => "NaN"
  | Int z => Z_to_string z
  end.

Definition digit_of (radix : Z) (c : ascii) : option Z :=
  let n := Z.of_nat (nat_of_ascii c) in
  let d := (if (48 <=? n) && (n <=? 57) then Some (n - 48)
            else if (97 <=? n) && (n <=? 122) then Some (n - 87)
            else if (65 <=? n) && (n <=? 90) then Some (n - 55)
            else None)%Z in
  match d with
  | Some k => if (k <? radix)%Z then Some k else None
  | None => None
  end.

(** The longest prefix of digits of [s], read in [radix] from [acc];
    [seen] tells whether a digit was read. *)
Fixpoint read_digits (radix : Z) (seen : bool) (acc : Z) (s : string) : option Z :=
  match s with
  | EmptyString => if seen then Some acc else None
  | String c t =>
      match digit_of radix c with
      | Some d => read_digits radix true (acc * radix + d)%Z t
      | None => if seen then Some acc else None
      end
  end.

Fixpoint skip_space (s : string) : string :=
  match s with
  | String c t => if is_space c then skip_space t else s
  | EmptyString => EmptyString
  end.

(** After the sign: a [0x] or [0X] prefix selects radix 16. *)
Definition read_unsigned (s : string) : option Z :=
  match s with
  | String c0 (String c1 t) =>
      if Ascii.eqb c0 "0" && (Ascii.eqb c1 "x" || Ascii.eqb c1 "X")
      then read_digits 16 false 0 t
      else read_digits 10 false 0 s
  | _ => read_digits 10 false 0 s
  end.

(** The number nearest to [z] that the engine holds: [z] itself below
    [2^53] in absolute value, and 53 significant bits beyond, a tie going
    to the even neighbour.  (Beyond the largest number of the engine there
    is [Infinity], which [num] leaves out.) *)
Definition nearest_number (z : Z) : Z :=
  let a := Z.abs z in
  if (a <? 2 ^ 53)%Z then z
  else
    let e := (Z.log2 a - 52)%Z in
    let q := Z.shiftr a e in
    let r := (a - Z.shiftl q e)%Z in
    let half := Z.shiftl 1 (e - 1) in
    let q' := if (half <? r)%Z || ((r =? half)%Z && Z.odd q)
              then (q + 1)%Z else q in
    (Z.sgn z * Z.shiftl q' e)%Z.

(** [parseInt(val)] with no radix; [undefined] reads as the text
    "undefined", which has no digit.  The digits give an integer, and the
    result is the number nearest to it. *)
Definition parseInt (val : option string) : num :=
  match val with
  | None => NaN
  | Some s =>
      let s := skip_space s in
      let (neg, body) :=
        match s with
        | String c t =>
            if Ascii.eqb c "-" then (true, t)
            else if Ascii.eqb c "+" then (false, t)
            else (false, s)
        | EmptyString => (false, s)
        end in
      match read_unsigned body with
      | Some z => Int (nearest_number (if neg then (- z)%Z else z))
      | None => NaN
      end
  end.

(** ** Objects *)

Section Properties.
Context {V : Type}.

(** [o[k]] on own properties. *)
Fixpoint lookup (k : string) (o : list (string * V)) : option V :=
  match o with
  | [] => None
  | (k', v) :: t => if String.eqb k' k then Some v else lookup k t
  end.

(** Defining property [k]: an existing key keeps its place and takes the
    new value, a new key goes to the end. *)
Fixpoint set (k : string) (v : V) (o : list (string * V)) : list (string * V) :=
  match o with
  | [] => [(k, v)]
  | (k', v') :: t =>
      if String.eqb k' k then (k', v) :: t else (k', v') :: set k v t
  end.

Definition set_all (props o : list (string * V)) : list (string * V) :=
  fold_left (fun acc kv => set (fst kv) (snd kv) acc) props o.

(** [delete o[k]], and what the object pattern [{ k, ...rest }] leaves. *)
Definition remove (k : string) (o : list (string * V)) : list (string * V) :=
  filter (fun kv => negb (String.eqb (fst kv) k)) o.

Definition keys (o : list (string * V)) : list string := map fst o.
End Properties.

(** A property read: [undefined] when absent. *)
Definition get (k : string) (o : obj) : value :=
  match lookup k o with
  | Some v => v
  | None => VUndefined
  end.

(** [{ ...a, ...b }] *)
Definition spread (a b : obj) : obj := set_all b (set_all a []).

(** [Object.fromEntries(entries)] *)
Definition fromEntries (entries : list (string * value)) : obj :=
  set_all entries [].

(** [Object.assign({}, src)].  The assignment [target[k] = v] goes through
    the [__proto__] accessor of a plain object, which defines no own
    property. *)
Definition assign_to_empty (src : obj) : obj :=
  set_all (filter (fun kv => negb (String.eqb (fst kv) "__proto__")) src) [].

(** ** Coercion to text *)

(** An element of an array in the join: nothing for [undefined] and
    [null]. *)
Definition element_text (f : value -> result string) (e : value) : result string :=
  match e with
  | VUndefined | VNull => Ok EmptyString
  | _ => f e
  end.

(** [String(v)], as used for property keys, by [+] on strings and by the
    tests of regular expressions.  An object is [[object Object]] through
    the [toString] of its prototype; an own property [toString] hides that
    one and, no value here being callable, the conversion raises a
    [TypeError].  An array is the join of its elements. *)
Fixpoint to_text (v : value) : result string :=
  match v with
  | VUndefined => Ok "undefined"
  | VNull => Ok "null"
  | VBool true => Ok "true"
  | VBool false => Ok "false"
  | VNum n => Ok (num_to_string n)
  | VStr s => Ok s
  | VArr l =>
      parts <- mapM (element_text to_text) l ;;
      Ok (join "," parts)
  | VObj o =>
      match lookup "toString" o with
      | Some _ => Throw TypeError
      | None => Ok "[object Object]"
      end
  end.

(** [v] counts as true: everything but [undefined], [null], [false], [0],
    [NaN] and the empty string. *)
Definition truthy (v : value) : bool :=
  match v with
  | VUndefined | VNull | VBool false | VNum NaN | VNum (Int Z0) => false
  | VStr s => negb (String.eqb s EmptyString)
  | _ => true
  end.

Fixpoint index_entries {A} (f : A -> value) (i : Z) (l : list A) : obj :=
  match l with
  | [] => []
  | a :: t => (Z_to_string i, f a) :: index_entries f (i + 1)%Z t
  end.

Fixpoint chars (s : string) : list ascii :=
  match s with
  | EmptyString => []
  | String c t => c :: chars t
  end.

(** The own enumerable properties that [{ ...v }] copies: none for
    [undefined], [null], booleans and numbers, the indexed characters of a
    string, the indexed elements of an array. *)
Definition own_props (v : value) : obj :=
  match v with
  | VObj o => o
  | VArr l => index_entries (fun e => e) 0 l
  | VStr s => index_entries (fun c => VStr (String c EmptyString)) 0 (chars s)
  | _ => []
  end.

(** [v.k] for a key that no prototype defines: a [TypeError] on
    [undefined] and [null], [undefined] on the other primitives and on
    arrays. *)
Definition get_prop (k : string) (v : value) : result value :=
  match v with
  | VUndefined | VNull => Throw TypeError
  | VObj o => Ok (get k o)
  | _ => Ok VUndefined
  end.

(** ** Shape tests *)

(** [typeof v === 'object' && v !== null] *)
Definition is_object (v : value) : bool :=
  match v with
  | VObj _ | VArr _ => true
  | _ => false
  end.

Definition is_array (v : value) : bool :=
  match v with VArr _ => true | _ => false end.

Definition is_string (v : value) : bool :=
  match v with VStr _ => true | _ => false end.

(** [data[0]] *)
Definition first (l : list value) : value :=
  match l with
  | [] => VUndefined
  | v :: _ => v
  end.

Definition opt_props (attributes : option obj) : obj :=
  match attributes with
  | Some o => o
  | None => []
  end.

Definition opt_text (s : option string) : value :=
  match s with
  | Some t => VStr t
  | None => VUndefined
  end.

(** A default parameter: [function (x = d)]. *)
Definition default {A} (d : A) (x : option A) : A :=
  match x with
  | Some a => a
  | None => d
  end.

(** ** The [cookie] package

    [cookie.js] spreads the package [cookie] into its export and calls its
    [parse] and [serialize]; the package is not part of the sources. *)

(** Modelled from the spec: the cut of a pair at its first [=] (section
    4.1); [None] when the segment has no [=]. *)
Fixpoint split_first_equals (s : string) : option (string * string) :=
  match s with
  | EmptyString => None
  | String c t =>
      if Ascii.eqb c equals then Some (EmptyString, t)
      else match split_first_equals t with
           | Some (n, v) => Some (String c n, v)
           | None => None
           end
  end.

(** Modelled from the spec: the decoding of a value that section 4.1
    leaves to the primitive, as the package has it: [decodeURIComponent]
    if there is a [%], and the text as it is when that one raises. *)
Definition decode (str : string) : string :=
  if free_of "%" str then str
  else match decodeURIComponent str with
       | Some s => s
       | None => str
       end.

(** Modelled from the spec: what [parse] does with one segment.  A
    segment without [=] is skipped; name and value are trimmed, the value
    is decoded, and a name that is there already keeps its value. *)
Definition parse_pair (acc : obj) (segment : string) : obj :=
  match split_first_equals segment with
  | Some (k, v) =>
      match lookup (trim k) acc with
      | Some _ => acc
      | None => set (trim k) (VStr (decode (trim v))) acc
      end
  | None => acc
  end.

(** Modelled from the spec: [parse] of the package [cookie], the primitive
    that section 4.1 wraps.  A header of less than two characters gives
    the empty mapping; otherwise the header is cut at every [;], a segment
    without [=] leaves no entry, and a segment with one is cut at its
    first [=].  The trimming and the percent-decoding that section 4.1
    leaves to the primitive are those of the package: spaces and tabs
    around name and value go, and the value is decoded. *)
Definition parse (str : string) : obj :=
  if (String.length str <? 2)%nat then []
  else fold_left parse_pair (split_on semicolon str) [].

(** An option of [serialize]: a value passed through, or the date that
    [new Date(val)] builds from [val]. *)
Inductive optval : Type :=
| OVal (v : value)
| ODate (val : value).

Definition options : Type := list (string * optval).

(** The attributes of the wire format that a cookie object can hold, in
    the order in which [serialize] writes them, with their names on the
    wire. *)
Definition wire_names : list (string * string) :=
  [ ("maxAge", "Max-Age"); ("domain", "Domain"); ("path", "Path");
    ("expires", "Expires"); ("httpOnly", "HttpOnly"); ("secure", "Secure");
    ("sameSite", "SameSite") ].

Definition connector : string := "; ".

(** Modelled from the spec: the names that [serialize] of the package
    accepts: one character at least, all visible ASCII but [;] and [=]. *)
Definition name_char (c : ascii) : bool :=
  in_range 33 58 c || in_range 60 60 c || in_range 62 126 c.

Definition cookie_name_ok (n : string) : bool :=
  negb (String.eqb n EmptyString) && all_chars name_char n.

(** Modelled from the spec: the encoded values that [serialize] accepts:
    visible ASCII but [;]. *)
Definition value_char (c : ascii) : bool :=
  in_range 33 58 c || in_range 60 126 c.

Definition cookie_value_ok (v : string) : bool := all_chars value_char v.

(** Modelled from the spec: the paths that [serialize] accepts: ASCII
    from the space on, but [;] and [<]. *)
Definition path_char (c : ascii) : bool :=
  in_range 32 58 c || in_range 61 126 c.

Definition path_ok (p : string) : bool := all_chars path_char p.

(** Modelled from the spec: a label of a domain that [serialize] accepts:
    1 to 63 letters, digits and hyphens, the first and the last no
    hyphen. *)
Definition label_ok (l : string) : bool :=
  match l with
  | EmptyString => false
  | String c _ =>
      (String.length l <=? 63)%nat
      && alnum c
      && all_chars (fun x => alnum x || Ascii.eqb x "-") l
      && match String.get (String.length l - 1) l with
         | Some d => alnum d
         | None => false
         end
  end.

(** Modelled from the spec: the domains that [serialize] accepts: labels
    between dots, with one more dot in front or not. *)
Definition domain_ok (d : string) : bool :=
  forallb label_ok
    (split_on "."
       match d with
       | String c t => if Ascii.eqb c "." then t else d
       | EmptyString => d
       end).

(** A date text for the examples: it agrees with the engine on the epoch,
    as a number and as the text it is written as. *)
Definition example_toUTCString (val : value) : option string :=
  match val with
  | VNum (Int 0) => Some "Thu, 01 Jan 1970 00:00:00 GMT"
  | VStr s => if String.eqb s "Thu, 01 Jan 1970 00:00:00 GMT"
              then Some s else None
  | _ => None
  end.

Section Conversions.

(** The text of a date: [new Date(val).toUTCString()], and [None] when the
    date is not valid.  How a date is read from a string is left to the
    engine, so the text is a parameter. *)
Variable toUTCString : value -> option string.

(** [options.k]: [undefined] when the option is not set. *)
Definition option_value (k : string) (o : options) : optval :=
  match lookup k o with
  | Some v => v
  | None => OVal VUndefined
  end.

Definition truthy_option (v : optval) : bool :=
  match v with
  | ODate _ => true
  | OVal x => truthy x
  end.

(** Modelled from the spec: [Max-Age] in [serialize], written when the
    option is not [undefined]; it has to be an integer. *)
Definition add_max_age (o : options) (str : string) : result string :=
  match option_value "maxAge" o with
  | OVal VUndefined => Ok str
  | OVal (VNum (Int z)) => Ok (str ++ "; Max-Age=" ++ Z_to_string z)
  | _ => Throw TypeError
  end.

(** Modelled from the spec: [Domain] and [Path] in [serialize], written
    when the option counts as true; its text has to pass the test [ok].
    (A date stands under [expires] only.) *)
Definition add_text (key wire : string) (ok : string -> bool)
  (o : options) (str : string) : result string :=
  match option_value key o with
  | OVal x =>
      if truthy x then
        t <- to_text x ;;
        if ok t then Ok (str ++ "; " ++ wire ++ "=" ++ t) else Throw TypeError
      else Ok str
  | ODate _ => Throw TypeError
  end.

(** Modelled from the spec: [Expires] in [serialize]; the option has to be
    a valid date. *)
Definition add_expires (o : options) (str : string) : result string :=
  match option_value "expires" o with
  | ODate val =>
      match toUTCString val with
      | Some text => Ok (str ++ "; Expires=" ++ text)
      | None => Throw TypeError
      end
  | OVal x => if truthy x then Throw TypeError else Ok str
  end.

(** Modelled from the spec: [HttpOnly], [Secure] and [Partitioned] in
    [serialize], written when the option counts as true. *)
Definition add_flag (key wire : string) (o : options) (str : string) : string :=
  if truthy_option (option_value key o) then str ++ "; " ++ wire else str.

(** Modelled from the spec: [Priority] in [serialize]: a string, one of
    three names in any case. *)
Definition add_priority (o : options) (str : string) : result string :=
  match option_value "priority" o with
  | OVal x =>
      if truthy x then
        match x with
        | VStr s =>
            let l := toLowerCase s in
            if String.eqb l "low" then Ok (str ++ "; Priority=Low")
            else if String.eqb l "medium" then Ok (str ++ "; Priority=Medium")
            else if String.eqb l "high" then Ok (str ++ "; Priority=High")
            else Throw TypeError
        | _ => Throw TypeError
        end
      else Ok str
  | ODate _ => Throw TypeError
  end.

(** Modelled from the spec: [SameSite] in [serialize]: [true], or one of
    three names in any case; the name is written with its capital. *)
Definition add_same_site (o : options) (str : string) : result string :=
  match option_value "sameSite" o with
  | OVal x =>
      if truthy x then
        match x with
        | VBool true => Ok (str ++ "; SameSite=Strict")
        | VStr s =>
            let l := toLowerCase s in
            if String.eqb l "strict" then Ok (str ++ "; SameSite=Strict")
            else if String.eqb l "lax" then Ok (str ++ "; SameSite=Lax")
            else if String.eqb l "none" then Ok (str ++ "; SameSite=None")
            else Throw TypeError
        | _ => Throw TypeError
        end
      else Ok str
  | ODate _ => Throw TypeError
  end.

(** Modelled from the spec: the attributes that [serialize] writes, in the
    order of the package. *)
Definition add_attributes (o : options) (str : string) : result string :=
  s <- add_max_age o str ;;
  s <- add_text "domain" "Domain" domain_ok o s ;;
  s <- add_text "path" "Path" path_ok o s ;;
  s <- add_expires o s ;;
  s <- add_priority o
         (add_flag "partitioned" "Partitioned" o
            (add_flag "secure" "Secure" o
               (add_flag "httpOnly" "HttpOnly" o s))) ;;
  add_same_site o s.

(** Modelled from the spec: [serialize] of the package [cookie], the
    primitive of sections 3 and 4.1: [name=value], then the attributes
    under their wire names ([maxAge] as [Max-Age], [expires] as the text
    of its date).  What the spec leaves to the primitive is that of the
    package: the name has to be a cookie name, the value is
    percent-encoded, an option [encode] stands for the encoder and has to
    be a function, the attributes are checked and come in the order of
    the package, options it does not know are ignored, and what it
    refuses raises a [TypeError]. *)
Definition serialize (name value : value) (opts : option options) : result string :=
  let o := default [] opts in
  n <- to_text name ;;
  if negb (cookie_name_ok n) then Throw TypeError
  else if truthy_option (option_value "encode" o) then Throw TypeError
  else
    v <- to_text value ;;
    if negb (cookie_value_ok (encodeURIComponent v)) then Throw TypeError
    else add_attributes o (n ++ "=" ++ encodeURIComponent v).

(** ** The conversions of [cookie.js] *)

Definition cookiePropertyMap : list (string * string) :=
  [ ("httponly", "httpOnly"); ("samesite", "sameSite"); ("max-age", "maxAge") ].

(** [cookieHeaderToCookieRecord(string = '')] *)
Definition cookieHeaderToCookieRecord (string : option string) : obj :=
  assign_to_empty (parse (default EmptyString string)).

(** The callback of [map] in [setCookieHeadersToCookieRecord]; [split] is
    a method of strings only. *)
Definition header_to_record (v : value) : result obj :=
  match v with
  | VStr string =>
      Ok (cookieHeaderToCookieRecord (Some (hd EmptyString (split_delimiter string))))
  | _ => Throw TypeError
  end.

(** [setCookieHeadersToCookieRecord(setCookieHeaders = [])] *)
Definition setCookieHeadersToCookieRecord (setCookieHeaders : option (list value))
  : result obj :=
  items <- mapM header_to_record (default [] setCookieHeaders) ;;
  Ok (fold_left (fun result item => spread result item) items []).

(** The callback of [map] in [cookieObjectsToCookieRecord]:
    [[obj.name, obj.value]], the name coerced to a property key. *)
Definition object_to_entry (o : value) : result (string * value) :=
  name <- get_prop "name" o ;;
  value <- get_prop "value" o ;;
  key <- to_text name ;;
  Ok (key, value).

(** [cookieObjectsToCookieRecord(cookieObjects = [])] *)
Definition cookieObjectsToCookieRecord (cookieObjects : option (list value))
  : result obj :=
  entries <- mapM object_to_entry (default [] cookieObjects) ;;
  Ok (fromEntries entries).

(** [anyToCookieRecord(data)] *)
Definition anyToCookieRecord (data : value) : result obj :=
  match data with
  | VObj o =>                       (* an object, not an array, not null *)
      Ok o
  | VStr s =>
      Ok (cookieHeaderToCookieRecord (Some s))
  | VArr l =>
      if is_string (first l) then setCookieHeadersToCookieRecord (Some l)
      else if is_object (first l) then cookieObjectsToCookieRecord (Some l)
      else Throw UnknownFormat
  | _ => Throw UnknownFormat
  end.

(** [cookieRecordToCookieHeader(cookieRecord = {})] *)
Definition cookieRecordToCookieHeader (cookieRecord : option obj) : result string :=
  pairs <- mapM (fun entry => serialize (VStr (fst entry)) (snd entry) None)
                (default [] cookieRecord) ;;
  Ok (join connector pairs).

(** [anyToCookieHeader(data)] *)
Definition anyToCookieHeader (data : value) : result string :=
  r <- anyToCookieRecord data ;;
  cookieRecordToCookieHeader (Some r).

(** [cookieRecordToCookieObjects(cookieRecord = {}, attributes = {})]:
    [{ name, value: value, ...attributes }] for each entry. *)
Definition cookieRecordToCookieObjects (cookieRecord attributes : option obj)
  : list obj :=
  map (fun entry =>
         set_all (default [] attributes)
                 [("name", VStr (fst entry)); ("value", snd entry)])
      (default [] cookieRecord).

(** [cookiePropertyMap[lowerKey] || lowerKey], as the property key it is
    then used as.  The table is a plain object, so ["constructor"] and
    ["__proto__"] read what [Object.prototype] holds, a function and an
    object; both are truthy and their texts become the key. *)
Definition propName (lowerKey : string) : string :=
  match lookup lowerKey cookiePropertyMap with
  | Some p => p
  | None =>
      if String.eqb lowerKey "constructor" then "function Object() { [native code] }"
      else if String.eqb lowerKey "__proto__" then "[object Object]"
      else lowerKey
  end.

(** The callback of [flags.forEach]. *)
Definition parse_flag (result : obj) (flag : string) : obj :=
  let (key, val) := destructure2 (split_equals flag) in
  let lowerKey := toLowerCase key in
  let p := propName lowerKey in
  if String.eqb p "maxAge" then set "maxAge" (VNum (parseInt val)) result
  else set p (match val with
              | None => VBool true
              | Some s => VStr s
              end) result.

(** The callback of [array.map] in [setCookieHeadersToCookieObjects]. *)
Definition header_to_object (attributes : obj) (v : value) : result obj :=
  match v with
  | VStr string =>
      match split_semicolon_ws string with
      | nameValue :: flags =>
          let (name, value) := destructure2 (split_equals nameValue) in
          let result := [("name", VStr name); ("value", opt_text value)] in
          Ok (spread (fold_left parse_flag flags result) attributes)
      | [] => Throw TypeError
      end
  | _ => Throw TypeError
  end.

(** [setCookieHeadersToCookieObjects(array = [], attributes = {})] *)
Definition setCookieHeadersToCookieObjects
  (array : option (list value)) (attributes : option obj) : result (list obj) :=
  mapM (header_to_object (default [] attributes)) (default [] array).

(** [anyToCookieObjects(data, attributes)] *)
Definition anyToCookieObjects (data : value) (attributes : option obj)
  : result (list obj) :=
  match data with
  | VArr l =>
      if is_object (first l) && negb (is_array (first l)) then
        Ok (map (fun object => spread (own_props object) (opt_props attributes)) l)
      else if is_string (first l) then
        setCookieHeadersToCookieObjects (Some l) attributes
      else Ok []
  | _ =>
      r <- anyToCookieRecord data ;;
      Ok (cookieRecordToCookieObjects (Some r) (Some (opt_props attributes)))
  end.

(** The callback of [Object.entries(rest).forEach].  [options] is a plain
    object: assigning its [__proto__] defines no own property. *)
Definition add_option (opts : options) (entry : string * value) : options :=
  let (key, val) := entry in
  match val with
  | VUndefined => opts
  | _ =>
      if String.eqb key "expires" then set "expires" (ODate val) opts
      else if String.eqb key "maxAge" then set "maxAge" (OVal val) opts
      else if String.eqb key "__proto__" then opts
      else set key (OVal val) opts
  end.

(** What the callback of [cookieObjects.map] does with
    [{ ...obj, ...attributes }]. *)
Definition merged_to_header (merged : obj) : result string :=
  let name := get "name" merged in
  let value := get "value" merged in
  let rest := remove "value" (remove "name" merged) in
  serialize name value (Some (fold_left add_option rest [])).

Definition object_to_header (attributes : option obj) (o : value) : result string :=
  merged_to_header (spread (own_props o) (opt_props attributes)).

(** [cookieObjectsToSetCookieHeaders(cookieObjects = [], attributes)] *)
Definition cookieObjectsToSetCookieHeaders
  (cookieObjects : option (list value)) (attributes : option obj)
  : result (list string) :=
  mapM (object_to_header attributes) (default [] cookieObjects).

(** [anyToSetCookieHeaders(data, attributes)] *)
Definition anyToSetCookieHeaders (data : value) (attributes : option obj)
  : result (list string) :=
  cookieObjects <- anyToCookieObjects data attributes ;;
  cookieObjectsToSetCookieHeaders (Some (map VObj cookieObjects)) None.

(** ** Predicates of the statements *)

(** No key occurs twice: what every object of the engine satisfies. *)
Fixpoint unique_keys {V} (o : list (string * V)) : bool :=
  match o with
  | [] => true
  | (k, _) :: t =>
      match lookup k t with
      | Some _ => false
      | None => unique_keys t
      end
  end.

(** The shapes that [anyToCookieRecord] recognizes: a plain object, a
    string, an array whose first element is a string or a non-null
    object. *)
Definition recognized (data : value) : bool :=
  match data with
  | VObj _ | VStr _ => true
  | VArr l => is_string (first l) || is_object (first l)
  | _ => false
  end.

Definition is_nullish (v : value) : bool :=
  match v with
  | VUndefined | VNull => true
  | _ => false
  end.

(** [String(v)] gives a text. *)
Definition coercible (v : value) : bool :=
  match to_text v with
  | Ok _ => true
  | Throw _ => false
  end.

(** [v.name], where [v] has properties. *)
Definition name_of (v : value) : value :=
  match v with
  | VObj o => get "name" o
  | _ => VUndefined
  end.

(** An element that [cookieObjectsToCookieRecord] cannot read: [null] or
    [undefined], or one whose name gives no property key. *)
Definition unreadable (v : value) : bool :=
  is_nullish v || negb (coercible (name_of v)).

(** The elements of an array fit its first one: all strings after a
    string; after an object none of them [null] or [undefined], and each
    with a name that gives a property key. *)
Definition elements_fit (data : value) : bool :=
  match data with
  | VArr l =>
      if is_string (first l) then forallb is_string l
      else forallb (fun v => negb (unreadable v)) l
  | _ => true
  end.

(** Neither [;] nor [=] occurs in [s]. *)
Definition plain (s : string) : bool :=
  free_of semicolon s && free_of equals s.

(** A record with string values, as an object. *)
Definition record_of (R : list (string * string)) : obj :=
  map (fun entry => (fst entry, VStr (snd entry))) R.

(** All characters are ASCII. *)
Definition ascii_text (s : string) : bool := all_chars (in_range 0 127) s.

(** The names are cookie names and the values ASCII texts. *)
Definition cookie_entries (R : list (string * string)) : bool :=
  forallb (fun entry => cookie_name_ok (fst entry) && ascii_text (snd entry)) R.

Definition no_proto_name (R : list (string * string)) : bool :=
  forallb (fun entry => negb (String.eqb (fst entry) "__proto__")) R.

Definition is_undefined (v : value) : bool :=
  match v with
  | VUndefined => true
  | _ => false
  end.

(** The properties whose value is not [undefined]. *)
Definition defined_props (o : obj) : obj :=
  filter (fun entry => negb (is_undefined (snd entry))) o.

(** The text of one entry of a record. *)
Definition pair_text (entry : string * string) : string :=
  fst entry ++ String equals (encodeURIComponent (snd entry)).

(** What [decodeURIComponent] reads of an encoded character. *)
Definition token_of (c : ascii) : token :=
  if unreserved c then Raw c else Esc c.

(** No character of [s] is a space or a tab. *)
Definition solid (s : string) : bool := all_chars (fun c => negb (is_blank c)) s.

(** The option that [add_option] makes of a property. *)
Definition option_of (k : string) (val : value) : optval :=
  if String.eqb k "expires" then ODate val else OVal val.

(** The text of a date, valid or not. *)
Definition date_text (val : value) : string :=
  match toUTCString val with
  | Some text => text
  | None => "Invalid Date"
  end.

(** The text of a string and of a number. *)
Definition text_of (v : value) : string :=
  match v with
  | VStr s => s
  | VNum n => num_to_string n
  | _ => EmptyString
  end.

(** An attribute as it stands between two connectors. *)
Definition segment (wire : string) (v : optval) : string :=
  match v with
  | ODate val => wire ++ "=" ++ date_text val
  | OVal (VBool true) => wire
  | OVal v => wire ++ "=" ++ text_of v
  end.

(** What the field [k] of [O] adds to a header. *)
Definition field_text (k wire : string) (O : obj) : string :=
  match lookup k O with
  | Some val => connector ++ segment wire (option_of k val)
  | None => EmptyString
  end.

Definition same_site_name (s : string) : bool :=
  String.eqb s "Strict" || String.eqb s "Lax" || String.eqb s "None".

(** The integers that a number holds exactly. *)
Definition safe_integer (z : Z) : bool :=
  ((- 2 ^ 53 <? z) && (z <? 2 ^ 53))%Z.

Definition nonempty (s : string) : bool := negb (String.eqb s EmptyString).

(** A number that the engine holds exactly: [NaN], or an integer below
    [2^53] in absolute value. *)
Definition exact_number (n : num) : bool :=
  match n with
  | NaN => true
  | Int z => safe_integer z
  end.

(** What a field of a cookie object has to hold for the round trip through
    a Set-Cookie header: a cookie name; a value of characters that the
    percent-encoding leaves as they are; a domain and a path that
    [serialize] accepts, without [;] and [=]; an expiry, a string or an
    integer, that the engine reads as a valid date, with a text without
    [;] and [=]; an integer [maxAge]; flags that are set; one of the three
    names for [sameSite].  No other field. *)
Definition good_field (k : string) (val : value) : bool :=
  if String.eqb k "name" then
    match val with
    | VStr s => cookie_name_ok s
    | _ => false
    end
  else if String.eqb k "value" then
    match val with
    | VStr s => all_chars unreserved s
    | _ => false
    end
  else if String.eqb k "domain" then
    match val with
    | VStr s => domain_ok s && plain s && nonempty s
    | _ => false
    end
  else if String.eqb k "path" then
    match val with
    | VStr s => path_ok s && plain s && nonempty s
    | _ => false
    end
  else if String.eqb k "expires" then
    match val, toUTCString val with
    | VStr _, Some text => plain text
    | VNum (Int z), Some text => safe_integer z && plain text
    | _, _ => false
    end
  else if String.eqb k "maxAge" then
    match val with
    | VNum (Int z) => safe_integer z
    | _ => false
    end
  else if String.eqb k "httpOnly" || String.eqb k "secure" then
    match val with
    | VBool true => true
    | _ => false
    end
  else if String.eqb k "sameSite" then
    match val with
    | VStr s => same_site_name s
    | _ => false
    end
  else false.

(** A cookie object with a recognized attribute set. *)
Definition cookie_object (O : obj) : bool :=
  unique_keys O
  && forallb (fun entry => good_field (fst entry) (snd entry)) O
  && match lookup "name" O with Some _ => true | None => false end
  && match lookup "value" O with Some _ => true | None => false end.

(** Type normalization: [expires] as the text of its date. *)
Definition normalize_field (k : string) (val : value) : value :=
  if String.eqb k "expires" then VStr (date_text val) else val.

Definition normalize (O : obj) : obj :=
  map (fun entry => (fst entry, normalize_field (fst entry) (snd entry))) O.

(** What [f] makes of the attributes that [O] holds, among [names] and in
    their order. *)
Definition present_in {A} (names : list (string * string)) (O : obj)
  (f : string -> string -> value -> A) : list A :=
  flat_map (fun entry =>
              match lookup (fst entry) O with
              | Some val => [f (fst entry) (snd entry) val]
              | None => []
              end) names.

Definition segments_in (names : list (string * string)) (O : obj) : list string :=
  present_in names O (fun k wire val => segment wire (option_of k val)).

Definition entries_in (names : list (string * string)) (O : obj) : obj :=
  present_in names O (fun k _ val => (k, normalize_field k val)).

(** The first character is no white space. *)
Definition starts_solid (s : string) : bool :=
  match s with
  | String c _ => negb (is_space c)
  | EmptyString => false
  end.

(** The key under which [parse_flag] reads a segment, in lowercase. *)
Definition flag_key (flag : string) : string :=
  toLowerCase (fst (destructure2 (split_equals flag))).

(** A name and a value that [parse] reads as they stand: nothing to trim,
    nothing to decode, no quote in front. *)
Definition read_as_written (n v : string) : bool :=
  String.eqb (trim n) n && String.eqb (trim v) v && String.eqb (decode v) v
  && match v with
     | String c _ => negb (Ascii.eqb c (ascii_of_nat 34))
     | EmptyString => true
     end.

(** A Set-Cookie header whose first segment has two characters at least
    and holds exactly one [=], with a name and a value read as they are
    written; whose cookie is not named [__proto__]; and none of whose
    attributes is named [name] or [value]. *)
Definition simple_header (h : string) : bool :=
  match split_semicolon_ws h with
  | nameValue :: flags =>
      match split_equals nameValue with
      | [n; v] =>
          negb (String.eqb n "__proto__")
          && (2 <=? String.length nameValue)%nat
          && read_as_written n v
      | _ => false
      end
      && forallb (fun flag => negb (String.eqb (flag_key flag) "name")
                              && negb (String.eqb (flag_key flag) "value")) flags
  | [] => false
  end.

(** The text before the first [;]. *)
Fixpoint before_semicolon (s : string) : string :=
  match s with
  | EmptyString => EmptyString
  | String c t => if Ascii.eqb c semicolon then EmptyString
                  else String c (before_semicolon t)
  end.

(** The header [h] starts with the pair [n=v], which ends at the first [;]
    or with the header; the name is not empty, holds no [=] and is not
    [__proto__], and name and value are read as they are written. *)
Definition pair_prefix (h n v : string) : bool :=
  String.eqb (before_semicolon h) (n ++ String equals v)
  && free_of equals n && nonempty n
  && negb (String.eqb n "__proto__")
  && read_as_written n v.

(** The object that [setCookieHeadersToCookieObjects] makes of one header,
    before the caller's attributes are merged in. *)
Definition header_object (h : string) : obj :=
  match split_semicolon_ws h with
  | nameValue :: flags =>
      let (name, value) := destructure2 (split_equals nameValue) in
      fold_left parse_flag flags [("name", VStr name); ("value", opt_text value)]
  | [] => []
  end.

(** The [name=value] prefix of a Set-Cookie header, as a record. *)
Definition prefix_record (h : string) : obj :=
  cookieHeaderToCookieRecord (Some (hd EmptyString (split_delimiter h))).

(** ** Predicates of the further properties *)

(** The two fields every cookie object starts from. *)
Definition name_value (n : string) (v : value) : obj :=
  [("name", VStr n); ("value", v)].

(** The keys under which [setCookieHeadersToCookieObjects] stores what it
    reads: [name] and [value], the three keys of [cookiePropertyMap], the
    two texts that the prototype of the table gives, and keys in
    lowercase. *)
Definition stored_key (k : string) : bool :=
  String.eqb k "name" || String.eqb k "value"
  || String.eqb k "httpOnly" || String.eqb k "sameSite" || String.eqb k "maxAge"
  || String.eqb k "function Object() { [native code] }"
  || String.eqb k "[object Object]"
  || String.eqb (toLowerCase k) k.

(** An attribute segment: a key, and a value after [=] if it has one. *)
Definition flag_text (key : string) (val : option string) : string :=
  match val with
  | Some v => key ++ "=" ++ v
  | None => key
  end.

(** No attribute of the header is called [name] or [value]. *)
Definition keeps_name_value (h : string) : bool :=
  forallb (fun flag => negb (String.eqb (flag_key flag) "name")
                       && negb (String.eqb (flag_key flag) "value"))
          (tl (split_semicolon_ws h)).

(** A text in which [parseInt] finds no number: empty, or starting with a
    character that is neither white space, nor a sign, nor a digit. *)
Definition starts_without_number (v : string) : bool :=
  match v with
  | EmptyString => true
  | String c _ =>
      negb (is_space c) && negb (Ascii.eqb c "-") && negb (Ascii.eqb c "+")
      && match digit_of 10 c with
         | None => true
         | Some _ => false
         end
  end.

(** ** The repository's tests, evaluated *)

Example test_cookieHeaderToCookieRecord :
  cookieHeaderToCookieRecord (Some "session=abc123; id=42")
  = [("session", VStr "abc123"); ("id", VStr "42")].
Proof. reflexivity. Qed.

Example test_setCookieHeadersToCookieObjects :
  setCookieHeadersToCookieObjects
    (Some [VStr "session=abc123; Path=/; Expires=Wed, 03 Jun 2023 12:00:00 GMT";
           VStr "id=42; Path=/; Secure; Domain=example.com";
           VStr "theme=dark; Path=/; HttpOnly; SameSite=Strict"]) None
  = Ok [[("name", VStr "session"); ("value", VStr "abc123"); ("path", VStr "/");
         ("expires", VStr "Wed, 03 Jun 2023 12:00:00 GMT")];
        [("name", VStr "id"); ("value", VStr "42"); ("path", VStr "/");
         ("secure", VBool true); ("domain", VStr "example.com")];
        [("name", VStr "theme"); ("value", VStr "dark"); ("path", VStr "/");
         ("httpOnly", VBool true); ("sameSite", VStr "Strict")]].
Proof. reflexivity. Qed.

Example test_cookieObjectsToCookieRecord :
  cookieObjectsToCookieRecord
    (Some [VObj [("name", VStr "session"); ("value", VStr "abc123"); ("path", VStr "/")];
           VObj [("name", VStr "id"); ("value", VStr "42"); ("path", VStr "/")];
           VObj [("name", VStr "theme"); ("value", VStr "dark"); ("path", VStr "/")]])
  = Ok [("session", VStr "abc123"); ("id", VStr "42"); ("theme", VStr "dark")].
Proof. reflexivity. Qed.

Example test_anyToCookieRecord_number :
  anyToCookieRecord (VNum (Int 42)) = Throw UnknownFormat.
Proof. reflexivity. Qed.

Example test_anyToSetCookieHeaders_from_header :
  anyToSetCookieHeaders (VStr "session=abc123; id=42")
    (Some [("secure", VBool true); ("sameSite", VStr "Lax")])
  = Ok ["session=abc123; Secure; SameSite=Lax"; "id=42; Secure; SameSite=Lax"].
Proof. reflexivity. Qed.

Example test_full_round_trip :
  let complexCookieObjects :=
    [VObj [("name", VStr "session"); ("value", VStr "abc123"); ("path", VStr "/api");
           ("domain", VStr "example.com"); ("httpOnly", VBool true);
           ("secure", VBool true); ("sameSite", VStr "Strict");
           ("maxAge", VNum (Int 3600))];
     VObj [("name", VStr "user"); ("value", VStr "john"); ("path", VStr "/");
           ("httpOnly", VBool true); ("sameSite", VStr "Lax")]] in
  let expected :=
    ["session=abc123; Max-Age=3600; Domain=example.com; Path=/api; HttpOnly; Secure; SameSite=Strict";
     "user=john; Path=/; HttpOnly; SameSite=Lax"] in
  (headers1 <- cookieObjectsToSetCookieHeaders (Some complexCookieObjects) None ;;
   objects <- setCookieHeadersToCookieObjects (Some (map VStr headers1)) None ;;
   headers2 <- cookieObjectsToSetCookieHeaders (Some (map VObj objects)) None ;;
   Ok (headers1, headers2))
  = Ok (expected, expected).
Proof. reflexivity. Qed.

Ltac split_good H :=
  repeat match type of H with
         | (_ && _ = true) =>
             let H' := fresh H in
             apply andb_prop in H; destruct H as [H H']
         end.

(** ** Objects: lookups and updates *)

Lemma lookup_set {V} (k k' : string) (v : V) (o : list (string * V)) :
  lookup k' (set k v o) = if String.eqb k k' then Some v else lookup k' o.
Proof.
  induction o as [|[k0 v0] t IH]; simpl.
  - reflexivity.
  - destruct (String.eqb_spec k0 k) as [->|Hk0]; simpl.
    + destruct (String.eqb k k'); reflexivity.
    + rewrite IH. destruct (String.eqb_spec k0 k') as [->|Hk'].
      * destruct (String.eqb_spec k k'); [congruence | reflexivity].
      * reflexivity.
Qed.

Lemma lookup_app {V} (k : string) (a b : list (string * V)) :
  lookup k (a ++ b)%list = match lookup k a with
                           | Some v => Some v
                           | None => lookup k b
                           end.
Proof.
  induction a as [|[k0 v0] t IH]; simpl; [reflexivity|].
  destruct (String.eqb k0 k); [reflexivity | exact IH].
Qed.

Lemma lookup_remove {V} (k k' : string) (o : list (string * V)) :
  lookup k' (remove k o) = if String.eqb k k' then None else lookup k' o.
Proof.
  unfold remove. induction o as [|[k0 v0] t IH]; simpl.
  - now destruct (String.eqb k k').
  - destruct (String.eqb_spec k0 k) as [->|Hne]; simpl.
    + rewrite IH. now destruct (String.eqb k k').
    + rewrite IH. destruct (String.eqb_spec k0 k') as [->|_]; [|reflexivity].
      destruct (String.eqb_spec k k'); [congruence | reflexivity].
  Qed.

Lemma lookup_None_keys {V} (k : string) (o : list (string * V)) :
  lookup k o = None <-> ~ In k (keys o).
Proof.
  induction o as [|[k0 v0] t IH]; simpl.
  - tauto.
  - destruct (String.eqb_spec k0 k) as [->|Hk0].
    + split; [discriminate | tauto].
    + rewrite IH. tauto.
Qed.

Lemma unique_keys_NoDup {V} (o : list (string * V)) :
  unique_keys o = true <-> NoDup (keys o).
Proof.
  induction o as [|[k0 v0] t IH]; simpl.
  - split; [constructor | reflexivity].
  - destruct (lookup k0 t) eqn:E.
    + split; [discriminate|]. intros H. inversion H as [|? ? Hin _]; subst.
      apply lookup_None_keys in Hin. congruence.
    + apply lookup_None_keys in E. rewrite IH. split.
      * intros H. constructor; assumption.
      * intros H. inversion H; assumption.
Qed.

Lemma set_fresh {V} (k : string) (v : V) (o : list (string * V)) :
  lookup k o = None -> set k v o = (o ++ [(k, v)])%list.
Proof.
  induction o as [|[k0 v0] t IH]; simpl; intros H.
  - reflexivity.
  - destruct (String.eqb k0 k); [discriminate|]. now rewrite IH.
Qed.

Lemma keys_set {V} (k : string) (v : V) (o : list (string * V)) :
  keys (set k v o) =
  match lookup k o with
  | Some _ => keys o
  | None => (keys o ++ [k])%list
  end.
Proof.
  induction o as [|[k0 v0] t IH]; simpl.
  - reflexivity.
  - destruct (String.eqb k0 k); simpl; [reflexivity|].
    rewrite IH. destruct (lookup k t); reflexivity.
Qed.

Lemma unique_keys_set {V} (k : string) (v : V) (o : list (string * V)) :
  unique_keys o = true -> unique_keys (set k v o) = true.
Proof.
  rewrite !unique_keys_NoDup, keys_set. intros H.
  destruct (lookup k o) eqn:E; [assumption|].
  apply lookup_None_keys in E.
  apply NoDup_rev in H. rewrite <- (rev_involutive (keys o ++ [k])%list).
  apply NoDup_rev. rewrite rev_app_distr. simpl. constructor; [|assumption].
  now rewrite <- in_rev.
Qed.

Lemma unique_keys_set_all {V} (props o : list (string * V)) :
  unique_keys o = true -> unique_keys (set_all props o) = true.
Proof.
  revert o. induction props as [|[k v] t IH]; simpl; intros o H.
  - assumption.
  - apply IH, unique_keys_set, H.
Qed.

Lemma set_all_app {V} (a b o : list (string * V)) :
  set_all (a ++ b) o = set_all b (set_all a o).
Proof. unfold set_all. apply fold_left_app. Qed.

(** Rebuilding an object from its own entries gives it back. *)
Lemma set_all_fresh {V} (props o : list (string * V)) :
  unique_keys (o ++ props) = true -> set_all props o = (o ++ props)%list.
Proof.
  revert o. induction props as [|[k v] t IH]; intros o H.
  - now rewrite app_nil_r.
  - change (set_all ((k, v) :: t) o) with (set_all t (set k v o)).
    assert (Hk : lookup k o = None).
    { apply lookup_None_keys. intros Hin.
      apply unique_keys_NoDup in H. unfold keys in H. rewrite map_app in H.
      simpl in H. apply NoDup_remove_2 in H. apply H.
      apply in_or_app. now left. }
    rewrite (set_fresh _ _ _ Hk).
    rewrite IH; rewrite <- app_assoc; simpl; [reflexivity | exact H].
Qed.

Lemma set_all_id {V} (o : list (string * V)) :
  unique_keys o = true -> set_all o [] = o.
Proof. intros H. now rewrite set_all_fresh. Qed.

(** In [set_all props o] a key of [props] has the value [props] gives it,
    any other key the value it has in [o]. *)
Lemma lookup_set_all {V} (k : string) (props o : list (string * V)) :
  unique_keys props = true ->
  lookup k (set_all props o) =
  match lookup k props with
  | Some v => Some v
  | None => lookup k o
  end.
Proof.
  revert o. induction props as [|[k0 v0] t IH]; simpl; intros o H.
  - reflexivity.
  - destruct (lookup k0 t) eqn:E0; [discriminate|].
    change (set_all ((k0, v0) :: t) o) with (set_all t (set k0 v0 o)).
    rewrite (IH _ H), lookup_set.
    destruct (String.eqb_spec k0 k) as [->|Hk].
    + now rewrite E0.
    + reflexivity.
Qed.

Lemma unique_keys_spread (a b : obj) : unique_keys (spread a b) = true.
Proof. unfold spread. now apply unique_keys_set_all, unique_keys_set_all. Qed.

(** [{ ...a, ...b }]: the keys of [b] win, the other keys of [a] stay. *)
Lemma lookup_spread (k : string) (a b : obj) :
  unique_keys a = true -> unique_keys b = true ->
  lookup k (spread a b) =
  match lookup k b with
  | Some v => Some v
  | None => lookup k a
  end.
Proof.
  intros Ha Hb. unfold spread.
  rewrite (lookup_set_all _ _ _ Hb), (lookup_set_all _ _ _ Ha). simpl.
  destruct (lookup k a); reflexivity.
Qed.

Lemma spread_nil_r (a : obj) : unique_keys a = true -> spread a [] = a.
Proof. intros H. unfold spread. simpl. now apply set_all_id. Qed.

(** ** Exceptions of the array conversions *)

Lemma bind_not_unknown {A B} (r : result A) (k : A -> result B) :
  r <> Throw UnknownFormat -> (forall a, k a <> Throw UnknownFormat) ->
  bind r k <> Throw UnknownFormat.
Proof.
  destruct r as [a|e]; simpl; intros Hr Hk.
  - apply Hk.
  - intros E. apply Hr. now inversion E.
Qed.

Lemma mapM_not_unknown {A B} (f : A -> result B) (l : list A) :
  (forall a, f a <> Throw UnknownFormat) -> mapM f l <> Throw UnknownFormat.
Proof.
  intros Hf. induction l as [|a t IH]; simpl.
  - discriminate.
  - apply bind_not_unknown; [apply Hf|]. intros b.
    apply bind_not_unknown; [exact IH | discriminate].
Qed.

Lemma mapM_ok {A B} (f : A -> result B) (l : list A) :
  (forall a, In a l -> exists b, f a = Ok b) -> exists bs, mapM f l = Ok bs.
Proof.
  induction l as [|a t IH]; simpl; intros Hf.
  - now exists [].
  - destruct (Hf a (or_introl eq_refl)) as [b ->].
    destruct IH as [bs ->]; [intros; apply Hf; now right|].
    simpl. now exists (b :: bs).
Qed.

Lemma mapM_map {A B C} (f : B -> result C) (g : A -> B) (h : A -> C) (l : list A) :
  (forall a, f (g a) = Ok (h a)) -> mapM f (map g l) = Ok (map h l).
Proof.
  intros H. induction l as [|a t IH]; simpl.
  - reflexivity.
  - now rewrite H, IH.
Qed.

Lemma header_to_record_not_unknown (v : value) :
  header_to_record v <> Throw UnknownFormat.
Proof. destruct v; discriminate. Qed.

Lemma to_text_not_unknown : forall v : value, to_text v <> Throw UnknownFormat.
Proof.
  fix IH 1. intros [| |[|]|n|s|l|o]; cbn [to_text]; try discriminate.
  - apply bind_not_unknown; [|discriminate].
    induction l as [|a t IHl]; cbn [mapM]; [discriminate|].
    apply bind_not_unknown.
    + pose proof (IH a) as Ha.
      destruct a; cbn [element_text]; try discriminate; exact Ha.
    + intros b. apply bind_not_unknown; [exact IHl | discriminate].
  - destruct (lookup "toString" o); discriminate.
Qed.

Lemma object_to_entry_not_unknown (v : value) :
  object_to_entry v <> Throw UnknownFormat.
Proof.
  unfold object_to_entry.
  destruct v; cbn [get_prop bind]; try discriminate;
    apply bind_not_unknown; try apply to_text_not_unknown; discriminate.
Qed.

(** What [object_to_entry] can read, and what it cannot. *)
Lemma object_to_entry_unreadable (v : value) :
  object_to_entry v = Throw TypeError <-> unreadable v = true.
Proof.
  unfold object_to_entry, unreadable, coercible, name_of.
  destruct v as [| | | | | |o]; cbn [get_prop bind is_nullish orb negb to_text];
    try (split; [reflexivity | reflexivity]);
    try (split; discriminate).
  destruct (to_text (get "name" o)) as [key|e] eqn:E; cbn [bind negb].
  - split; discriminate.
  - destruct e; [now apply to_text_not_unknown in E|]. split; reflexivity.
Qed.

Lemma object_to_entry_readable (v : value) :
  unreadable v = false -> exists entry, object_to_entry v = Ok entry.
Proof.
  intros H. destruct (object_to_entry v) as [entry|e] eqn:E; [now exists entry|].
  destruct e.
  - now apply object_to_entry_not_unknown in E.
  - apply object_to_entry_unreadable in E. congruence.
Qed.

Ltac not_unknown :=
  repeat first
    [ discriminate
    | apply to_text_not_unknown
    | match goal with
      | |- bind _ _ <> Throw UnknownFormat => apply bind_not_unknown; [|intros ?]
      | |- (if ?b then _ else _) <> Throw UnknownFormat => destruct b
      | |- match ?x with _ => _ end <> Throw UnknownFormat => destruct x
      end ].

Lemma add_attributes_not_unknown (o : options) (str : string) :
  add_attributes o str <> Throw UnknownFormat.
Proof.
  unfold add_attributes, add_max_age, add_text, add_expires, add_priority,
    add_same_site.
  not_unknown.
Qed.

Lemma serialize_not_unknown (name value : value) (opts : option options) :
  serialize name value opts <> Throw UnknownFormat.
Proof.
  unfold serialize. cbv zeta.
  apply bind_not_unknown; [apply to_text_not_unknown|]. intros n.
  destruct (negb (cookie_name_ok n)); [discriminate|].
  destruct (truthy_option _); [discriminate|].
  apply bind_not_unknown; [apply to_text_not_unknown|]. intros v.
  destruct (negb (cookie_value_ok _)); [discriminate|].
  apply add_attributes_not_unknown.
Qed.

Lemma cookieRecordToCookieHeader_not_unknown (x : option obj) :
  cookieRecordToCookieHeader x <> Throw UnknownFormat.
Proof.
  apply bind_not_unknown; [|discriminate].
  apply mapM_not_unknown. intros a. apply serialize_not_unknown.
Qed.

Lemma cookieObjectsToSetCookieHeaders_not_unknown
  (x : option (list value)) (attributes : option obj) :
  cookieObjectsToSetCookieHeaders x attributes <> Throw UnknownFormat.
Proof.
  apply mapM_not_unknown. intros a. apply serialize_not_unknown.
Qed.

Lemma header_to_object_not_unknown (attributes : obj) (v : value) :
  header_to_object attributes v <> Throw UnknownFormat.
Proof.
  destruct v; try discriminate. simpl.
  destruct (split_semicolon_ws s); [discriminate|].
  destruct (destructure2 (split_equals s0)). discriminate.
Qed.

Lemma setCookieHeadersToCookieRecord_not_unknown (x : option (list value)) :
  setCookieHeadersToCookieRecord x <> Throw UnknownFormat.
Proof.
  apply bind_not_unknown; [|discriminate].
  apply mapM_not_unknown, header_to_record_not_unknown.
Qed.

Lemma cookieObjectsToCookieRecord_not_unknown (x : option (list value)) :
  cookieObjectsToCookieRecord x <> Throw UnknownFormat.
Proof.
  apply bind_not_unknown; [|discriminate].
  apply mapM_not_unknown, object_to_entry_not_unknown.
Qed.

Lemma setCookieHeadersToCookieObjects_not_unknown
  (x : option (list value)) (attributes : option obj) :
  setCookieHeadersToCookieObjects x attributes <> Throw UnknownFormat.
Proof.
  unfold setCookieHeadersToCookieObjects.
  apply mapM_not_unknown. intros a. apply header_to_object_not_unknown.
Qed.

(** ** Calls without arguments *)

(** C1 (as amended).  Each conversion that declares a default for its
    arguments returns the empty string or an empty collection when called
    with none; the four universal converters take [data] without a
    default and raise [UnknownFormat] on [undefined]. *)
Theorem empty_input_defaults :
  cookieHeaderToCookieRecord None = [] /\
  setCookieHeadersToCookieRecord None = Ok [] /\
  cookieObjectsToCookieRecord None = Ok [] /\
  cookieRecordToCookieHeader None = Ok EmptyString /\
  cookieRecordToCookieObjects None None = [] /\
  setCookieHeadersToCookieObjects None None = Ok [] /\
  cookieObjectsToSetCookieHeaders None None = Ok [] /\
  anyToCookieRecord VUndefined = Throw UnknownFormat /\
  anyToCookieHeader VUndefined = Throw UnknownFormat /\
  (forall attributes, anyToCookieObjects VUndefined attributes = Throw UnknownFormat) /\
  (forall attributes, anyToSetCookieHeaders VUndefined attributes = Throw UnknownFormat).
Proof. repeat split; reflexivity. Qed.

(** ** The dispatcher *)

Lemma recognized_not_unknown (data : value) :
  anyToCookieRecord data = Throw UnknownFormat <-> recognized data = false.
Proof.
  destruct data as [| | | | |l|]; simpl; try (split; [reflexivity | reflexivity]);
    try (split; discriminate).
  destruct (is_string (first l)) eqn:Es; simpl.
  - split; [|discriminate]. intros H.
    now apply setCookieHeadersToCookieRecord_not_unknown in H.
  - destruct (is_object (first l)) eqn:Eo.
    + split; [|discriminate]. intros H.
      now apply cookieObjectsToCookieRecord_not_unknown in H.
    + split; reflexivity.
Qed.

Lemma recognized_fit_ok (data : value) :
  recognized data = true -> elements_fit data = true ->
  exists r, anyToCookieRecord data = Ok r.
Proof.
  destruct data as [| | | | s|l|o]; simpl; try discriminate.
  - intros _ _. eexists. reflexivity.
  - intros Hr Hfit. destruct (is_string (first l)) eqn:Es.
    + unfold setCookieHeadersToCookieRecord. simpl.
      destruct (mapM_ok header_to_record l) as [items ->].
      * intros a Ha. rewrite forallb_forall in Hfit. specialize (Hfit a Ha).
        destruct a; try discriminate. eexists. reflexivity.
      * simpl. eexists. reflexivity.
    + simpl in Hr. rewrite Hr. unfold cookieObjectsToCookieRecord. simpl.
      destruct (mapM_ok object_to_entry l) as [entries ->].
      * intros a Ha. rewrite forallb_forall in Hfit. specialize (Hfit a Ha).
        apply object_to_entry_readable. now apply negb_true_iff in Hfit.
      * simpl. eexists. reflexivity.
  - intros _ _. eexists. reflexivity.
Qed.

(** C4 (as amended).  [anyToCookieRecord] raises [UnknownFormat] exactly
    when its input is neither a plain object, nor a string, nor an array
    whose first element is a string or a non-null object.  On a recognized
    shape it returns a record, provided the later elements of an array fit
    the first one: all strings, or none of them [null] or [undefined] and
    each with a name that gives a property key (an object whose own
    [toString] is not a function gives none).
    The other conversions raise [UnknownFormat] only by way of
    [anyToCookieRecord]: the conversions from and to one format never do,
    [anyToCookieHeader] does when [anyToCookieRecord] does,
    [anyToCookieObjects] when it is given a non-array on which
    [anyToCookieRecord] does, [anyToSetCookieHeaders] when
    [anyToCookieObjects] does.  (The two remaining conversions return
    plain values.) *)
Theorem unknown_format_taxonomy
  (data : value) (attributes : option obj) (x : option (list value))
  (record : option obj) :
  (anyToCookieRecord data = Throw UnknownFormat <-> recognized data = false) /\
  (recognized data = true -> elements_fit data = true ->
   exists r, anyToCookieRecord data = Ok r) /\
  setCookieHeadersToCookieRecord x <> Throw UnknownFormat /\
  cookieObjectsToCookieRecord x <> Throw UnknownFormat /\
  setCookieHeadersToCookieObjects x attributes <> Throw UnknownFormat /\
  cookieRecordToCookieHeader record <> Throw UnknownFormat /\
  cookieObjectsToSetCookieHeaders x attributes <> Throw UnknownFormat /\
  (anyToCookieHeader data = Throw UnknownFormat <->
   anyToCookieRecord data = Throw UnknownFormat) /\
  (anyToCookieObjects data attributes = Throw UnknownFormat <->
   is_array data = false /\ anyToCookieRecord data = Throw UnknownFormat) /\
  (anyToSetCookieHeaders data attributes = Throw UnknownFormat <->
   anyToCookieObjects data attributes = Throw UnknownFormat).
Proof.
  split; [apply recognized_not_unknown|].
  split; [apply recognized_fit_ok|].
  split; [apply setCookieHeadersToCookieRecord_not_unknown|].
  split; [apply cookieObjectsToCookieRecord_not_unknown|].
  split; [apply setCookieHeadersToCookieObjects_not_unknown|].
  split; [apply cookieRecordToCookieHeader_not_unknown|].
  split; [apply cookieObjectsToSetCookieHeaders_not_unknown|].
  split; [|split].
  - unfold anyToCookieHeader.
    destruct (anyToCookieRecord data) as [r|e]; cbn [bind].
    + split; [|discriminate]. intros H.
      now apply cookieRecordToCookieHeader_not_unknown in H.
    + split; intros H; inversion H; reflexivity.
  - destruct data as [| | | | s|l|o]; simpl;
      try (split; [intros _; split; reflexivity | reflexivity]);
      try (split; [discriminate | intros [_ H]; discriminate H]).
    split; [|intros [H _]; discriminate H]. intros H. exfalso.
    destruct (is_object (first l) && negb (is_array (first l))); [discriminate|].
    destruct (is_string (first l)); [|discriminate].
    now apply setCookieHeadersToCookieObjects_not_unknown in H.
  - unfold anyToSetCookieHeaders.
    destruct (anyToCookieObjects data attributes) as [r|e]; cbn [bind].
    + split; [|discriminate]. intros H.
      now apply cookieObjectsToSetCookieHeaders_not_unknown in H.
    + split; intros H; inversion H; reflexivity.
Qed.

(** C9.  On an array whose first element is neither a string nor a
    non-null object (the empty array is one) [anyToCookieObjects] returns
    the empty array, and [anyToCookieRecord] raises [UnknownFormat]. *)
Theorem array_with_unrecognized_first (l : list value) (attributes : option obj) :
  is_string (first l) = false -> is_object (first l) = false ->
  anyToCookieObjects (VArr l) attributes = Ok [] /\
  anyToCookieRecord (VArr l) = Throw UnknownFormat.
Proof. intros Hs Ho. simpl. rewrite Hs, Ho. simpl. split; reflexivity. Qed.

(** ** Set-Cookie headers to a record *)

Lemma setCookieHeadersToCookieRecord_fold (H : list string) :
  setCookieHeadersToCookieRecord (Some (map VStr H)) =
  Ok (fold_left (fun result h => spread result (prefix_record h)) H []).
Proof.
  unfold setCookieHeadersToCookieRecord. simpl.
  rewrite (mapM_map header_to_record VStr prefix_record) by reflexivity.
  simpl. f_equal. generalize (@nil (string * value)).
  induction H as [|h t IH]; simpl; intros acc; [reflexivity | apply IH].
Qed.

Lemma unique_keys_assign_to_empty (o : obj) : unique_keys (assign_to_empty o) = true.
Proof. unfold assign_to_empty. now apply unique_keys_set_all. Qed.

Lemma unique_keys_prefix_record (h : string) : unique_keys (prefix_record h) = true.
Proof. apply unique_keys_assign_to_empty. Qed.

Lemma unique_keys_fold_spread {A} (f : A -> obj) (l : list A) (acc : obj) :
  unique_keys acc = true ->
  unique_keys (fold_left (fun result a => spread result (f a)) l acc) = true.
Proof.
  revert acc. induction l as [|a t IH]; simpl; intros acc H.
  - assumption.
  - apply IH, unique_keys_spread.
Qed.

(** ** Set-Cookie headers to objects *)

(** C7, at the input where the code departs from it: the first segment is
    split on every [=] and the first two pieces are kept, so the value of
    [a=b=c] is cut to [b]; the conversion to a record, which goes through
    [parse], keeps [b=c]. *)
Theorem first_segment_split_on_every_equals :
  setCookieHeadersToCookieObjects (Some [VStr "a=b=c"]) None =
    Ok [[("name", VStr "a"); ("value", VStr "b")]] /\
  setCookieHeadersToCookieRecord (Some [VStr "a=b=c"]) = Ok [("a", VStr "b=c")].
Proof. split; reflexivity. Qed.

(** ** Objects to Set-Cookie headers *)

Lemma lookup_filter_None {V} (f : string * V -> bool) (k : string)
  (o : list (string * V)) :
  lookup k o = None -> lookup k (filter f o) = None.
Proof.
  induction o as [|[k0 v0] t IH]; simpl; intros H; [reflexivity|].
  destruct (String.eqb k0 k) eqn:E; [discriminate|].
  destruct (f (k0, v0)); simpl; [rewrite E|]; now apply IH.
Qed.

Lemma unique_keys_filter {V} (f : string * V -> bool) (o : list (string * V)) :
  unique_keys o = true -> unique_keys (filter f o) = true.
Proof.
  induction o as [|[k0 v0] t IH]; simpl; intros H; [reflexivity|].
  destruct (lookup k0 t) eqn:E; [discriminate|].
  destruct (f (k0, v0)); simpl; [|now apply IH].
  rewrite (lookup_filter_None f _ _ E). now apply IH.
Qed.

Lemma lookup_In {V} (k : string) (v : V) (o : list (string * V)) :
  unique_keys o = true -> In (k, v) o -> lookup k o = Some v.
Proof.
  induction o as [|[k0 v0] t IH]; simpl; intros H Hin; [contradiction|].
  destruct (lookup k0 t) eqn:E; [discriminate|].
  destruct Hin as [Heq|Hin].
  - inversion Heq; subst. now rewrite String.eqb_refl.
  - destruct (String.eqb_spec k0 k) as [->|Hk].
    + rewrite (IH H Hin) in E. discriminate.
    + now apply IH.
Qed.

Lemma get_defined_props (k : string) (m : obj) :
  unique_keys m = true -> get k (defined_props m) = get k m.
Proof.
  unfold get. induction m as [|[k0 v0] t IH]; simpl; intros H; [reflexivity|].
  destruct (lookup k0 t) eqn:E; [discriminate|].
  destruct (String.eqb_spec k0 k) as [->|Hk].
  - destruct v0; simpl; rewrite ?String.eqb_refl; try reflexivity.
    unfold defined_props. now rewrite (lookup_filter_None _ _ _ E).
  - destruct (is_undefined v0); simpl.
    + now apply IH.
    + destruct (String.eqb_spec k0 k); [contradiction|]. now apply IH.
Qed.

Lemma remove_defined_props (k : string) (m : obj) :
  remove k (defined_props m) = defined_props (remove k m).
Proof.
  unfold remove, defined_props.
  induction m as [|[k0 v0] t IH]; simpl; [reflexivity|].
  destruct (is_undefined v0) eqn:Ev; destruct (String.eqb k0 k) eqn:Ek; simpl;
    rewrite ?Ev, ?Ek; simpl; now rewrite IH.
Qed.

Lemma add_option_defined_props (l : obj) (acc : options) :
  fold_left add_option (defined_props l) acc = fold_left add_option l acc.
Proof.
  revert acc. induction l as [|[k0 v0] t IH]; simpl; intros acc; [reflexivity|].
  destruct v0; simpl; apply IH.
Qed.

Lemma merged_to_header_defined_props (m : obj) :
  unique_keys m = true ->
  merged_to_header (defined_props m) = merged_to_header m.
Proof.
  intros H. unfold merged_to_header.
  rewrite !(get_defined_props _ _ H), !remove_defined_props.
  now rewrite add_option_defined_props.
Qed.

Lemma remove_absent {V} (k : string) (o : list (string * V)) :
  lookup k o = None -> remove k o = o.
Proof.
  unfold remove. induction o as [|[k0 v0] t IH]; simpl; intros H; [reflexivity|].
  destruct (String.eqb k0 k); [discriminate|]. simpl. now rewrite IH.
Qed.

Lemma defined_props_remove_undefined (k : string) (m : obj) :
  unique_keys m = true -> lookup k m = Some VUndefined ->
  defined_props (remove k m) = defined_props m.
Proof.
  induction m as [|[k0 v0] t IH]; simpl; intros H Hk; [reflexivity|].
  destruct (lookup k0 t) eqn:E; [discriminate|].
  unfold remove, defined_props in *. simpl.
  destruct (String.eqb_spec k0 k) as [->|Hne]; simpl.
  - inversion Hk; subst. simpl.
    pose proof (remove_absent _ _ E) as R. unfold remove in R. now rewrite R.
  - now rewrite (IH H Hk).
Qed.

Lemma lookup_add_option_None (k : string) (l : obj) (acc : options) :
  lookup k acc = None ->
  (forall v, In (k, v) l -> v = VUndefined) ->
  lookup k (fold_left add_option l acc) = None.
Proof.
  revert acc. induction l as [|[k0 v0] t IH]; simpl; intros acc Hacc Hl.
  - assumption.
  - apply IH; [|intros v Hv; apply Hl; now right].
    destruct (String.eqb_spec k0 k) as [->|Hne].
    + rewrite (Hl v0 (or_introl eq_refl)). exact Hacc.
    + destruct v0; try exact Hacc;
        (destruct (String.eqb_spec k0 "expires") as [->|_];
         [|destruct (String.eqb_spec k0 "maxAge") as [->|_];
           [|destruct (String.eqb k0 "__proto__")]]);
        rewrite ?lookup_set; try exact Hacc;
        match goal with
        | |- context [String.eqb ?a k] =>
            destruct (String.eqb_spec a k); [contradiction | exact Hacc]
        end.
Qed.

Lemma lookup_add_options (k : string) (l : obj) (acc : options) :
  unique_keys l = true ->
  lookup k (fold_left add_option l acc)
  = match lookup k l with
    | Some v =>
        if is_undefined v || String.eqb k "__proto__" then lookup k acc
        else Some (option_of k v)
    | None => lookup k acc
    end.
Proof.
  revert acc. induction l as [|[k0 v0] t IH]; intros acc Hu; [reflexivity|].
  cbn [unique_keys] in Hu. destruct (lookup k0 t) eqn:E0; [discriminate|].
  cbn [fold_left lookup]. rewrite (IH _ Hu).
  destruct (String.eqb_spec k0 k) as [->|Hne].
  - rewrite E0. unfold add_option, option_of.
    destruct v0; cbn [is_undefined orb]; try reflexivity;
      (destruct (String.eqb_spec k "expires") as [->|_];
       [now rewrite lookup_set|];
       destruct (String.eqb_spec k "maxAge") as [->|_];
       [now rewrite lookup_set|];
       destruct (String.eqb k "__proto__"); [reflexivity|];
       now rewrite lookup_set, String.eqb_refl).
  - assert (Hacc : lookup k (add_option acc (k0, v0)) = lookup k acc).
    { unfold add_option. destruct v0; try reflexivity;
        (destruct (String.eqb_spec k0 "expires") as [->|_];
         [rewrite lookup_set;
          destruct (String.eqb_spec "expires" k); [contradiction | reflexivity]|];
         destruct (String.eqb_spec k0 "maxAge") as [->|_];
         [rewrite lookup_set;
          destruct (String.eqb_spec "maxAge" k); [contradiction | reflexivity]|];
         destruct (String.eqb k0 "__proto__"); [reflexivity|];
         rewrite lookup_set;
         destruct (String.eqb_spec k0 k); [contradiction | reflexivity]). }
    rewrite Hacc. reflexivity.
Qed.

Lemma lookup_defined_props (k : string) (m : obj) :
  unique_keys m = true ->
  lookup k (defined_props m)
  = match lookup k m with
    | Some v => if is_undefined v then None else Some v
    | None => None
    end.
Proof.
  unfold defined_props.
  induction m as [|[k0 v0] t IH]; cbn [unique_keys filter lookup snd]; intros H;
    [reflexivity|].
  destruct (lookup k0 t) eqn:E; [discriminate|].
  destruct (String.eqb_spec k0 k) as [->|Hne].
  - destruct (is_undefined v0); cbn [negb lookup].
    + now rewrite (lookup_filter_None _ _ _ E).
    + now rewrite String.eqb_refl.
  - destruct (is_undefined v0); cbn [negb lookup]; [now apply IH|].
    destruct (String.eqb_spec k0 k); [contradiction | now apply IH].
Qed.

(** [serialize] reads its options by their keys only. *)
Lemma serialize_ext (name value : value) (o1 o2 : options) :
  (forall k, lookup k o1 = lookup k o2) ->
  serialize name value (Some o1) = serialize name value (Some o2).
Proof.
  intros H.
  unfold serialize, add_attributes, add_max_age, add_text, add_expires, add_flag,
    add_priority, add_same_site, option_value. cbn [default].
  now rewrite !H.
Qed.

(** The header of a merged record rests on its defined properties only,
    whatever their order. *)
Lemma merged_to_header_same_defined (m1 m2 : obj) :
  unique_keys m1 = true -> unique_keys m2 = true ->
  (forall k, lookup k (defined_props m1) = lookup k (defined_props m2)) ->
  merged_to_header m1 = merged_to_header m2.
Proof.
  intros H1 H2 H.
  rewrite <- (merged_to_header_defined_props m1 H1),
          <- (merged_to_header_defined_props m2 H2).
  assert (U1 : unique_keys (defined_props m1) = true)
    by (unfold defined_props; now apply unique_keys_filter).
  assert (U2 : unique_keys (defined_props m2) = true)
    by (unfold defined_props; now apply unique_keys_filter).
  unfold merged_to_header, get. rewrite !H. apply serialize_ext. intros k.
  rewrite !lookup_add_options
    by (unfold remove; now apply unique_keys_filter, unique_keys_filter).
  now rewrite !lookup_remove, !H.
Qed.

(** C10 (as amended).  A property of the merged record
    [{ ...obj, ...attributes }] whose value is [undefined] is skipped: the
    header is the one of the merged record without its undefined
    properties; such a key is no option of [serialize]; and the header is
    the one the merged record gives once the key is deleted.  So a field
    that the object holds as [undefined] is as good as left out of the
    object; an attribute given as [undefined] is as good as left out of
    the attributes when the object has no such field, or holds it as
    [undefined]. *)
Theorem undefined_fields_are_skipped (o : value) (attributes : option obj) :
  let merged := spread (own_props o) (opt_props attributes) in
  object_to_header attributes o = merged_to_header (defined_props merged) /\
  (forall k, lookup k merged = Some VUndefined ->
     lookup k (fold_left add_option (remove "value" (remove "name" merged)) [])
       = None /\
     object_to_header attributes o = merged_to_header (remove k merged)) /\
  (forall (O : obj) (k : string),
     unique_keys O = true -> unique_keys (opt_props attributes) = true ->
     lookup k O = Some VUndefined ->
     object_to_header attributes (VObj O)
     = object_to_header attributes (VObj (remove k O))) /\
  (forall (a : obj) (k : string),
     unique_keys a = true -> unique_keys (own_props o) = true ->
     lookup k a = Some VUndefined ->
     lookup k (own_props o) = None \/ lookup k (own_props o) = Some VUndefined ->
     object_to_header (Some a) o = object_to_header (Some (remove k a)) o).
Proof.
  intros merged.
  assert (Hu : unique_keys merged = true) by apply unique_keys_spread.
  unfold object_to_header. fold merged.
  split; [now rewrite merged_to_header_defined_props|]. split; [|split].
  - intros k Hk. split.
    + apply lookup_add_option_None; [reflexivity|].
      intros v Hin. unfold remove in Hin.
      apply filter_In in Hin. destruct Hin as [Hin _].
      apply filter_In in Hin. destruct Hin as [Hin _].
      apply (lookup_In _ _ _ Hu) in Hin. congruence.
    + rewrite <- (merged_to_header_defined_props merged Hu).
      rewrite <- (defined_props_remove_undefined k merged Hu Hk).
      apply merged_to_header_defined_props.
      now apply unique_keys_filter.
  - intros O k HO HA Hk. cbn [own_props].
    assert (HR : unique_keys (remove k O) = true)
      by (unfold remove; now apply unique_keys_filter).
    apply merged_to_header_same_defined; try apply unique_keys_spread.
    intros k'. rewrite !lookup_defined_props by apply unique_keys_spread.
    rewrite !lookup_spread by assumption.
    destruct (lookup k' (opt_props attributes)); [reflexivity|].
    rewrite lookup_remove. destruct (String.eqb_spec k k') as [<-|_]; [|reflexivity].
    now rewrite Hk.
  - intros a k Ha HO Hk Ho. cbn [opt_props].
    assert (HR : unique_keys (remove k a) = true)
      by (unfold remove; now apply unique_keys_filter).
    apply merged_to_header_same_defined; try apply unique_keys_spread.
    intros k'. rewrite !lookup_defined_props by apply unique_keys_spread.
    rewrite !lookup_spread by assumption. rewrite lookup_remove.
    destruct (String.eqb_spec k k') as [<-|_]; [|reflexivity].
    rewrite Hk. cbn [is_undefined]. now destruct Ho as [-> | ->].
Qed.


(** ** Record to header and back *)

Lemma cons_head_cons (c : ascii) (seg : string) (rest : list string) :
  cons_head c (seg :: rest) = String c seg :: rest.
Proof. reflexivity. Qed.

Lemma split_delimiter_free (s : string) :
  free_of semicolon s = true -> split_delimiter s = [s].
Proof.
  induction s as [|c t IH]; simpl; intros H; [reflexivity|].
  apply andb_prop in H. destruct H as [Hc Ht].
  apply negb_true_iff in Hc. rewrite Hc, (IH Ht). reflexivity.
Qed.

Lemma split_delimiter_connector (s rest : string) :
  free_of semicolon s = true ->
  split_delimiter (s ++ connector ++ rest) = s :: split_delimiter rest.
Proof.
  change (connector ++ rest) with (String semicolon (String space rest)).
  induction s as [|c t IH]; simpl; intros H; [reflexivity|].
  apply andb_prop in H. destruct H as [Hc Ht].
  apply negb_true_iff in Hc. rewrite Hc, (IH Ht). reflexivity.
Qed.

Lemma split_delimiter_join (segments : list string) :
  segments <> [] ->
  forallb (free_of semicolon) segments = true ->
  split_delimiter (join connector segments) = segments.
Proof.
  induction segments as [|s t IH]; intros Hne H; [contradiction|].
  simpl in H. apply andb_prop in H. destruct H as [Hs Ht].
  destruct t as [|s' t'].
  - simpl. now apply split_delimiter_free.
  - change (join connector (s :: s' :: t'))
      with (s ++ connector ++ join connector (s' :: t')).
    rewrite (split_delimiter_connector _ _ Hs), IH; [reflexivity | discriminate | exact Ht].
Qed.

Lemma split_first_equals_pair (n v : string) :
  free_of equals n = true ->
  split_first_equals (n ++ String equals v) = Some (n, v).
Proof.
  induction n as [|c t IH]; simpl; intros H; [reflexivity|].
  apply andb_prop in H. destruct H as [Hc Ht].
  apply negb_true_iff in Hc. rewrite Hc, (IH Ht). reflexivity.
Qed.

Lemma free_of_app (c : ascii) (a b : string) :
  free_of c (a ++ b) = free_of c a && free_of c b.
Proof.
  induction a as [|c' t IH]; simpl; [reflexivity|].
  now rewrite IH, andb_assoc.
Qed.

(** *** Characters *)

Ltac each_char c := destruct c as [[] [] [] [] [] [] [] []].

Lemma all_chars_app (p : ascii -> bool) (a b : string) :
  all_chars p (a ++ b) = all_chars p a && all_chars p b.
Proof.
  induction a as [|c t IH]; simpl; [reflexivity|].
  now rewrite IH, andb_assoc.
Qed.

Lemma all_chars_impl (p q : ascii -> bool) (s : string) :
  (forall c, p c = true -> q c = true) ->
  all_chars p s = true -> all_chars q s = true.
Proof.
  intros Hpq. induction s as [|c t IH]; simpl; intros H; [reflexivity|].
  apply andb_prop in H. destruct H as [Hc Ht]. now rewrite (Hpq _ Hc), (IH Ht).
Qed.

Lemma free_of_all_chars (d : ascii) (s : string) :
  free_of d s = all_chars (fun c => negb (Ascii.eqb c d)) s.
Proof. induction s as [|c t IH]; simpl; [reflexivity | now rewrite IH]. Qed.

Lemma length_append (a b : string) :
  String.length (a ++ b) = (String.length a + String.length b)%nat.
Proof. induction a as [|c t IH]; simpl; [reflexivity | now rewrite IH]. Qed.

Lemma name_char_plain (c : ascii) :
  name_char c = true ->
  negb (Ascii.eqb c semicolon) = true /\ negb (Ascii.eqb c equals) = true /\
  negb (is_blank c) = true.
Proof. each_char c; intros H; try discriminate H; repeat split. Qed.

Lemma value_char_plain (c : ascii) :
  value_char c = true ->
  negb (Ascii.eqb c semicolon) = true /\ negb (is_blank c) = true.
Proof. each_char c; intros H; try discriminate H; repeat split. Qed.

Lemma unreserved_plain (c : ascii) :
  unreserved c = true ->
  negb (Ascii.eqb c semicolon) = true /\ negb (Ascii.eqb c equals) = true /\
  negb (Ascii.eqb c "%") = true /\ value_char c = true.
Proof. each_char c; intros H; try discriminate H; repeat split. Qed.

(** A cookie name holds no [;], no [=], no blank, and is not empty. *)
Lemma cookie_name_ok_shape (n : string) :
  cookie_name_ok n = true ->
  n <> EmptyString /\ free_of semicolon n = true /\ free_of equals n = true /\
  solid n = true.
Proof.
  unfold cookie_name_ok, solid. intros H. apply andb_prop in H. destruct H as [Hne H].
  split; [intros ->; discriminate Hne|].
  rewrite !free_of_all_chars.
  repeat split; revert H; apply all_chars_impl; intros c Hc;
    now destruct (name_char_plain c Hc) as [? [? ?]].
Qed.

(** *** Trimming *)

Lemma trim_end_solid (s : string) : solid s = true -> trim_end s = s.
Proof.
  unfold solid. induction s as [|c t IH]; simpl; intros H; [reflexivity|].
  apply andb_prop in H. destruct H as [Hc Ht]. rewrite (IH Ht).
  apply negb_true_iff in Hc. rewrite Hc. now destruct t.
Qed.

Lemma trim_solid (s : string) : solid s = true -> trim s = s.
Proof.
  intros H. unfold trim.
  assert (E : trim_start s = s).
  { destruct s as [|c t]; [reflexivity|]. unfold solid in H. simpl in H.
    apply andb_prop in H. destruct H as [Hc _]. apply negb_true_iff in Hc.
    simpl. now rewrite Hc. }
  rewrite E. now apply trim_end_solid.
Qed.

(** *** Percent-coding *)

Lemma tokens_encode_char (c : ascii) (t : string) :
  tokens (encode_char c ++ t) = option_map (cons (token_of c)) (tokens t).
Proof. each_char c; reflexivity. Qed.

Lemma tokens_encodeURIComponent (s : string) :
  tokens (encodeURIComponent s) = Some (map token_of (chars s)).
Proof.
  induction s as [|c t IH]; [reflexivity|].
  cbn [encodeURIComponent chars map]. now rewrite tokens_encode_char, IH.
Qed.

Lemma octets_token_of (s : string) :
  ascii_text s = true -> octets (map token_of (chars s)) = Some (chars s).
Proof.
  unfold ascii_text. induction s as [|c t IH]; simpl; intros H; [reflexivity|].
  apply andb_prop in H. destruct H as [Hc Ht]. unfold token_of at 1.
  destruct (unreserved c); [now rewrite (IH Ht)|].
  now rewrite Hc, (IH Ht).
Qed.

Lemma string_of_chars (s : string) : string_of_list_ascii (chars s) = s.
Proof. induction s as [|c t IH]; simpl; [reflexivity | now rewrite IH]. Qed.

(** Decoding undoes the encoding. *)
Lemma decodeURIComponent_encodeURIComponent (s : string) :
  ascii_text s = true -> decodeURIComponent (encodeURIComponent s) = Some s.
Proof.
  intros H. unfold decodeURIComponent.
  rewrite tokens_encodeURIComponent, (octets_token_of s H). simpl.
  now rewrite string_of_chars.
Qed.

Lemma encode_char_free (c : ascii) (t : string) :
  free_of "%" (encode_char c ++ t) = true ->
  encode_char c = String c EmptyString /\ free_of "%" t = true.
Proof. each_char c; intros H; try discriminate H; split; try reflexivity; exact H. Qed.

Lemma encodeURIComponent_free (s : string) :
  free_of "%" (encodeURIComponent s) = true -> encodeURIComponent s = s.
Proof.
  induction s as [|c t IH]; [reflexivity|]. cbn [encodeURIComponent]. intros H.
  destruct (encode_char_free c _ H) as [-> Ht]. simpl. now rewrite (IH Ht).
Qed.

Lemma decode_encodeURIComponent (s : string) :
  ascii_text s = true -> decode (encodeURIComponent s) = s.
Proof.
  intros H. unfold decode.
  destruct (free_of "%" (encodeURIComponent s)) eqn:E.
  - now apply encodeURIComponent_free.
  - now rewrite decodeURIComponent_encodeURIComponent.
Qed.

Lemma encode_char_value_ok (c : ascii) : all_chars value_char (encode_char c) = true.
Proof. each_char c; reflexivity. Qed.

(** [serialize] accepts every encoded value. *)
Lemma cookie_value_ok_encodeURIComponent (s : string) :
  cookie_value_ok (encodeURIComponent s) = true.
Proof.
  unfold cookie_value_ok. induction s as [|c t IH]; [reflexivity|].
  cbn [encodeURIComponent]. now rewrite all_chars_app, encode_char_value_ok, IH.
Qed.

Lemma encodeURIComponent_shape (s : string) :
  free_of semicolon (encodeURIComponent s) = true /\
  solid (encodeURIComponent s) = true.
Proof.
  pose proof (cookie_value_ok_encodeURIComponent s) as H. unfold cookie_value_ok in H.
  rewrite free_of_all_chars. unfold solid.
  split; revert H; apply all_chars_impl; intros c Hc;
    now destruct (value_char_plain c Hc).
Qed.

Lemma encodeURIComponent_unreserved (s : string) :
  all_chars unreserved s = true -> encodeURIComponent s = s.
Proof.
  induction s as [|c t IH]; simpl; intros H; [reflexivity|].
  apply andb_prop in H. destruct H as [Hc Ht].
  unfold encode_char. rewrite Hc, (IH Ht). reflexivity.
Qed.

(** *** The header of a record *)

Lemma add_attributes_none (str : string) : add_attributes [] str = Ok str.
Proof. reflexivity. Qed.

Lemma serialize_pair (n v : string) :
  cookie_name_ok n = true ->
  serialize (VStr n) (VStr v) None = Ok (pair_text (n, v)).
Proof.
  intros Hn. unfold serialize. cbn [default to_text bind]. rewrite Hn.
  cbn [negb option_value lookup truthy_option truthy].
  rewrite cookie_value_ok_encodeURIComponent. reflexivity.
Qed.

Lemma mapM_map_in {A B C} (f : B -> result C) (g : A -> B) (h : A -> C) (l : list A) :
  (forall a, In a l -> f (g a) = Ok (h a)) -> mapM f (map g l) = Ok (map h l).
Proof.
  induction l as [|a t IH]; intros H; simpl; [reflexivity|].
  rewrite (H a (or_introl eq_refl)), IH; [reflexivity|].
  intros; apply H; now right.
Qed.

Lemma cookie_entries_In (R : list (string * string)) (n v : string) :
  cookie_entries R = true -> In (n, v) R ->
  cookie_name_ok n = true /\ ascii_text v = true.
Proof.
  unfold cookie_entries. rewrite forallb_forall. intros H Hin.
  specialize (H _ Hin). now apply andb_prop in H.
Qed.

Lemma cookieRecordToCookieHeader_record_of (R : list (string * string)) :
  cookie_entries R = true ->
  cookieRecordToCookieHeader (Some (record_of R)) = Ok (join connector (map pair_text R)).
Proof.
  intros H. unfold cookieRecordToCookieHeader, record_of. cbn [default].
  rewrite (mapM_map_in _ _ pair_text); [reflexivity|].
  intros [n v] Hin. cbn [fst snd].
  destruct (cookie_entries_In R n v H Hin) as [Hn _]. now apply serialize_pair.
Qed.

(** *** Reading the header of a record *)

Lemma split_on_free (s : string) :
  free_of semicolon s = true -> split_on semicolon s = [s].
Proof.
  induction s as [|c t IH]; simpl; intros H; [reflexivity|].
  apply andb_prop in H. destruct H as [Hc Ht].
  apply negb_true_iff in Hc. rewrite Hc, (IH Ht). reflexivity.
Qed.

Lemma split_on_connector (s rest : string) :
  free_of semicolon s = true ->
  split_on semicolon (s ++ connector ++ rest)
  = s :: split_on semicolon (String space rest).
Proof.
  change (connector ++ rest) with (String semicolon (String space rest)).
  induction s as [|c t IH]; intros H.
  - reflexivity.
  - simpl in H. apply andb_prop in H. destruct H as [Hc Ht].
    apply negb_true_iff in Hc. cbn [append split_on]. rewrite Hc, (IH Ht).
    reflexivity.
Qed.

Lemma split_on_space (s : string) :
  split_on semicolon (String space s) = cons_head space (split_on semicolon s).
Proof. reflexivity. Qed.

(** The segments between the [;] of a joined header: all but the first
    one start with the space of the connector. *)
Lemma split_on_join (s : string) (segments : list string) :
  forallb (free_of semicolon) (s :: segments) = true ->
  split_on semicolon (join connector (s :: segments))
  = s :: map (String space) segments.
Proof.
  revert s. induction segments as [|s' t IH]; intros s H.
  - simpl in H. apply andb_prop in H. destruct H as [Hs _].
    simpl. now apply split_on_free.
  - cbn [forallb] in H. apply andb_prop in H. destruct H as [Hs Ht].
    change (join connector (s :: s' :: t))
      with (s ++ connector ++ join connector (s' :: t)).
    rewrite (split_on_connector _ _ Hs), split_on_space, (IH s' Ht).
    reflexivity.
Qed.

Lemma pair_text_free (n v : string) :
  cookie_name_ok n = true -> free_of semicolon (pair_text (n, v)) = true.
Proof.
  intros Hn. destruct (cookie_name_ok_shape n Hn) as [_ [Hs _]].
  unfold pair_text. cbn [fst snd]. rewrite free_of_app, Hs.
  cbn [free_of]. now destruct (encodeURIComponent_shape v) as [-> _].
Qed.

(** One pair of the header, after a space or not, defines its name. *)
Lemma parse_pair_entry (lead : bool) (n v : string) (acc : obj) :
  cookie_name_ok n = true -> ascii_text v = true -> lookup n acc = None ->
  parse_pair acc ((if lead then " " else EmptyString) ++ pair_text (n, v))
  = (acc ++ [(n, VStr v)])%list.
Proof.
  intros Hn Hv Hacc.
  destruct (cookie_name_ok_shape n Hn) as [_ [_ [He Hsol]]].
  destruct (encodeURIComponent_shape v) as [_ Hsv].
  assert (E : split_first_equals
                ((if lead then " " else EmptyString) ++ pair_text (n, v))
              = Some ((if lead then " " else EmptyString) ++ n, encodeURIComponent v)).
  { unfold pair_text. cbn [fst snd]. destruct lead.
    - cbn [append split_first_equals]. change (Ascii.eqb " " equals) with false.
      cbv iota. now rewrite (split_first_equals_pair _ _ He).
    - cbn [append]. now apply split_first_equals_pair. }
  unfold parse_pair. rewrite E.
  assert (T : trim ((if lead then " " else EmptyString) ++ n) = n).
  { destruct lead; [|now apply trim_solid].
    unfold trim. cbn [append trim_start]. change (is_blank " ") with true.
    cbv iota. now apply trim_solid. }
  rewrite T, Hacc, (trim_solid _ Hsv), (decode_encodeURIComponent _ Hv).
  now apply set_fresh.
Qed.

Lemma lookup_record_of_None (R : list (string * string)) (n v k : string) :
  lookup k (record_of R) = None -> In (n, v) R -> n <> k.
Proof.
  intros H Hin ->. apply lookup_None_keys in H. apply H.
  unfold keys, record_of. rewrite map_map. cbn [fst].
  now apply (in_map fst) in Hin.
Qed.

Lemma parse_pairs_record_of (R : list (string * string)) (acc : obj) :
  unique_keys (record_of R) = true -> cookie_entries R = true ->
  (forall n v, In (n, v) R -> lookup n acc = None) ->
  fold_left parse_pair (map (String space) (map pair_text R)) acc
  = (acc ++ record_of R)%list.
Proof.
  revert acc. induction R as [|[n v] t IH]; intros acc Hu Hc Hacc.
  - simpl. now rewrite app_nil_r.
  - cbn [map fold_left]. cbn [record_of map fst snd unique_keys] in Hu.
    fold (record_of t) in Hu.
    destruct (lookup n (record_of t)) eqn:En; [discriminate|].
    destruct (cookie_entries_In _ n v Hc (or_introl eq_refl)) as [Hn Hv].
    pose proof (parse_pair_entry true n v acc Hn Hv (Hacc n v (or_introl eq_refl)))
      as P.
    change (parse_pair acc (String space (pair_text (n, v)))
            = (acc ++ [(n, VStr v)])%list) in P.
    rewrite P, IH.
    + now rewrite <- app_assoc.
    + exact Hu.
    + unfold cookie_entries in *. cbn [forallb] in Hc.
      apply andb_prop in Hc. now destruct Hc.
    + intros n' v' Hin. rewrite lookup_app, (Hacc n' v' (or_intror Hin)).
      cbn [lookup]. destruct (String.eqb_spec n n') as [->|_]; [|reflexivity].
      exfalso. exact (lookup_record_of_None t n' v' n' En Hin eq_refl).
Qed.

Lemma parse_join_record_of (R : list (string * string)) :
  unique_keys (record_of R) = true -> cookie_entries R = true ->
  parse (join connector (map pair_text R)) = record_of R.
Proof.
  intros Hu Hc. destruct R as [|[n v] t]; [reflexivity|].
  destruct (cookie_entries_In _ n v Hc (or_introl eq_refl)) as [Hn Hv].
  unfold parse.
  assert (L : (String.length (join connector (map pair_text ((n, v) :: t))) <? 2)%nat
              = false).
  { destruct (cookie_name_ok_shape n Hn) as [Hne _].
    cbn [map]. apply Nat.ltb_ge.
    assert (G : (2 <= String.length (pair_text (n, v)))%nat).
    { unfold pair_text. cbn [fst snd]. rewrite length_append. cbn [String.length].
      destruct n; [contradiction|]. cbn [String.length]. lia. }
    destruct (map pair_text t); cbn [join]; rewrite ?length_append; lia. }
  rewrite L. cbn [map]. rewrite split_on_join.
  - cbn [fold_left].
    pose proof (parse_pair_entry false n v [] Hn Hv eq_refl) as P.
    change (parse_pair [] (pair_text (n, v)) = [(n, VStr v)]) in P.
    rewrite P.
    cbn [record_of map fst snd unique_keys] in Hu. fold (record_of t) in Hu.
    destruct (lookup n (record_of t)) eqn:En; [discriminate|].
    rewrite parse_pairs_record_of; [reflexivity | exact Hu | |].
    + unfold cookie_entries in *. cbn [forallb] in Hc.
      apply andb_prop in Hc. now destruct Hc.
    + intros n' v' Hin. cbn [app lookup].
      destruct (String.eqb_spec n n') as [->|_]; [|reflexivity].
      exfalso. exact (lookup_record_of_None t n' v' n' En Hin eq_refl).
  - change (pair_text (n, v) :: map pair_text t) with (map pair_text ((n, v) :: t)).
    apply forallb_forall. intros x Hx. apply in_map_iff in Hx.
    destruct Hx as [[n' v'] [<- Hin]].
    destruct (cookie_entries_In _ n' v' Hc Hin) as [Hn' _].
    now apply pair_text_free.
Qed.

Lemma filter_no_proto_name (R : list (string * string)) :
  no_proto_name R = true ->
  filter (fun kv => negb (String.eqb (fst kv) "__proto__")) (record_of R) = record_of R.
Proof.
  induction R as [|[n v] t IH]; simpl; intros H; [reflexivity|].
  apply andb_prop in H. destruct H as [Hn Ht]. rewrite Hn, (IH Ht). reflexivity.
Qed.

(** C2 (as amended).  For a record whose names are cookie names (not
    empty, of visible ASCII characters other than [;] and [=]) and not
    [__proto__], and whose values are ASCII texts, the header that
    [cookieRecordToCookieHeader] writes, with the values percent-encoded,
    is read back by [cookieHeaderToCookieRecord] as the same record. *)
Theorem record_header_round_trip (R : list (string * string)) :
  unique_keys (record_of R) = true ->
  cookie_entries R = true ->
  no_proto_name R = true ->
  (header <- cookieRecordToCookieHeader (Some (record_of R)) ;;
   Ok (cookieHeaderToCookieRecord (Some header)))
  = Ok (record_of R).
Proof.
  intros Hu Hc Hn.
  rewrite (cookieRecordToCookieHeader_record_of _ Hc). cbn [bind]. f_equal.
  unfold cookieHeaderToCookieRecord. cbn [default].
  rewrite (parse_join_record_of _ Hu Hc).
  unfold assign_to_empty. rewrite (filter_no_proto_name _ Hn).
  now apply set_all_id.
Qed.

(** ** Set-Cookie headers to a record, directly and through objects *)

Lemma hd_cons_head (c : ascii) (l : list string) :
  hd EmptyString (cons_head c l) = String c (hd EmptyString l).
Proof. destruct l; reflexivity. Qed.

Lemma hd_split_delimiter (s : string) :
  hd EmptyString (split_delimiter s) = before_semicolon s.
Proof.
  induction s as [|c t IH]; simpl; [reflexivity|].
  destruct (Ascii.eqb c semicolon).
  - destruct t as [|c' t']; [reflexivity|]. destruct (Ascii.eqb c' space); reflexivity.
  - now rewrite hd_cons_head, IH.
Qed.

Lemma hd_split_semicolon_ws (s : string) :
  hd EmptyString (split_semicolon_ws s) = before_semicolon s.
Proof.
  unfold split_semicolon_ws. induction s as [|c t IH]; simpl; [reflexivity|].
  destruct (Ascii.eqb c semicolon); [reflexivity|].
  now rewrite hd_cons_head, IH.
Qed.

Lemma free_of_before_semicolon (s : string) :
  free_of semicolon (before_semicolon s) = true.
Proof.
  induction s as [|c t IH]; simpl; [reflexivity|].
  destruct (Ascii.eqb c semicolon) eqn:E; simpl; [reflexivity|].
  now rewrite E, IH.
Qed.

Lemma split_flags_not_nil (skip : bool) (s : string) : split_flags skip s <> [].
Proof.
  revert skip. induction s as [|c t IH]; simpl; intros skip; [discriminate|].
  destruct (skip && is_space c); [apply IH|].
  destruct (Ascii.eqb c semicolon); [discriminate|].
  specialize (IH false). destruct (split_flags false t); [contradiction | discriminate].
Qed.

Lemma split_equals_not_nil (s : string) : split_equals s <> [].
Proof.
  induction s as [|c t IH]; simpl; [discriminate|].
  destruct (Ascii.eqb c equals); [discriminate|].
  destruct (split_equals t); [contradiction | discriminate].
Qed.

Lemma split_equals_one (s v : string) :
  split_equals s = [v] -> s = v /\ free_of equals v = true.
Proof.
  revert v. induction s as [|c t IH]; simpl; intros v H.
  - inversion H. now split.
  - destruct (Ascii.eqb c equals) eqn:E.
    + inversion H as [[Hv Ht]]. now apply split_equals_not_nil in Ht.
    + destruct (split_equals t) as [|s0 r] eqn:Et; simpl in H.
      * now apply split_equals_not_nil in Et.
      * inversion H; subst. destruct (IH s0 eq_refl) as [-> Hf].
        simpl. now rewrite E, Hf.
Qed.

(** A text that [split('=')] cuts in two has one [=], between the pieces. *)
Lemma split_equals_two (s n v : string) :
  split_equals s = [n; v] ->
  s = n ++ String equals v /\ free_of equals n = true /\ free_of equals v = true.
Proof.
  revert n. induction s as [|c t IH]; simpl; intros n H; [discriminate|].
  destruct (Ascii.eqb_spec c equals) as [->|Hc].
  - inversion H as [[Hn Ht]]. destruct (split_equals_one _ _ Ht) as [-> Hv].
    simpl. now repeat split.
  - destruct (split_equals t) as [|s0 r] eqn:Et; simpl in H; [discriminate|].
    inversion H; subst.
    destruct (IH s0 eq_refl) as [-> [Hn Hv]].
    simpl. split; [reflexivity|]. split; [|exact Hv].
    apply Ascii.eqb_neq in Hc. now rewrite Hc, Hn.
Qed.

Lemma header_to_object_header_object (attributes : obj) (h : string) :
  header_to_object attributes (VStr h) = Ok (spread (header_object h) attributes).
Proof.
  unfold header_to_object, header_object.
  pose proof (split_flags_not_nil false h) as Hne. unfold split_semicolon_ws.
  destruct (split_flags false h) as [|nv flags]; [contradiction|].
  destruct (destructure2 (split_equals nv)). reflexivity.
Qed.

Lemma propName_not (lowerKey k : string) :
  lowerKey <> k -> k = "name" \/ k = "value" -> propName lowerKey <> k.
Proof.
  intros Hne Hk. unfold propName, cookiePropertyMap. cbn [lookup].
  repeat match goal with
         | |- context [String.eqb ?a ?b] =>
             destruct (String.eqb a b); [destruct Hk; subst; discriminate|]
         end.
  exact Hne.
Qed.

Lemma lookup_parse_flag (k flag : string) (acc : obj) :
  flag_key flag <> k -> k = "name" \/ k = "value" ->
  lookup k (parse_flag acc flag) = lookup k acc.
Proof.
  unfold flag_key, parse_flag. intros Hne Hk.
  destruct (destructure2 (split_equals flag)) as [key val]. simpl in Hne.
  pose proof (propName_not _ _ Hne Hk) as Hp.
  destruct (String.eqb_spec (propName (toLowerCase key)) "maxAge") as [E|E];
    rewrite lookup_set.
  - destruct (String.eqb_spec "maxAge" k) as [<-|]; [|reflexivity].
    destruct Hk; discriminate.
  - destruct (String.eqb_spec (propName (toLowerCase key)) k); [contradiction|].
    reflexivity.
Qed.

Lemma lookup_parse_flags (k : string) (flags : list string) (acc : obj) :
  (forall flag, In flag flags -> flag_key flag <> k) -> k = "name" \/ k = "value" ->
  lookup k (fold_left parse_flag flags acc) = lookup k acc.
Proof.
  revert acc. induction flags as [|f t IH]; simpl; intros acc H Hk; [reflexivity|].
  rewrite IH; [|intros; apply H; now right | exact Hk].
  apply lookup_parse_flag; [apply H; now left | exact Hk].
Qed.

Lemma unique_keys_parse_flags (flags : list string) (acc : obj) :
  unique_keys acc = true -> unique_keys (fold_left parse_flag flags acc) = true.
Proof.
  revert acc. induction flags as [|f t IH]; simpl; intros acc H; [assumption|].
  apply IH. unfold parse_flag.
  destruct (destructure2 (split_equals f)) as [key val].
  destruct (String.eqb (propName (toLowerCase key)) "maxAge");
    now apply unique_keys_set.
Qed.

Lemma unique_keys_header_object (h : string) : unique_keys (header_object h) = true.
Proof.
  unfold header_object. destruct (split_semicolon_ws h) as [|nv flags]; [reflexivity|].
  destruct (destructure2 (split_equals nv)) as [name value].
  now apply unique_keys_parse_flags.
Qed.

(** [parse] of one pair that is read as it is written. *)
Lemma parse_one_pair (n v : string) :
  free_of semicolon (n ++ String equals v) = true ->
  free_of equals n = true ->
  (2 <=? String.length (n ++ String equals v))%nat = true ->
  trim n = n -> decode (trim v) = v ->
  parse (n ++ String equals v) = [(n, VStr v)].
Proof.
  intros Hs He Hl Tn Dv. unfold parse.
  apply Nat.leb_le in Hl.
  assert (L : (String.length (n ++ String equals v) <? 2)%nat = false)
    by now apply Nat.ltb_ge.
  rewrite L, (split_on_free _ Hs). cbn [fold_left]. unfold parse_pair.
  rewrite (split_first_equals_pair _ _ He), Tn, Dv. reflexivity.
Qed.

(** What a simple header holds: the name and the value of its first
    segment, read the same way by both conversions. *)
Lemma simple_header_name_value (h : string) :
  simple_header h = true ->
  exists n v,
    prefix_record h = [(n, VStr v)] /\
    get "name" (header_object h) = VStr n /\
    get "value" (header_object h) = VStr v.
Proof.
  unfold simple_header, prefix_record, header_object.
  rewrite hd_split_delimiter, <- hd_split_semicolon_ws.
  destruct (split_semicolon_ws h) as [|nv flags] eqn:Eh; [discriminate|].
  intros H. apply andb_prop in H. destruct H as [Hnv Hflags].
  destruct (split_equals nv) as [|n [|v [|]]] eqn:Env; try discriminate.
  exists n, v. cbn [hd destructure2 opt_text].
  assert (Hsemi : free_of semicolon nv = true).
  { pose proof (hd_split_semicolon_ws h) as Hh. rewrite Eh in Hh. simpl in Hh.
    rewrite Hh. apply free_of_before_semicolon. }
  destruct (split_equals_two _ _ _ Env) as [Hs [Hn Hv]].
  apply andb_prop in Hnv. destruct Hnv as [Hnv Hr].
  apply andb_prop in Hnv. destruct Hnv as [Hproto Hlen].
  unfold read_as_written in Hr.
  apply andb_prop in Hr. destruct Hr as [Hr _].
  apply andb_prop in Hr. destruct Hr as [Hr Hd].
  apply andb_prop in Hr. destruct Hr as [Tn Tv].
  apply String.eqb_eq in Tn, Tv, Hd.
  split; [|split].
  - unfold cookieHeaderToCookieRecord. cbn [default]. subst nv.
    rewrite parse_one_pair; try assumption; [|now rewrite Tv].
    unfold assign_to_empty. cbn [filter fst]. rewrite Hproto. reflexivity.
  - unfold get. rewrite lookup_parse_flags; [reflexivity | | now left].
    intros flag Hin. rewrite forallb_forall in Hflags. specialize (Hflags _ Hin).
    apply andb_prop in Hflags. destruct Hflags as [Hf _].
    apply negb_true_iff in Hf. now apply String.eqb_neq.
  - unfold get. rewrite lookup_parse_flags; [reflexivity | | now right].
    intros flag Hin. rewrite forallb_forall in Hflags. specialize (Hflags _ Hin).
    apply andb_prop in Hflags. destruct Hflags as [_ Hf].
    apply negb_true_iff in Hf. now apply String.eqb_neq.
Qed.

(** The entries that the objects of simple headers give are the pairs
    that the direct conversion merges. *)
Lemma simple_headers_entries (H : list string) :
  forallb simple_header H = true ->
  exists entries,
    mapM object_to_entry (map VObj (map header_object H)) = Ok entries /\
    forall acc, unique_keys acc = true ->
                fold_left (fun result h => spread result (prefix_record h)) H acc
                = set_all entries acc.
Proof.
  induction H as [|h t IH]; intros Hs.
  - exists []. split; [reflexivity|]. reflexivity.
  - cbn [forallb] in Hs. apply andb_prop in Hs. destruct Hs as [Hh Ht].
    destruct (IH Ht) as [entries [Em Hf]].
    destruct (simple_header_name_value h Hh) as [n [v [Hp [Hn Hv]]]].
    exists ((n, VStr v) :: entries). split.
    + cbn [map mapM]. unfold object_to_entry at 1. cbn [get_prop bind].
      rewrite Hn, Hv. cbn [to_text bind]. now rewrite Em.
    + intros acc Hu. cbn [fold_left]. rewrite Hp.
      assert (Hsp : spread acc [(n, VStr v)] = set n (VStr v) acc).
      { unfold spread. rewrite (set_all_id _ Hu). reflexivity. }
      rewrite Hsp, Hf by now apply unique_keys_set. reflexivity.
Qed.

(** C8 (as amended).  [setCookieHeadersToCookieRecord] reads each
    [name=value] prefix with the header parser; it gives the record that
    going through the object array gives for every array of strings whose
    headers are simple: a first segment of two characters at least with
    exactly one [=], a name and a value that the parser reads as they are
    written (nothing to trim, nothing to decode, no quote in front), a
    cookie not named [__proto__], and no attribute named [name] or
    [value]. *)
Theorem record_of_headers_through_objects (H : list string) :
  forallb simple_header H = true ->
  setCookieHeadersToCookieRecord (Some (map VStr H)) =
  (objects <- setCookieHeadersToCookieObjects (Some (map VStr H)) None ;;
   cookieObjectsToCookieRecord (Some (map VObj objects))).
Proof.
  intros Hs. rewrite setCookieHeadersToCookieRecord_fold.
  unfold setCookieHeadersToCookieObjects. cbn [default].
  rewrite (mapM_map (header_to_object []) VStr header_object).
  - cbn [bind]. unfold cookieObjectsToCookieRecord. cbn [default].
    destruct (simple_headers_entries H Hs) as [entries [-> Hf]].
    cbn [bind]. unfold fromEntries. now rewrite (Hf [] eq_refl).
  - intros h. rewrite header_to_object_header_object.
    now rewrite (spread_nil_r _ (unique_keys_header_object h)).
Qed.

(** *** The last header wins *)

Lemma prefix_record_before_semicolon (h : string) :
  prefix_record h = cookieHeaderToCookieRecord (Some (before_semicolon h)).
Proof. unfold prefix_record. now rewrite hd_split_delimiter. Qed.

Lemma setCookieHeadersToCookieRecord_before_semicolon (H : list string) :
  setCookieHeadersToCookieRecord (Some (map VStr H)) =
  Ok (fold_left
        (fun result h =>
           spread result (cookieHeaderToCookieRecord (Some (before_semicolon h))))
        H []).
Proof.
  rewrite setCookieHeadersToCookieRecord_fold. f_equal.
  generalize (@nil (string * value)).
  induction H as [|h t IH]; intros acc; cbn [fold_left]; [reflexivity|].
  now rewrite prefix_record_before_semicolon, IH.
Qed.

Lemma pair_prefix_record (h n v : string) :
  pair_prefix h n v = true ->
  cookieHeaderToCookieRecord (Some (before_semicolon h)) = [(n, VStr v)].
Proof.
  unfold pair_prefix. intros H.
  apply andb_prop in H. destruct H as [H Hr].
  apply andb_prop in H. destruct H as [H Hproto].
  apply andb_prop in H. destruct H as [H Hne].
  apply andb_prop in H. destruct H as [Hb He].
  apply String.eqb_eq in Hb.
  unfold read_as_written in Hr.
  apply andb_prop in Hr. destruct Hr as [Hr _].
  apply andb_prop in Hr. destruct Hr as [Hr Hd].
  apply andb_prop in Hr. destruct Hr as [Tn Tv].
  apply String.eqb_eq in Tn, Tv, Hd.
  unfold cookieHeaderToCookieRecord. cbn [default]. rewrite Hb.
  rewrite parse_one_pair; try assumption.
  - unfold assign_to_empty. cbn [filter fst]. rewrite Hproto. reflexivity.
  - rewrite <- Hb. apply free_of_before_semicolon.
  - destruct n; [discriminate Hne|]. reflexivity || (cbn [append String.length];
      rewrite length_append; cbn [String.length]; apply Nat.leb_le; lia).
  - now rewrite Tv.
Qed.

(** C5.  [setCookieHeadersToCookieRecord] is the left fold, from the empty
    record, of [{ ...result, ...item }] over the records of the
    [name=value] prefixes, each the text of its header before the first
    [;]: with one more header at the end, a name that this header defines
    takes its value, every other name keeps the one it had; a header that
    starts with the pair [n=v] defines [n] as [v].  So [['a=1','a=2']]
    gives [{a:'2'}], attributes after a [;] are left out, and the empty
    array gives the empty record. *)
Theorem setCookieHeadersToCookieRecord_last_wins :
  (forall H : list string,
      setCookieHeadersToCookieRecord (Some (map VStr H)) =
      Ok (fold_left
            (fun result h =>
               spread result (cookieHeaderToCookieRecord (Some (before_semicolon h))))
            H [])) /\
  (forall (H : list string) (h : string),
      exists r r',
        setCookieHeadersToCookieRecord (Some (map VStr H)) = Ok r /\
        setCookieHeadersToCookieRecord (Some (map VStr (H ++ [h])%list)) = Ok r' /\
        forall k, lookup k r' =
                  match lookup k (cookieHeaderToCookieRecord
                                    (Some (before_semicolon h))) with
                  | Some v => Some v
                  | None => lookup k r
                  end) /\
  (forall (H : list string) (h n v : string),
      pair_prefix h n v = true ->
      exists r r',
        setCookieHeadersToCookieRecord (Some (map VStr H)) = Ok r /\
        setCookieHeadersToCookieRecord (Some (map VStr (H ++ [h])%list)) = Ok r' /\
        forall k, lookup k r' = if String.eqb n k then Some (VStr v) else lookup k r) /\
  setCookieHeadersToCookieRecord (Some [VStr "a=1"; VStr "a=2"]) = Ok [("a", VStr "2")] /\
  setCookieHeadersToCookieRecord
    (Some [VStr "a=1; Path=/"; VStr "b=2;Secure"; VStr "a=3; HttpOnly; Max-Age=5"])
  = Ok [("a", VStr "3"); ("b", VStr "2")] /\
  setCookieHeadersToCookieRecord (Some []) = Ok [].
Proof.
  assert (L : forall (H : list string) (h : string),
             exists r r',
               setCookieHeadersToCookieRecord (Some (map VStr H)) = Ok r /\
               setCookieHeadersToCookieRecord (Some (map VStr (H ++ [h])%list)) = Ok r' /\
               forall k, lookup k r' =
                         match lookup k (cookieHeaderToCookieRecord
                                           (Some (before_semicolon h))) with
                         | Some v => Some v
                         | None => lookup k r
                         end).
  { intros H h. rewrite !setCookieHeadersToCookieRecord_before_semicolon.
    do 2 eexists. split; [reflexivity|]. split; [reflexivity|].
    intros k. rewrite fold_left_app. cbn [fold_left].
    apply lookup_spread.
    - now apply unique_keys_fold_spread.
    - apply unique_keys_assign_to_empty. }
  split; [apply setCookieHeadersToCookieRecord_before_semicolon|].
  split; [exact L|].
  split; [|repeat split; reflexivity].
  intros H h n v Hp. destruct (L H h) as [r [r' [E [E' Hl]]]].
  exists r, r'. split; [exact E|]. split; [exact E'|].
  intros k. rewrite Hl, (pair_prefix_record h n v Hp). cbn [lookup].
  now destruct (String.eqb n k).
Qed.

(** ** Numbers: reading back what was written *)

Lemma read_digits_of_uint_acc (d : Decimal.uint) (acc : positive) :
  read_digits 10 true (Zpos acc) (NilEmpty.string_of_uint d)
  = Some (Zpos (Pos.of_uint_acc d acc)).
Proof.
  revert acc.
  induction d; intros acc; cbn [NilEmpty.string_of_uint read_digits Pos.of_uint_acc];
    [reflexivity|..];
    match goal with
    | |- context [digit_of 10 ?c] =>
        let r := eval vm_compute in (digit_of 10 c) in
        change (digit_of 10 c) with r
    end;
    cbv iota beta;
    match goal with
    | |- read_digits _ _ ?z _ = Some (Zpos (Pos.of_uint_acc _ ?p)) =>
        replace z with (Zpos p) by lia
    end;
    apply IHd.
Qed.

Lemma read_digits_of_uint (d : Decimal.uint) :
  read_digits 10 true 0 (NilEmpty.string_of_uint d) = Some (Z.of_N (Pos.of_uint d)).
Proof.
  induction d; cbn [NilEmpty.string_of_uint read_digits Pos.of_uint];
    [reflexivity|..];
    match goal with
    | |- context [digit_of 10 ?c] =>
        let r := eval vm_compute in (digit_of 10 c) in
        change (digit_of 10 c) with r
    end;
    cbv iota beta; [exact IHd|..];
    match goal with
    | |- read_digits _ _ ?z _ = _ =>
        let r := eval vm_compute in z in change z with r
    end;
    apply read_digits_of_uint_acc.
Qed.

Lemma read_digits_first (d : Decimal.uint) :
  d <> Decimal.Nil ->
  read_digits 10 false 0 (NilEmpty.string_of_uint d)
  = read_digits 10 true 0 (NilEmpty.string_of_uint d).
Proof.
  destruct d; intros H; [contradiction|..];
    cbn [NilEmpty.string_of_uint read_digits];
    match goal with
    | |- context [digit_of 10 ?c] =>
        let r := eval vm_compute in (digit_of 10 c) in
        change (digit_of 10 c) with r
    end; reflexivity.
Qed.

Lemma read_unsigned_of_uint (d : Decimal.uint) :
  read_unsigned (NilEmpty.string_of_uint d)
  = read_digits 10 false 0 (NilEmpty.string_of_uint d).
Proof.
  destruct d as [|d|d|d|d|d|d|d|d|d|d]; [reflexivity|..]; destruct d; reflexivity.
Qed.

Lemma parseInt_digits (p : positive) :
  read_unsigned (NilEmpty.string_of_uint (Pos.to_uint p)) = Some (Zpos p).
Proof.
  rewrite read_unsigned_of_uint, read_digits_first, read_digits_of_uint.
  - now rewrite Unsigned.of_to.
  - apply Unsigned.to_uint_nonnil.
Qed.

Lemma string_of_uint_first (d : Decimal.uint) :
  d <> Decimal.Nil ->
  exists c t, NilEmpty.string_of_uint d = String c t /\
              is_space c = false /\ Ascii.eqb c "-" = false /\ Ascii.eqb c "+" = false.
Proof.
  destruct d; intros H; [contradiction|..]; simpl; do 2 eexists;
    (split; [reflexivity|]); repeat split; reflexivity.
Qed.

Lemma nearest_number_safe (z : Z) : safe_integer z = true -> nearest_number z = z.
Proof.
  unfold safe_integer, nearest_number. intros H.
  apply andb_prop in H. destruct H as [H1 H2].
  apply Z.ltb_lt in H1, H2.
  assert (E : (Z.abs z <? 2 ^ 53)%Z = true) by (apply Z.ltb_lt; lia).
  cbv zeta. now rewrite E.
Qed.

(** [parseInt] reads an integer back from its decimal text. *)
Lemma parseInt_Z_to_string (z : Z) :
  safe_integer z = true -> parseInt (Some (Z_to_string z)) = Int z.
Proof.
  intros Hz. rewrite <- (nearest_number_safe z Hz) at 2.
  destruct z as [|p|p].
  - reflexivity.
  - unfold parseInt, Z_to_string.
    destruct (string_of_uint_first (Pos.to_uint p) (Unsigned.to_uint_nonnil p))
      as [c [t [E [Hs [Hm Hp]]]]].
    pose proof (parseInt_digits p) as Hd. rewrite E in *.
    cbn [skip_space]. rewrite Hs, Hm, Hp. now rewrite Hd.
  - unfold parseInt, Z_to_string. cbn [skip_space].
    change (is_space "-") with false. cbv iota.
    change (Ascii.eqb "-" "-") with true. cbv iota.
    now rewrite parseInt_digits.
Qed.

(** ** Objects to Set-Cookie headers and back *)

Lemma split_equals_free (s : string) :
  free_of equals s = true -> split_equals s = [s].
Proof.
  induction s as [|c t IH]; simpl; intros H; [reflexivity|].
  apply andb_prop in H. destruct H as [Hc Ht].
  apply negb_true_iff in Hc. now rewrite Hc, (IH Ht).
Qed.

Lemma split_equals_pair (a b : string) :
  free_of equals a = true -> free_of equals b = true ->
  split_equals (a ++ "=" ++ b) = [a; b].
Proof.
  intros Ha Hb. change ("=" ++ b) with (String equals b).
  induction a as [|c t IH]; simpl.
  - now rewrite (split_equals_free _ Hb).
  - simpl in Ha. apply andb_prop in Ha. destruct Ha as [Hc Ht].
    apply negb_true_iff in Hc. now rewrite Hc, (IH Ht).
Qed.

Lemma free_of_string_of_uint (c : ascii) (d : Decimal.uint) :
  digit_of 10 c = None -> free_of c (NilEmpty.string_of_uint d) = true.
Proof.
  intros Hc. induction d; cbn [NilEmpty.string_of_uint free_of]; [reflexivity|..];
    rewrite IHd, andb_true_r; apply negb_true_iff, Ascii.eqb_neq;
    intros <-; discriminate Hc.
Qed.

Lemma free_of_Z_to_string (c : ascii) (z : Z) :
  digit_of 10 c = None -> Ascii.eqb "-" c = false -> free_of c (Z_to_string z) = true.
Proof.
  intros Hc Hm. destruct z as [|p|p]; unfold Z_to_string.
  - cbn [free_of]. rewrite andb_true_r. apply negb_true_iff, Ascii.eqb_neq.
    intros <-. discriminate Hc.
  - now apply free_of_string_of_uint.
  - cbn [free_of]. now rewrite Hm, free_of_string_of_uint.
Qed.

Lemma plain_split (s : string) :
  plain s = true -> free_of semicolon s = true /\ free_of equals s = true.
Proof. unfold plain. intros H. now apply andb_prop in H. Qed.

(** The text of an expiry that is a good field. *)
Lemma good_expires (val : value) :
  good_field "expires" val = true ->
  exists text, toUTCString val = Some text /\ date_text val = text /\
               plain text = true.
Proof.
  unfold good_field, date_text. cbn [String.eqb Ascii.eqb Bool.eqb orb].
  destruct val as [| | |[|z]|s| |]; try discriminate;
    destruct (toUTCString _) as [text|]; try discriminate; intros H;
    exists text; repeat split; try assumption.
  apply andb_prop in H. now destruct H.
Qed.

(** What [parse_flag] reads from the segment of an attribute: the field,
    with an expiry as the text of its date. *)
Lemma parse_flag_segment (k wire : string) (val : value) (acc : obj) :
  In (k, wire) wire_names -> good_field k val = true ->
  parse_flag acc (segment wire (option_of k val)) = set k (normalize_field k val) acc.
Proof.
  intros Hin Hg. simpl in Hin.
  repeat (destruct Hin as [Hin|Hin]; [inversion Hin; subst; clear Hin|]);
    try contradiction.
  - (* maxAge *)
    unfold good_field in Hg; cbn [String.eqb Ascii.eqb Bool.eqb orb] in Hg.
    unfold option_of, normalize_field; cbn [String.eqb Ascii.eqb Bool.eqb].
    unfold parse_flag, segment.
    destruct val as [| | |[|z]| | |]; try discriminate. cbn [text_of num_to_string].
    rewrite (split_equals_pair "Max-Age" _ eq_refl
               (free_of_Z_to_string equals z eq_refl eq_refl)).
    cbn [destructure2]. change (toLowerCase "Max-Age") with "max-age".
    change (propName "max-age") with "maxAge".
    change (String.eqb "maxAge" "maxAge") with true. cbv iota.
    now rewrite (parseInt_Z_to_string z Hg).
  - (* domain *)
    unfold good_field in Hg; cbn [String.eqb Ascii.eqb Bool.eqb orb] in Hg.
    unfold option_of, normalize_field; cbn [String.eqb Ascii.eqb Bool.eqb].
    unfold parse_flag, segment.
    destruct val; try discriminate. split_good Hg.
    destruct (plain_split _ Hg1) as [_ He]. cbn [text_of].
    rewrite (split_equals_pair "Domain" s eq_refl He). reflexivity.
  - (* path *)
    unfold good_field in Hg; cbn [String.eqb Ascii.eqb Bool.eqb orb] in Hg.
    unfold option_of, normalize_field; cbn [String.eqb Ascii.eqb Bool.eqb].
    unfold parse_flag, segment.
    destruct val; try discriminate. split_good Hg.
    destruct (plain_split _ Hg1) as [_ He]. cbn [text_of].
    rewrite (split_equals_pair "Path" s eq_refl He). reflexivity.
  - (* expires *)
    destruct (good_expires val Hg) as [text [_ [Ed Hp]]].
    unfold option_of, normalize_field; cbn [String.eqb Ascii.eqb Bool.eqb].
    unfold parse_flag, segment. rewrite Ed.
    destruct (plain_split _ Hp) as [_ He].
    rewrite (split_equals_pair "Expires" _ eq_refl He). reflexivity.
  - (* httpOnly *)
    unfold good_field in Hg; cbn [String.eqb Ascii.eqb Bool.eqb orb] in Hg.
    destruct val as [| |[|]| | | |]; try discriminate. reflexivity.
  - (* secure *)
    unfold good_field in Hg; cbn [String.eqb Ascii.eqb Bool.eqb orb] in Hg.
    destruct val as [| |[|]| | | |]; try discriminate. reflexivity.
  - (* sameSite *)
    unfold good_field in Hg; cbn [String.eqb Ascii.eqb Bool.eqb orb] in Hg.
    unfold option_of, normalize_field; cbn [String.eqb Ascii.eqb Bool.eqb].
    unfold parse_flag, segment.
    destruct val; try discriminate. unfold same_site_name in Hg.
    cbn [text_of].
    assert (He : free_of equals s = true).
    { apply orb_prop in Hg. destruct Hg as [Hg|Hg];
        [apply orb_prop in Hg; destruct Hg as [Hg|Hg]|];
        apply String.eqb_eq in Hg; subst; reflexivity. }
    rewrite (split_equals_pair "SameSite" s eq_refl He). reflexivity.
Qed.

Lemma same_site_name_plain (s : string) :
  same_site_name s = true -> plain s = true.
Proof.
  unfold same_site_name. intros Hg.
  apply orb_prop in Hg. destruct Hg as [Hg|Hg];
    [apply orb_prop in Hg; destruct Hg as [Hg|Hg]|];
    apply String.eqb_eq in Hg; subst; reflexivity.
Qed.

(** The segment of an attribute holds no [;] and starts with a letter. *)
Lemma segment_shape (k wire : string) (val : value) :
  In (k, wire) wire_names -> good_field k val = true ->
  free_of semicolon (segment wire (option_of k val)) = true /\
  starts_solid (segment wire (option_of k val)) = true.
Proof.
  intros Hin Hg. simpl in Hin.
  repeat (destruct Hin as [Hin|Hin]; [inversion Hin; subst; clear Hin|]);
    try contradiction.
  - unfold good_field in Hg; cbn [String.eqb Ascii.eqb Bool.eqb orb] in Hg.
    unfold option_of; cbn [String.eqb Ascii.eqb Bool.eqb]. unfold segment.
    destruct val as [| | |[|z]| | |]; try discriminate. cbn [text_of num_to_string].
    rewrite !free_of_app, (free_of_Z_to_string semicolon z eq_refl eq_refl).
    repeat split; reflexivity.
  - unfold good_field in Hg; cbn [String.eqb Ascii.eqb Bool.eqb orb] in Hg.
    unfold option_of; cbn [String.eqb Ascii.eqb Bool.eqb]. unfold segment.
    destruct val; try discriminate. split_good Hg.
    destruct (plain_split _ Hg1) as [Hs _]. cbn [text_of].
    rewrite !free_of_app, Hs. repeat split; reflexivity.
  - unfold good_field in Hg; cbn [String.eqb Ascii.eqb Bool.eqb orb] in Hg.
    unfold option_of; cbn [String.eqb Ascii.eqb Bool.eqb]. unfold segment.
    destruct val; try discriminate. split_good Hg.
    destruct (plain_split _ Hg1) as [Hs _]. cbn [text_of].
    rewrite !free_of_app, Hs. repeat split; reflexivity.
  - destruct (good_expires val Hg) as [text [_ [Ed Hp]]].
    unfold option_of; cbn [String.eqb Ascii.eqb Bool.eqb]. unfold segment.
    rewrite Ed. destruct (plain_split _ Hp) as [Hs _].
    rewrite !free_of_app, Hs. repeat split; reflexivity.
  - unfold good_field in Hg; cbn [String.eqb Ascii.eqb Bool.eqb orb] in Hg.
    destruct val as [| |[|]| | | |]; try discriminate. repeat split; reflexivity.
  - unfold good_field in Hg; cbn [String.eqb Ascii.eqb Bool.eqb orb] in Hg.
    destruct val as [| |[|]| | | |]; try discriminate. repeat split; reflexivity.
  - unfold good_field in Hg; cbn [String.eqb Ascii.eqb Bool.eqb orb] in Hg.
    unfold option_of; cbn [String.eqb Ascii.eqb Bool.eqb]. unfold segment.
    destruct val; try discriminate.
    destruct (plain_split _ (same_site_name_plain _ Hg)) as [Hs _]. cbn [text_of].
    rewrite !free_of_app, Hs. repeat split; reflexivity.
Qed.

Lemma split_flags_free (s : string) :
  free_of semicolon s = true -> split_flags false s = [s].
Proof.
  induction s as [|c t IH]; simpl; intros H; [reflexivity|].
  apply andb_prop in H. destruct H as [Hc Ht].
  apply negb_true_iff in Hc. now rewrite Hc, (IH Ht).
Qed.

Lemma split_flags_semicolon (s rest : string) :
  free_of semicolon s = true ->
  split_flags false (s ++ String semicolon rest) = s :: split_flags true rest.
Proof.
  induction s as [|c t IH]; simpl; intros H; [reflexivity|].
  apply andb_prop in H. destruct H as [Hc Ht].
  apply negb_true_iff in Hc. now rewrite Hc, (IH Ht).
Qed.

Lemma split_flags_solid (s : string) :
  starts_solid s = true -> split_flags true s = split_flags false s.
Proof.
  destruct s as [|c t]; simpl; [discriminate|]. intros H.
  apply negb_true_iff in H. now rewrite H.
Qed.

Lemma concat_empty_cons (a : string) (l : list string) :
  String.concat EmptyString (a :: l) = a ++ String.concat EmptyString l.
Proof.
  destruct l; simpl; [|reflexivity].
  induction a; simpl; [reflexivity | now f_equal].
Qed.

Lemma append_assoc (a b c : string) : (a ++ b) ++ c = a ++ b ++ c.
Proof. induction a; simpl; [reflexivity | now f_equal]. Qed.

Lemma append_empty_r (a : string) : a ++ EmptyString = a.
Proof. induction a; simpl; [reflexivity | now f_equal]. Qed.

Lemma starts_solid_app (a b : string) :
  starts_solid a = true -> starts_solid (a ++ b) = true.
Proof. destruct a; simpl; [discriminate | trivial]. Qed.

(** A header is cut back into its first segment and its attributes. *)
Lemma split_semicolon_ws_segments (nv : string) (segs : list string) :
  free_of semicolon nv = true ->
  Forall (fun seg => free_of semicolon seg = true /\ starts_solid seg = true) segs ->
  split_semicolon_ws (nv ++ String.concat EmptyString (map (append connector) segs))
  = nv :: segs.
Proof.
  unfold split_semicolon_ws. intros Hnv Hsegs. revert nv Hnv.
  induction Hsegs as [|seg rest [Hf Hs] _ IH]; intros nv Hnv.
  - simpl. rewrite append_empty_r. now apply split_flags_free.
  - cbn [map]. rewrite concat_empty_cons.
    change (connector ++ seg) with (String semicolon (String space seg)).
    cbn [append]. rewrite (split_flags_semicolon _ _ Hnv). f_equal.
    cbn [split_flags]. change (true && is_space space) with true. cbv iota.
    rewrite split_flags_solid by now apply starts_solid_app.
    now apply IH.
Qed.

Lemma good_field_key (k : string) (val : value) :
  good_field k val = true ->
  k = "name" \/ k = "value" \/ exists wire, In (k, wire) wire_names.
Proof.
  unfold good_field. unfold wire_names.
  destruct (String.eqb_spec k "name") as [->|_]; [now left|].
  destruct (String.eqb_spec k "domain") as [->|_];
    [intros _; right; right; eexists; simpl; eauto|].
  destruct (String.eqb_spec k "path") as [->|_];
    [intros _; right; right; eexists; simpl; eauto|].
  destruct (String.eqb_spec k "value") as [->|_]; [now right; left|].
  destruct (String.eqb_spec k "expires") as [->|_];
    [intros _; right; right; eexists; simpl; eauto|].
  destruct (String.eqb_spec k "maxAge") as [->|_];
    [intros _; right; right; eexists; simpl; eauto|].
  destruct (String.eqb_spec k "httpOnly") as [->|_];
    [intros _; right; right; eexists; simpl; eauto 10|].
  destruct (String.eqb_spec k "secure") as [->|_];
    [intros _; right; right; eexists; simpl; eauto 10|].
  destruct (String.eqb_spec k "sameSite") as [->|_];
    [intros _; right; right; eexists; simpl; eauto 10|].
  discriminate.
Qed.

Lemma good_field_defined (k : string) (val : value) :
  good_field k val = true -> val <> VUndefined /\ k <> "__proto__".
Proof.
  intros H. split.
  - intros ->. unfold good_field in H.
    repeat match type of H with
           | (if ?b then _ else _) = true => destruct b; try discriminate
           end.
  - intros ->. discriminate H.
Qed.

Lemma lookup_Some_In {V} (k : string) (v : V) (o : list (string * V)) :
  lookup k o = Some v -> In (k, v) o.
Proof.
  induction o as [|[k0 v0] t IH]; simpl; [discriminate|].
  destruct (String.eqb_spec k0 k) as [->|_].
  - intros H. inversion H. now left.
  - intros H. right. now apply IH.
Qed.

Lemma lookup_map_values {V W} (g : string -> V -> W) (k : string)
  (o : list (string * V)) :
  lookup k (map (fun entry => (fst entry, g (fst entry) (snd entry))) o)
  = option_map (g k) (lookup k o).
Proof.
  induction o as [|[k0 v0] t IH]; simpl; [reflexivity|].
  destruct (String.eqb_spec k0 k) as [->|_]; [reflexivity | exact IH].
Qed.

Lemma unique_keys_map_values {V W} (g : string -> V -> W) (o : list (string * V)) :
  unique_keys o = true ->
  unique_keys (map (fun entry => (fst entry, g (fst entry) (snd entry))) o) = true.
Proof.
  induction o as [|[k0 v0] t IH]; simpl; intros H; [reflexivity|].
  rewrite lookup_map_values. destruct (lookup k0 t); [discriminate|]. simpl.
  now apply IH.
Qed.

Lemma add_options_set_all (l : obj) (acc : options) :
  (forall k val, In (k, val) l -> val <> VUndefined /\ k <> "__proto__") ->
  fold_left add_option l acc
  = set_all (map (fun entry => (fst entry, option_of (fst entry) (snd entry))) l) acc.
Proof.
  revert acc. induction l as [|[k val] t IH]; intros acc H; [reflexivity|].
  cbn [fold_left map]. unfold set_all. cbn [fold_left fst snd].
  fold (set_all (map (fun entry => (fst entry, option_of (fst entry) (snd entry))) t)
          (set k (option_of k val) acc)).
  rewrite <- IH by (intros; apply H; now right).
  f_equal. destruct (H k val (or_introl eq_refl)) as [Hv Hk].
  unfold add_option, option_of.
  destruct (String.eqb_spec k "expires") as [->|_];
    [destruct val; congruence|].
  destruct (String.eqb_spec k "maxAge") as [->|_];
    [destruct val; congruence|].
  destruct (String.eqb_spec k "__proto__"); [contradiction|].
  destruct val; congruence.
Qed.

Lemma concat_all_empty (l : list string) :
  (forall s, In s l -> s = EmptyString) -> String.concat EmptyString l = EmptyString.
Proof.
  induction l as [|a t IH]; intros H; [reflexivity|].
  rewrite concat_empty_cons, (H a (or_introl eq_refl)), IH; [reflexivity|].
  intros; apply H; now right.
Qed.

Lemma segments_in_cons (e : string * string) (names : list (string * string)) (O : obj) :
  segments_in (e :: names) O =
  (match lookup (fst e) O with
   | Some val => [segment (snd e) (option_of (fst e) val)]
   | None => []
   end ++ segments_in names O)%list.
Proof. reflexivity. Qed.

Lemma entries_in_cons (e : string * string) (names : list (string * string)) (O : obj) :
  entries_in (e :: names) O =
  (match lookup (fst e) O with
   | Some val => [(fst e, normalize_field (fst e) val)]
   | None => []
   end ++ entries_in names O)%list.
Proof. reflexivity. Qed.

Lemma concat_segments_cons (e : string * string) (names : list (string * string))
  (O : obj) :
  String.concat EmptyString (map (append connector) (segments_in (e :: names) O))
  = field_text (fst e) (snd e) O
    ++ String.concat EmptyString (map (append connector) (segments_in names O)).
Proof.
  rewrite segments_in_cons, map_app. unfold field_text.
  destruct (lookup (fst e) O) as [val|]; [|reflexivity].
  cbn [map app]. now rewrite concat_empty_cons.
Qed.

(** *** The attributes that [serialize] writes, one by one *)

Section Attributes.

Variables (O : obj) (o : options).

Hypothesis good_fields : forall k val, lookup k O = Some val -> good_field k val = true.

Hypothesis options_of_fields :
  forall k, k <> "name" -> k <> "value" ->
            lookup k o = option_map (option_of k) (lookup k O).

Lemma option_value_field (k : string) :
  k <> "name" -> k <> "value" ->
  option_value k o = match lookup k O with
                     | Some val => option_of k val
                     | None => OVal VUndefined
                     end.
Proof.
  intros H1 H2. unfold option_value. rewrite (options_of_fields k H1 H2).
  now destruct (lookup k O).
Qed.

Lemma option_value_unknown (k : string) :
  k <> "name" -> k <> "value" -> lookup k wire_names = None ->
  option_value k o = OVal VUndefined.
Proof.
  intros H1 H2 Hw. rewrite (option_value_field k H1 H2).
  destruct (lookup k O) as [val|] eqn:E; [|reflexivity].
  destruct (good_field_key _ _ (good_fields _ _ E)) as [->|[->|[wire Hin]]];
    try contradiction.
  simpl in Hin.
  repeat (destruct Hin as [Hin|Hin]; [inversion Hin; subst; discriminate Hw|]).
  contradiction.
Qed.

Lemma add_max_age_field (str : string) :
  add_max_age o str = Ok (str ++ field_text "maxAge" "Max-Age" O).
Proof.
  unfold add_max_age, field_text.
  rewrite option_value_field by discriminate.
  destruct (lookup "maxAge" O) as [val|] eqn:E; [|now rewrite append_empty_r].
  pose proof (good_fields _ _ E) as G. unfold good_field in G.
  cbn [String.eqb Ascii.eqb Bool.eqb orb] in G.
  destruct val as [| | |[|z]| | |]; try discriminate. reflexivity.
Qed.

Lemma add_domain_field (str : string) :
  add_text "domain" "Domain" domain_ok o str
  = Ok (str ++ field_text "domain" "Domain" O).
Proof.
  unfold add_text, field_text.
  rewrite option_value_field by discriminate.
  destruct (lookup "domain" O) as [val|] eqn:E; [|now rewrite append_empty_r].
  pose proof (good_fields _ _ E) as G. unfold good_field in G.
  cbn [String.eqb Ascii.eqb Bool.eqb orb] in G.
  destruct val; try discriminate. split_good G.
  unfold option_of. cbn [String.eqb Ascii.eqb Bool.eqb truthy to_text bind].
  unfold nonempty in G0. rewrite G0, G. reflexivity.
Qed.

Lemma add_path_field (str : string) :
  add_text "path" "Path" path_ok o str = Ok (str ++ field_text "path" "Path" O).
Proof.
  unfold add_text, field_text.
  rewrite option_value_field by discriminate.
  destruct (lookup "path" O) as [val|] eqn:E; [|now rewrite append_empty_r].
  pose proof (good_fields _ _ E) as G. unfold good_field in G.
  cbn [String.eqb Ascii.eqb Bool.eqb orb] in G.
  destruct val; try discriminate. split_good G.
  unfold option_of. cbn [String.eqb Ascii.eqb Bool.eqb truthy to_text bind].
  unfold nonempty in G0. rewrite G0, G. reflexivity.
Qed.

Lemma add_expires_field (str : string) :
  add_expires o str = Ok (str ++ field_text "expires" "Expires" O).
Proof.
  unfold add_expires, field_text.
  rewrite option_value_field by discriminate.
  destruct (lookup "expires" O) as [val|] eqn:E; [|now rewrite append_empty_r].
  destruct (good_expires val (good_fields _ _ E)) as [text [Et [Ed _]]].
  unfold option_of. cbn [String.eqb Ascii.eqb Bool.eqb]. unfold segment.
  now rewrite Et, Ed.
Qed.

Lemma add_flag_field (k wire : string) (str : string) :
  k = "httpOnly" \/ k = "secure" ->
  add_flag k wire o str = str ++ field_text k wire O.
Proof.
  intros Hk. unfold add_flag, field_text.
  rewrite option_value_field by (destruct Hk; subst; discriminate).
  destruct (lookup k O) as [val|] eqn:E; [|now rewrite append_empty_r].
  pose proof (good_fields _ _ E) as G. unfold good_field in G.
  destruct Hk; subst; cbn [String.eqb Ascii.eqb Bool.eqb orb] in G;
    destruct val as [| |[|]| | | |]; try discriminate; reflexivity.
Qed.

Lemma add_partitioned_field (str : string) :
  add_flag "partitioned" "Partitioned" o str = str.
Proof.
  unfold add_flag. now rewrite option_value_unknown.
Qed.

Lemma add_priority_field (str : string) : add_priority o str = Ok str.
Proof.
  unfold add_priority. now rewrite option_value_unknown.
Qed.

Lemma add_same_site_field (str : string) :
  add_same_site o str = Ok (str ++ field_text "sameSite" "SameSite" O).
Proof.
  unfold add_same_site, field_text.
  rewrite option_value_field by discriminate.
  destruct (lookup "sameSite" O) as [val|] eqn:E; [|now rewrite append_empty_r].
  pose proof (good_fields _ _ E) as G. unfold good_field in G.
  cbn [String.eqb Ascii.eqb Bool.eqb orb] in G.
  destruct val; try discriminate. unfold same_site_name in G.
  apply orb_prop in G. destruct G as [G|G];
    [apply orb_prop in G; destruct G as [G|G]|];
    apply String.eqb_eq in G; subst; reflexivity.
Qed.

(** The attributes of a cookie object, in the order of [serialize]. *)
Lemma add_attributes_fields (str : string) :
  add_attributes o str
  = Ok (str ++ String.concat EmptyString
                 (map (append connector) (segments_in wire_names O))).
Proof.
  unfold add_attributes.
  rewrite add_max_age_field. cbn [bind].
  rewrite add_domain_field. cbn [bind].
  rewrite add_path_field. cbn [bind].
  rewrite add_expires_field. cbn [bind].
  rewrite (add_flag_field "httpOnly") by now left.
  rewrite (add_flag_field "secure") by now right.
  rewrite add_partitioned_field, add_priority_field. cbn [bind].
  rewrite add_same_site_field. f_equal.
  unfold wire_names. rewrite !concat_segments_cons. cbn [fst snd].
  change (String.concat EmptyString (map (append connector) (segments_in [] O)))
    with EmptyString.
  now rewrite append_empty_r, !append_assoc.
Qed.

End Attributes.

(** Reading the attributes back defines the fields one by one. *)
Lemma parse_flags_segments (names : list (string * string)) (O acc : obj) :
  (forall k val, lookup k O = Some val -> good_field k val = true) ->
  (forall e, In e names -> In e wire_names) ->
  fold_left parse_flag (segments_in names O) acc = set_all (entries_in names O) acc.
Proof.
  intros Hgood. revert acc.
  induction names as [|[k wire] t IH]; intros acc H; [reflexivity|].
  rewrite segments_in_cons, entries_in_cons, fold_left_app, set_all_app.
  cbn [fst snd]. destruct (lookup k O) as [val|] eqn:E.
  - cbn [fold_left]. unfold set_all at 2. cbn [fold_left fst snd].
    rewrite (parse_flag_segment k wire val acc (H _ (or_introl eq_refl)) (Hgood _ _ E)).
    apply IH. intros; apply H; now right.
  - apply IH. intros; apply H; now right.
Qed.

Lemma segments_in_shape (names : list (string * string)) (O : obj) :
  (forall k val, lookup k O = Some val -> good_field k val = true) ->
  (forall e, In e names -> In e wire_names) ->
  Forall (fun seg => free_of semicolon seg = true /\ starts_solid seg = true)
         (segments_in names O).
Proof.
  intros Hgood. induction names as [|[k wire] t IH]; intros H; [constructor|].
  rewrite segments_in_cons. apply Forall_app. split.
  - cbn [fst snd]. destruct (lookup k O) as [val|] eqn:E; [|constructor].
    constructor; [|constructor].
    exact (segment_shape k wire val (H _ (or_introl eq_refl)) (Hgood _ _ E)).
  - apply IH. intros; apply H; now right.
Qed.

Lemma lookup_entries_in (names : list (string * string)) (O : obj) (k : string) :
  lookup k (entries_in names O) =
  match lookup k names with
  | Some _ => option_map (normalize_field k) (lookup k O)
  | None => None
  end.
Proof.
  induction names as [|[k0 wire] t IH]; [reflexivity|].
  rewrite entries_in_cons, lookup_app, IH. cbn [fst snd lookup].
  destruct (String.eqb_spec k0 k) as [->|Hne].
  - destruct (lookup k O) as [val|]; simpl; [now rewrite String.eqb_refl|].
    now destruct (lookup k t).
  - destruct (lookup k0 O) as [val|]; simpl; [|reflexivity].
    destruct (String.eqb_spec k0 k); [contradiction | reflexivity].
Qed.

Lemma unique_keys_entries_in (names : list (string * string)) (O : obj) :
  unique_keys names = true -> unique_keys (entries_in names O) = true.
Proof.
  induction names as [|[k0 wire] t IH]; intros H; [reflexivity|].
  cbn [unique_keys] in H. destruct (lookup k0 t) eqn:E; [discriminate|].
  rewrite entries_in_cons. cbn [fst snd].
  destruct (lookup k0 O) as [val|]; cbn [app unique_keys]; [|now apply IH].
  rewrite lookup_entries_in, E. now apply IH.
Qed.

Lemma cookie_object_fields (O : obj) :
  cookie_object O = true ->
  unique_keys O = true /\
  (forall k val, lookup k O = Some val -> good_field k val = true) /\
  exists n v, lookup "name" O = Some (VStr n) /\ lookup "value" O = Some (VStr v) /\
              plain n = true /\ plain v = true.
Proof.
  unfold cookie_object. intros H. split_good H.
  assert (Hgood : forall k val, lookup k O = Some val -> good_field k val = true).
  { intros k val Hl. rewrite forallb_forall in H2.
    exact (H2 _ (lookup_Some_In _ _ _ Hl)). }
  split; [exact H|]. split; [exact Hgood|].
  destruct (lookup "name" O) as [vn|] eqn:En; [|discriminate].
  destruct (lookup "value" O) as [vv|] eqn:Ev; [|discriminate].
  pose proof (Hgood _ _ En) as Gn. pose proof (Hgood _ _ Ev) as Gv.
  unfold good_field in Gn, Gv. cbn [String.eqb Ascii.eqb Bool.eqb orb] in Gn, Gv.
  destruct vn as [| | | |n| |]; try discriminate.
  destruct vv as [| | | |v| |]; try discriminate.
  exists n, v. repeat split.
  - destruct (cookie_name_ok_shape n Gn) as [_ [Hs [He _]]].
    unfold plain. now rewrite Hs, He.
  - unfold plain. rewrite !free_of_all_chars.
    apply andb_true_intro. split; revert Gv; apply all_chars_impl; intros c Hc;
      now destruct (unreserved_plain c Hc) as [? [? _]].
Qed.

Lemma wire_name_not_name_value (e : string * string) :
  In e wire_names ->
  String.eqb "name" (fst e) = false /\ String.eqb "value" (fst e) = false /\
  lookup (fst e) wire_names = Some (snd e).
Proof.
  intros Hin. simpl in Hin.
  repeat (destruct Hin as [Hin|Hin]; [subst e; repeat split; reflexivity|]).
  contradiction.
Qed.

(** The header of a cookie object: its pair, then its attributes in the
    order of [serialize]. *)
Lemma header_of_cookie_object (O : obj) (n v : string) :
  unique_keys O = true ->
  (forall k val, lookup k O = Some val -> good_field k val = true) ->
  lookup "name" O = Some (VStr n) -> lookup "value" O = Some (VStr v) ->
  merged_to_header O =
  Ok ((n ++ "=" ++ v)
      ++ String.concat EmptyString (map (append connector) (segments_in wire_names O))).
Proof.
  intros Hu Hgood Hn Hv. unfold merged_to_header, get. rewrite Hn, Hv.
  set (rest := remove "value" (remove "name" O)).
  assert (Hrest : forall k val, In (k, val) rest ->
                                lookup k O = Some val /\ k <> "name" /\ k <> "value").
  { intros k val Hin. unfold rest, remove in Hin.
    apply filter_In in Hin. destruct Hin as [Hin Hkv].
    apply filter_In in Hin. destruct Hin as [Hin Hkn].
    cbn [fst] in Hkv, Hkn. apply negb_true_iff in Hkv, Hkn.
    apply String.eqb_neq in Hkv, Hkn.
    split; [now apply lookup_In | now split]. }
  assert (Hur : unique_keys rest = true)
    by (unfold rest, remove; now apply unique_keys_filter, unique_keys_filter).
  rewrite add_options_set_all.
  2:{ intros k val Hin. destruct (Hrest _ _ Hin) as [Hl _].
      exact (good_field_defined k val (Hgood _ _ Hl)). }
  rewrite set_all_id by now apply unique_keys_map_values.
  set (o := map _ rest).
  assert (Ho : forall k, k <> "name" -> k <> "value" ->
                         lookup k o = option_map (option_of k) (lookup k O)).
  { intros k H1 H2. unfold o. rewrite lookup_map_values. f_equal.
    unfold rest. rewrite !lookup_remove.
    destruct (String.eqb_spec "value" k); [congruence|].
    destruct (String.eqb_spec "name" k); [congruence|]. reflexivity. }
  pose proof (Hgood _ _ Hn) as Gn. pose proof (Hgood _ _ Hv) as Gv.
  unfold good_field in Gn, Gv. cbn [String.eqb Ascii.eqb Bool.eqb orb] in Gn, Gv.
  unfold serialize. cbn [default to_text bind]. rewrite Gn. cbn [negb].
  rewrite (option_value_unknown O o Hgood Ho "encode") by (discriminate || reflexivity).
  cbn [truthy_option truthy].
  rewrite (encodeURIComponent_unreserved v Gv).
  assert (Vok : cookie_value_ok v = true).
  { unfold cookie_value_ok. revert Gv. apply all_chars_impl. intros c Hc.
    now destruct (unreserved_plain c Hc) as [_ [_ [_ ?]]]. }
  rewrite Vok. cbn [negb].
  now apply add_attributes_fields.
Qed.

Lemma lookup_normalize (k : string) (O : obj) :
  lookup k (normalize O) = option_map (normalize_field k) (lookup k O).
Proof. unfold normalize. apply lookup_map_values. Qed.

(** What is read back from the header of a cookie object. *)
Lemma cookie_object_read_back (O : obj) (n v : string) :
  unique_keys O = true ->
  (forall k val, lookup k O = Some val -> good_field k val = true) ->
  lookup "name" O = Some (VStr n) -> lookup "value" O = Some (VStr v) ->
  plain n = true -> plain v = true ->
  (headers <- cookieObjectsToSetCookieHeaders (Some [VObj O]) None ;;
   setCookieHeadersToCookieObjects (Some (map VStr headers)) None)
  = Ok [set_all (entries_in wire_names O) [("name", VStr n); ("value", VStr v)]].
Proof.
  intros Hu Hgood Hn Hv Pn Pv.
  destruct (plain_split _ Pn) as [Sn En]. destruct (plain_split _ Pv) as [Sv Ev].
  assert (Hub : unique_keys (set_all (entries_in wire_names O)
                               [("name", VStr n); ("value", VStr v)]) = true)
    by now apply unique_keys_set_all.
  unfold cookieObjectsToSetCookieHeaders, setCookieHeadersToCookieObjects.
  cbn [default map mapM]. unfold object_to_header. cbn [own_props opt_props].
  rewrite (spread_nil_r _ Hu), (header_of_cookie_object O n v Hu Hgood Hn Hv).
  cbn [bind map mapM].
  rewrite header_to_object_header_object. cbn [bind]. do 2 f_equal.
  unfold header_object.
  rewrite split_semicolon_ws_segments.
  - rewrite (split_equals_pair n v En Ev). cbn [destructure2 opt_text].
    rewrite parse_flags_segments by auto.
    now apply spread_nil_r.
  - now rewrite !free_of_app, Sn, Sv.
  - now apply segments_in_shape.
Qed.

Lemma lookup_read_back (O : obj) (n v : string) (k : string) :
  (forall k val, lookup k O = Some val -> good_field k val = true) ->
  lookup "name" O = Some (VStr n) -> lookup "value" O = Some (VStr v) ->
  lookup k (set_all (entries_in wire_names O) [("name", VStr n); ("value", VStr v)])
  = lookup k (normalize O).
Proof.
  intros Hgood Hn Hv.
  rewrite lookup_set_all by now apply unique_keys_entries_in.
  rewrite lookup_entries_in, lookup_normalize. cbn [lookup].
  destruct (lookup k wire_names) as [wire|] eqn:Ew.
  - destruct (lookup k O) as [val|] eqn:Ek; [reflexivity|]. cbn [option_map].
    destruct (wire_name_not_name_value _ (lookup_Some_In _ _ _ Ew)) as [E1 [E2 _]].
    cbn [fst] in E1, E2. now rewrite E1, E2.
  - destruct (lookup k O) as [val|] eqn:Ek; cbn [option_map].
    + destruct (good_field_key _ _ (Hgood _ _ Ek)) as [->|[->|[wire Hw]]].
      * rewrite Hn in Ek. inversion Ek; subst. reflexivity.
      * rewrite Hv in Ek. inversion Ek; subst. reflexivity.
      * destruct (wire_name_not_name_value _ Hw) as [_ [_ Hl]]. cbn [fst] in Hl.
        congruence.
    + destruct (String.eqb_spec "name" k) as [<-|_]; [congruence|].
      destruct (String.eqb_spec "value" k) as [<-|_]; [congruence|]. reflexivity.
Qed.


(** ** Further properties: records and objects *)

Lemma lookup_set_all_absent {V} (k : string) (props o : list (string * V)) :
  lookup k props = None -> lookup k (set_all props o) = lookup k o.
Proof.
  revert o. induction props as [|[k0 v0] t IH]; simpl; intros o H; [reflexivity|].
  destruct (String.eqb_spec k0 k) as [->|Hne]; [discriminate|].
  change (set_all ((k0, v0) :: t) o) with (set_all t (set k0 v0 o)).
  rewrite (IH _ H), lookup_set.
  destruct (String.eqb_spec k0 k); [contradiction | reflexivity].
Qed.

Lemma mapM_inv {A B} (f : A -> result B) (l : list A) (bs : list B) :
  mapM f l = Ok bs -> Forall2 (fun a b => f a = Ok b) l bs.
Proof.
  revert bs. induction l as [|a t IH]; simpl; intros bs H.
  - inversion H. constructor.
  - destruct (f a) as [b|e] eqn:Ea; simpl in H; [|discriminate].
    destruct (mapM f t) as [bs'|e] eqn:Et; simpl in H; [|discriminate].
    inversion H; subst. constructor; [exact Ea | now apply IH].
Qed.

(** [map] with a callback that raises only [TypeError], and does so exactly
    on the elements that [bad] marks. *)
Lemma mapM_type_error {A B} (f : A -> result B) (bad : A -> bool) (l : list A) :
  (forall a, bad a = true -> f a = Throw TypeError) ->
  (forall a, bad a = false -> exists b, f a = Ok b) ->
  (mapM f l = Throw TypeError <-> existsb bad l = true) /\
  (existsb bad l = false -> exists bs, mapM f l = Ok bs /\ length bs = length l).
Proof.
  intros Hbad Hgood. induction l as [|a t [IH1 IH2]]; simpl.
  - split; [split; discriminate|]. intros _. now exists [].
  - destruct (bad a) eqn:Ea; simpl.
    + rewrite (Hbad _ Ea). simpl. split; [now split | discriminate].
    + destruct (Hgood _ Ea) as [b ->]. simpl. split.
      * rewrite <- IH1. destruct (mapM f t); simpl; split; intros H;
          try discriminate; assumption.
      * intros Ht. destruct (IH2 Ht) as [bs [-> Hlen]]. simpl.
        exists (b :: bs). split; [reflexivity | simpl; now rewrite Hlen].
Qed.

Lemma object_to_entry_VObj (o : obj) (key : string) :
  to_text (get "name" o) = Ok key ->
  object_to_entry (VObj o) = Ok (key, get "value" o).
Proof. intros H. unfold object_to_entry. cbn [get_prop bind]. now rewrite H. Qed.

Lemma mapM_app {A B} (f : A -> result B) (l l' : list A) :
  mapM f (l ++ l')%list
  = (bs <- mapM f l ;; bs' <- mapM f l' ;; Ok (bs ++ bs')%list).
Proof.
  induction l as [|a t IH]; cbn [app mapM bind].
  - now destruct (mapM f l').
  - destruct (f a) as [b|e]; cbn [bind]; [|reflexivity]. rewrite IH.
    destruct (mapM f t) as [bs|e]; cbn [bind]; [|reflexivity].
    now destruct (mapM f l').
Qed.

Lemma record_object_name_value (a : obj) (n : string) (v : value) :
  lookup "name" a = None -> lookup "value" a = None ->
  get "name" (set_all a (name_value n v)) = VStr n /\
  get "value" (set_all a (name_value n v)) = v.
Proof.
  intros Hn Hv. unfold get.
  now rewrite (lookup_set_all_absent _ _ _ Hn), (lookup_set_all_absent _ _ _ Hv).
Qed.

Lemma record_objects_entries (R a : obj) :
  lookup "name" a = None -> lookup "value" a = None ->
  mapM object_to_entry (map VObj (cookieRecordToCookieObjects (Some R) (Some a)))
  = Ok R.
Proof.
  intros Hn Hv. unfold cookieRecordToCookieObjects. cbn [default].
  rewrite map_map, (mapM_map object_to_entry _ (fun entry => entry)).
  - now rewrite map_id.
  - intros [n v]. cbn [fst snd].
    destruct (record_object_name_value a n v Hn Hv) as [E1 E2].
    unfold name_value in E1, E2.
    rewrite (object_to_entry_VObj _ n) by now rewrite E1.
    now rewrite E2.
Qed.

Lemma record_objects_read_back (R a : obj) :
  unique_keys R = true ->
  lookup "name" a = None -> lookup "value" a = None ->
  cookieObjectsToCookieRecord
    (Some (map VObj (cookieRecordToCookieObjects (Some R) (Some a)))) = Ok R.
Proof.
  intros Hu Hn Hv. unfold cookieObjectsToCookieRecord. cbn [default].
  rewrite (record_objects_entries R a Hn Hv). cbn [bind].
  unfold fromEntries. now rewrite set_all_id.
Qed.

(** X1.  A record made into objects and read back is the same record,
    whatever the attributes, as long as they define neither [name] nor
    [value]. *)
Theorem record_objects_round_trip (R a : obj) :
  unique_keys R = true ->
  lookup "name" a = None -> lookup "value" a = None ->
  cookieObjectsToCookieRecord
    (Some (map VObj (cookieRecordToCookieObjects (Some R) (Some a)))) = Ok R.
Proof. apply record_objects_read_back. Qed.

(** X2.  [cookieRecordToCookieObjects] makes one object per entry, in the
    order of the record; in each the attributes come last and win: a key
    of the attributes has their value, even [name] and [value], and the
    two fields of the entry are there otherwise. *)
Theorem cookieRecordToCookieObjects_fields (R a : obj) :
  unique_keys a = true ->
  length (cookieRecordToCookieObjects (Some R) (Some a)) = length R /\
  forall i n v,
    nth_error R i = Some (n, v) ->
    exists o,
      nth_error (cookieRecordToCookieObjects (Some R) (Some a)) i = Some o /\
      forall k, lookup k o = match lookup k a with
                             | Some x => Some x
                             | None => lookup k (name_value n v)
                             end.
Proof.
  intros Ha. unfold cookieRecordToCookieObjects. simpl. split.
  - apply length_map.
  - intros i n v Hi. eexists. split.
    + rewrite nth_error_map, Hi. reflexivity.
    + intros k. simpl. now rewrite lookup_set_all.
Qed.

(** X3.  [cookieObjectsToCookieRecord] raises a [TypeError] exactly when an
    element of the array is [null] or [undefined], or has a name that
    gives no property key (an object whose own [toString] is not a
    function, or an array that holds one); on any other array it returns
    a record. *)
Theorem cookieObjectsToCookieRecord_type_error (l : list value) :
  (cookieObjectsToCookieRecord (Some l) = Throw TypeError
   <-> existsb unreadable l = true) /\
  (existsb unreadable l = false ->
   exists r, cookieObjectsToCookieRecord (Some l) = Ok r).
Proof.
  destruct (mapM_type_error object_to_entry unreadable l) as [H1 H2].
  - intros a Ha. now apply object_to_entry_unreadable.
  - intros a Ha. now apply object_to_entry_readable.
  - unfold cookieObjectsToCookieRecord. cbn [default]. split.
    + rewrite <- H1. destruct (mapM object_to_entry l); cbn [bind]; split; intros H;
        try discriminate; inversion H; reflexivity.
    + intros Hl. destruct (H2 Hl) as [bs [-> _]]. cbn [bind]. eexists. reflexivity.
Qed.

(** X4.  In [cookieObjectsToCookieRecord] a later object overwrites an
    earlier one of the same name: for objects whose names give property
    keys, with one more object at the end, whose name is a string, this
    name holds its value and every other name keeps what it had. *)
Theorem cookieObjectsToCookieRecord_last_wins (os : list obj) (o : obj) (key : string) :
  existsb unreadable (map VObj os) = false ->
  get "name" o = VStr key ->
  exists r r',
    cookieObjectsToCookieRecord (Some (map VObj os)) = Ok r /\
    cookieObjectsToCookieRecord (Some (map VObj (os ++ [o])%list)) = Ok r' /\
    forall k, lookup k r' = if String.eqb key k
                            then Some (get "value" o)
                            else lookup k r.
Proof.
  intros Hos Hkey.
  destruct (mapM_type_error object_to_entry unreadable (map VObj os)) as [_ H2].
  - intros a Ha. now apply object_to_entry_unreadable.
  - intros a Ha. now apply object_to_entry_readable.
  - destruct (H2 Hos) as [entries [E _]].
    unfold cookieObjectsToCookieRecord. cbn [default].
    unfold obj in *. rewrite map_app, mapM_app. cbn [map mapM].
    rewrite (object_to_entry_VObj o key) by now rewrite Hkey.
    rewrite !E. cbn [bind].
    do 2 eexists. split; [reflexivity|]. split; [reflexivity|].
    intros k. unfold fromEntries. rewrite set_all_app.
    unfold set_all at 1. cbn [fold_left fst snd]. apply lookup_set.
Qed.

Lemma existsb_negb {A} (p : A -> bool) (l : list A) :
  existsb (fun a => negb (p a)) l = negb (forallb p l).
Proof.
  induction l as [|a t IH]; cbn [existsb forallb]; [reflexivity|].
  rewrite IH. now destruct (p a), (forallb p t).
Qed.

(** X5.  [setCookieHeadersToCookieRecord] raises a [TypeError] exactly when
    an element of the array is not a string; on an array of strings it
    returns a record. *)
Theorem setCookieHeadersToCookieRecord_type_error (l : list value) :
  (setCookieHeadersToCookieRecord (Some l) = Throw TypeError
   <-> forallb is_string l = false) /\
  (forallb is_string l = true ->
   exists r, setCookieHeadersToCookieRecord (Some l) = Ok r).
Proof.
  destruct (mapM_type_error header_to_record (fun v => negb (is_string v)) l)
    as [H1 H2].
  - intros a Ha. destruct a; try discriminate; reflexivity.
  - intros a Ha. destruct a; try discriminate; eexists; reflexivity.
  - rewrite existsb_negb in H1, H2.
    unfold setCookieHeadersToCookieRecord. simpl. split.
    + rewrite <- negb_true_iff, <- H1.
      destruct (mapM header_to_record l); simpl; split; intros H;
        try discriminate; inversion H; reflexivity.
    + intros Hl. rewrite Hl in H2. destruct (H2 eq_refl) as [bs [-> _]]. simpl.
      eexists. reflexivity.
Qed.

(** ** Further properties: reading Set-Cookie headers *)

(** X6.  [setCookieHeadersToCookieObjects] raises a [TypeError] exactly when
    an element of the array is not a string; on an array of strings it
    returns one object per header. *)
Theorem setCookieHeadersToCookieObjects_type_error (l : list value) (a : option obj) :
  (setCookieHeadersToCookieObjects (Some l) a = Throw TypeError
   <-> forallb is_string l = false) /\
  (forallb is_string l = true ->
   exists objs, setCookieHeadersToCookieObjects (Some l) a = Ok objs /\
                length objs = length l).
Proof.
  destruct (mapM_type_error (header_to_object (default [] a))
              (fun v => negb (is_string v)) l) as [H1 H2].
  - intros x Hx. destruct x; try discriminate; reflexivity.
  - intros x Hx. destruct x; try discriminate.
    rewrite header_to_object_header_object. eexists. reflexivity.
  - rewrite existsb_negb in H1, H2. unfold setCookieHeadersToCookieObjects. simpl.
    split.
    + now rewrite <- negb_true_iff.
    + intros Hl. apply H2. now rewrite Hl.
Qed.

(** X7.  The attributes given to [setCookieHeadersToCookieObjects] are
    merged over what each header holds: a key of the attributes has their
    value in every object, any other key what the header gave it.  The
    objects come in the order of the headers. *)
Theorem setCookieHeadersToCookieObjects_attributes (H : list string) (a : obj) :
  unique_keys a = true ->
  setCookieHeadersToCookieObjects (Some (map VStr H)) (Some a)
  = Ok (map (fun h => spread (header_object h) a) H) /\
  forall h k, lookup k (spread (header_object h) a)
              = match lookup k a with
                | Some v => Some v
                | None => lookup k (header_object h)
                end.
Proof.
  intros Ha. split.
  - unfold setCookieHeadersToCookieObjects. simpl.
    apply mapM_map. intros h. apply header_to_object_header_object.
  - intros h k. apply lookup_spread; [apply unique_keys_header_object | exact Ha].
Qed.

Lemma split_semicolon_ws_head (h : string) :
  split_semicolon_ws h = before_semicolon h :: tl (split_semicolon_ws h).
Proof.
  pose proof (hd_split_semicolon_ws h) as E.
  pose proof (split_flags_not_nil false h) as N. unfold split_semicolon_ws in *.
  destruct (split_flags false h); [contradiction|]. simpl in *. now subst.
Qed.

Lemma setCookieHeadersToCookieObjects_one (h : string) :
  setCookieHeadersToCookieObjects (Some [VStr h]) None = Ok [header_object h].
Proof.
  unfold setCookieHeadersToCookieObjects. cbn [default mapM].
  rewrite header_to_object_header_object. cbn [bind].
  now rewrite (spread_nil_r _ (unique_keys_header_object h)).
Qed.

(** X8.  When no attribute of a header is called [name] or [value], the
    object has as name the first segment up to its first [=], and as value
    what lies between the first [=] and the next one; a first segment
    without [=] is the name as a whole, and the value is [undefined]. *)
Theorem first_segment_name_value (h : string) :
  keeps_name_value h = true ->
  exists o,
    setCookieHeadersToCookieObjects (Some [VStr h]) None = Ok [o] /\
    get "name" o = VStr (fst (destructure2 (split_equals (before_semicolon h)))) /\
    get "value" o = opt_text (snd (destructure2 (split_equals (before_semicolon h)))) /\
    (free_of equals (before_semicolon h) = true ->
     get "name" o = VStr (before_semicolon h) /\ get "value" o = VUndefined).
Proof.
  unfold keeps_name_value. intros Hk. exists (header_object h).
  split; [apply setCookieHeadersToCookieObjects_one|].
  unfold header_object. rewrite split_semicolon_ws_head in *. cbn [tl] in Hk.
  set (flags := tl (split_semicolon_ws h)) in *.
  destruct (destructure2 (split_equals (before_semicolon h))) as [n v] eqn:E.
  assert (Hn : forall flag, In flag flags -> flag_key flag <> "name").
  { intros flag Hin. rewrite forallb_forall in Hk. specialize (Hk _ Hin).
    apply andb_prop in Hk. destruct Hk as [Hf _].
    apply negb_true_iff in Hf. now apply String.eqb_neq. }
  assert (Hv : forall flag, In flag flags -> flag_key flag <> "value").
  { intros flag Hin. rewrite forallb_forall in Hk. specialize (Hk _ Hin).
    apply andb_prop in Hk. destruct Hk as [_ Hf].
    apply negb_true_iff in Hf. now apply String.eqb_neq. }
  assert (G1 : get "name" (fold_left parse_flag flags
                             [("name", VStr n); ("value", opt_text v)]) = VStr n).
  { unfold get. rewrite lookup_parse_flags; [reflexivity | exact Hn | now left]. }
  assert (G2 : get "value" (fold_left parse_flag flags
                              [("name", VStr n); ("value", opt_text v)]) = opt_text v).
  { unfold get. rewrite lookup_parse_flags; [|exact Hv | now right].
    simpl. now destruct v. }
  cbn [fst snd]. split; [exact G1|]. split; [exact G2|].
  intros Hf. rewrite (split_equals_free _ Hf) in E. cbn [destructure2] in E.
  inversion E; subst. now split.
Qed.

Lemma lower_char_idempotent (c : ascii) : lower_char (lower_char c) = lower_char c.
Proof.
  destruct c as [[] [] [] [] [] [] [] []]; reflexivity.
Qed.

Lemma toLowerCase_idempotent (s : string) : toLowerCase (toLowerCase s) = toLowerCase s.
Proof.
  induction s as [|c t IH]; simpl; [reflexivity|].
  now rewrite lower_char_idempotent, IH.
Qed.

Lemma stored_key_propName (key : string) :
  stored_key (propName (toLowerCase key)) = true.
Proof.
  unfold propName, cookiePropertyMap. cbn [lookup].
  repeat match goal with
         | |- context [if String.eqb ?a ?b then _ else _] =>
             destruct (String.eqb a b); [reflexivity|]
         end.
  unfold stored_key. rewrite toLowerCase_idempotent, String.eqb_refl.
  now rewrite !orb_true_r.
Qed.

Lemma stored_keys_set (k : string) (v : value) (o : obj) :
  stored_key k = true -> forallb stored_key (keys o) = true ->
  forallb stored_key (keys (set k v o)) = true.
Proof.
  intros Hk Ho. rewrite keys_set. destruct (lookup k o); [exact Ho|].
  rewrite forallb_app, Ho. simpl. now rewrite Hk.
Qed.

Lemma stored_keys_parse_flags (flags : list string) (acc : obj) :
  forallb stored_key (keys acc) = true ->
  forallb stored_key (keys (fold_left parse_flag flags acc)) = true.
Proof.
  revert acc. induction flags as [|f t IH]; simpl; intros acc H; [exact H|].
  apply IH. unfold parse_flag.
  destruct (destructure2 (split_equals f)) as [key val].
  destruct (String.eqb (propName (toLowerCase key)) "maxAge").
  - now apply stored_keys_set.
  - apply stored_keys_set; [apply stored_key_propName | exact H].
Qed.

(** X9.  Without attributes, every key of an object that
    [setCookieHeadersToCookieObjects] returns is [name], [value], one of
    [httpOnly], [sameSite], [maxAge], one of the two texts an attribute
    called [constructor] or [__proto__] turns into, or a key in lowercase:
    no attribute name keeps a capital letter of the header. *)
Theorem setCookieHeadersToCookieObjects_stored_keys (l : list value) (objs : list obj) :
  setCookieHeadersToCookieObjects (Some l) None = Ok objs ->
  Forall (fun o => forallb stored_key (keys o) = true) objs.
Proof.
  unfold setCookieHeadersToCookieObjects. simpl. intros H.
  apply mapM_inv in H. induction H as [|x o l' objs' Hx _ IH]; constructor.
  - destruct x; try discriminate.
    rewrite header_to_object_header_object in Hx. inversion Hx; subst.
    rewrite (spread_nil_r _ (unique_keys_header_object s)).
    unfold header_object. destruct (split_semicolon_ws s) as [|nv flags]; [reflexivity|].
    destruct (destructure2 (split_equals nv)) as [n v].
    now apply stored_keys_parse_flags.
  - exact IH.
Qed.

Lemma lookup_assign_to_empty_proto (o : obj) :
  lookup "__proto__" (assign_to_empty o) = None.
Proof.
  unfold assign_to_empty. rewrite lookup_set_all_absent; [reflexivity|].
  induction o as [|[k v] t IH]; simpl; [reflexivity|].
  destruct (String.eqb_spec k "__proto__") as [->|Hne]; simpl; [exact IH|].
  destruct (String.eqb_spec k "__proto__"); [contradiction | exact IH].
Qed.

Lemma lookup_spread_absent (k : string) (a b : obj) :
  lookup k a = None -> lookup k b = None -> lookup k (spread a b) = None.
Proof.
  intros Ha Hb. unfold spread.
  now rewrite (lookup_set_all_absent _ _ _ Hb), (lookup_set_all_absent _ _ _ Ha).
Qed.

(** X10.  A record read from a header never has a property [__proto__]:
    neither the one of [cookieHeaderToCookieRecord], nor the one that
    [setCookieHeadersToCookieRecord] merges from several headers. *)
Theorem header_records_have_no_proto (s : option string) (l : list value) (r : obj) :
  lookup "__proto__" (cookieHeaderToCookieRecord s) = None /\
  (setCookieHeadersToCookieRecord (Some l) = Ok r -> lookup "__proto__" r = None).
Proof.
  split; [apply lookup_assign_to_empty_proto|].
  unfold setCookieHeadersToCookieRecord. simpl.
  destruct (mapM header_to_record l) as [items|e] eqn:E; simpl; [|discriminate].
  intros H. inversion H; subst. clear H.
  apply mapM_inv in E.
  assert (Hitems : Forall (fun item => lookup "__proto__" item = None) items).
  { induction E as [|x item l' items' Hx _ IH]; constructor; [|exact IH].
    destruct x; try discriminate. inversion Hx; subst.
    apply lookup_assign_to_empty_proto. }
  clear E. assert (Hacc : lookup "__proto__" (@nil (string * value)) = None) by reflexivity.
  revert Hacc. generalize (@nil (string * value)).
  induction Hitems as [|item items' Hi _ IH]; simpl; intros acc Hacc; [exact Hacc|].
  apply IH. now apply lookup_spread_absent.
Qed.

(** ** Further properties: the universal converters *)

Lemma spread_spread_nil (x a : obj) : spread (spread x a) [] = spread x a.
Proof. apply spread_nil_r, unique_keys_spread. Qed.

Lemma mapM_compose {A B C} (f : B -> result C) (g : A -> B) (l : list A) :
  mapM f (map g l) = mapM (fun a => f (g a)) l.
Proof. induction l as [|a t IH]; simpl; [reflexivity | now rewrite IH]. Qed.

Lemma mapM_ext {A B} (f g : A -> result B) (l : list A) :
  (forall a, f a = g a) -> mapM f l = mapM g l.
Proof.
  intros H. induction l as [|a t IH]; simpl; [reflexivity | now rewrite H, IH].
Qed.

Lemma mapM_length {A B} (f : A -> result B) (l : list A) (bs : list B) :
  mapM f l = Ok bs -> length bs = length l.
Proof.
  revert bs. induction l as [|a t IH]; simpl; intros bs H.
  - now inversion H.
  - destruct (f a) as [b|e]; simpl in H; [|discriminate].
    destruct (mapM f t) as [bs'|e]; simpl in H; [|discriminate].
    inversion H; subst. simpl. now rewrite (IH bs' eq_refl).
Qed.

(** X11.  On an array of cookie objects [anyToSetCookieHeaders] gives the
    headers that [cookieObjectsToSetCookieHeaders] gives with the same
    attributes: merging them into the objects first changes nothing. *)
Theorem anyToSetCookieHeaders_of_objects (l : list value) (a : option obj) :
  is_object (first l) && negb (is_array (first l)) = true ->
  anyToSetCookieHeaders (VArr l) a = cookieObjectsToSetCookieHeaders (Some l) a.
Proof.
  intros Hl. unfold anyToSetCookieHeaders, anyToCookieObjects. rewrite Hl.
  cbn [bind]. unfold cookieObjectsToSetCookieHeaders. cbn [default].
  rewrite map_map, mapM_compose. apply mapM_ext. intros x.
  unfold object_to_header. cbn [own_props opt_props].
  now rewrite spread_spread_nil.
Qed.

Lemma unique_keys_record_object (a : obj) (n : string) (v : value) :
  unique_keys (set_all a (name_value n v)) = true.
Proof. now apply unique_keys_set_all. Qed.

Lemma spread_name_value (a : obj) (n : string) (v : value) :
  spread (name_value n v) a = set_all a (name_value n v).
Proof. unfold spread. now rewrite (set_all_id (name_value n v)). Qed.

(** X12.  On a record it is all one whether the attributes are put into
    the objects when these are made from the record, as
    [anyToSetCookieHeaders] does, or given to
    [cookieObjectsToSetCookieHeaders] with the bare objects; and the call
    gives one header per entry, unless [serialize] refuses one of them
    with a [TypeError]. *)
Theorem anyToSetCookieHeaders_of_record (R : obj) (a : option obj) :
  anyToSetCookieHeaders (VObj R) a
  = cookieObjectsToSetCookieHeaders
      (Some (map VObj (cookieRecordToCookieObjects (Some R) None))) a /\
  (anyToSetCookieHeaders (VObj R) a = Throw TypeError \/
   exists headers, anyToSetCookieHeaders (VObj R) a = Ok headers /\
                   length headers = length R).
Proof.
  assert (E : anyToSetCookieHeaders (VObj R) a
              = cookieObjectsToSetCookieHeaders
                  (Some (map VObj (cookieRecordToCookieObjects (Some R) None))) a).
  { unfold anyToSetCookieHeaders, anyToCookieObjects, anyToCookieRecord.
    cbn [bind].
    unfold cookieObjectsToSetCookieHeaders, cookieRecordToCookieObjects.
    cbn [default]. rewrite !map_map, !mapM_compose. apply mapM_ext. intros [n v].
    unfold object_to_header. cbn [own_props opt_props fst snd].
    change (set_all [] [("name", VStr n); ("value", v)]) with (name_value n v).
    change [("name", VStr n); ("value", v)] with (name_value n v).
    rewrite (spread_nil_r _ (unique_keys_record_object (opt_props a) n v)).
    now rewrite spread_name_value. }
  split; [exact E|]. rewrite E.
  destruct (cookieObjectsToSetCookieHeaders _ a) as [headers|e] eqn:Eh.
  - right. exists headers. split; [reflexivity|].
    unfold cookieObjectsToSetCookieHeaders in Eh. cbn [default] in Eh.
    apply mapM_length in Eh. rewrite Eh.
    unfold cookieRecordToCookieObjects. cbn [default]. now rewrite !length_map.
  - left. destruct e; [|reflexivity].
    now apply cookieObjectsToSetCookieHeaders_not_unknown in Eh.
Qed.

(** X13.  A record made into objects and handed to [anyToCookieRecord]
    comes back, unless it is empty: the empty array has no first element
    to recognize and the call raises [UnknownFormat]. *)
Theorem record_through_dispatcher (R a : obj) :
  unique_keys R = true ->
  lookup "name" a = None -> lookup "value" a = None ->
  anyToCookieRecord (VArr (map VObj (cookieRecordToCookieObjects (Some R) (Some a))))
  = match R with
    | [] => Throw UnknownFormat
    | _ :: _ => Ok R
    end.
Proof.
  intros Hu Hn Hv. destruct R as [|e t] eqn:ER; [reflexivity|].
  rewrite <- ER in *. unfold anyToCookieRecord.
  assert (Hf : is_string (first (map VObj (cookieRecordToCookieObjects (Some R) (Some a))))
               = false /\
               is_object (first (map VObj (cookieRecordToCookieObjects (Some R) (Some a))))
               = true).
  { subst R. split; reflexivity. }
  destruct Hf as [-> ->]. now apply record_objects_read_back.
Qed.

(** X14.  On an array whose first element is itself an array the two
    sniffs part: [anyToCookieObjects] returns the empty array, while
    [anyToCookieRecord] takes the elements for cookie objects and does not
    raise [UnknownFormat]. *)
Theorem array_of_arrays_sniffed_apart (x : list value) (l : list value) (a : option obj) :
  anyToCookieObjects (VArr (VArr x :: l)) a = Ok [] /\
  anyToCookieRecord (VArr (VArr x :: l))
  = cookieObjectsToCookieRecord (Some (VArr x :: l)) /\
  anyToCookieRecord (VArr (VArr x :: l)) <> Throw UnknownFormat.
Proof.
  split; [reflexivity|]. split; [reflexivity|].
  apply cookieObjectsToCookieRecord_not_unknown.
Qed.

(** X15.  On an array whose first element is a plain object
    [anyToCookieObjects] does not raise, whatever the later elements are,
    and returns one object per element, each the spread of the element
    with the attributes merged over it. *)
Theorem anyToCookieObjects_of_objects (l : list value) (a : obj) :
  is_object (first l) && negb (is_array (first l)) = true ->
  unique_keys a = true ->
  exists objs,
    anyToCookieObjects (VArr l) (Some a) = Ok objs /\
    length objs = length l /\
    forall i o, nth_error l i = Some (VObj o) -> unique_keys o = true ->
                exists o', nth_error objs i = Some o' /\
                           forall k, lookup k o' = match lookup k a with
                                                   | Some v => Some v
                                                   | None => lookup k o
                                                   end.
Proof.
  intros Hl Ha. unfold anyToCookieObjects. rewrite Hl. eexists.
  split; [reflexivity|]. split; [apply length_map|].
  intros i o Hi Ho. eexists. split.
  - rewrite nth_error_map, Hi. reflexivity.
  - intros k. cbn [own_props opt_props]. now apply lookup_spread.
Qed.

(** ** Further properties: one attribute *)

Lemma split_equals_key (k v : string) :
  free_of equals k = true ->
  split_equals (k ++ "=" ++ v) = k :: split_equals v.
Proof.
  intros Hk. change ("=" ++ v) with (String equals v).
  induction k as [|c t IH]; simpl; [reflexivity|].
  simpl in Hk. apply andb_prop in Hk. destruct Hk as [Hc Ht].
  apply negb_true_iff in Hc. now rewrite Hc, (IH Ht).
Qed.

(** What [parse_flag] does with a key and its value. *)
Lemma parse_flag_flag_text (acc : obj) (k : string) (val : option string) :
  free_of equals k = true ->
  match val with Some v => free_of equals v = true | None => True end ->
  parse_flag acc (flag_text k val)
  = if String.eqb (propName (toLowerCase k)) "maxAge"
    then set "maxAge" (VNum (parseInt val)) acc
    else set (propName (toLowerCase k))
             (match val with
              | None => VBool true
              | Some s => VStr s
              end) acc.
Proof.
  intros Hk Hv. unfold parse_flag, flag_text. destruct val as [v|].
  - now rewrite (split_equals_pair k v Hk Hv).
  - now rewrite (split_equals_free k Hk).
Qed.

Lemma header_with_one_attribute (nv flag : string) :
  free_of semicolon nv = true -> free_of semicolon flag = true ->
  starts_solid flag = true ->
  header_object (nv ++ connector ++ flag)
  = parse_flag (name_value (fst (destructure2 (split_equals nv)))
                           (opt_text (snd (destructure2 (split_equals nv))))) flag.
Proof.
  intros Hnv Hf Hs. unfold header_object.
  pose proof (split_semicolon_ws_segments nv [flag] Hnv) as E.
  cbn [map String.concat] in E. rewrite E.
  - now destruct (destructure2 (split_equals nv)).
  - constructor; [now split | constructor].
Qed.

Lemma free_of_flag_text (k : string) (val : option string) :
  free_of semicolon k = true ->
  match val with Some v => free_of semicolon v = true | None => True end ->
  free_of semicolon (flag_text k val) = true.
Proof.
  intros Hk Hv. destruct val as [v|]; unfold flag_text; [|exact Hk].
  now rewrite !free_of_app, Hk, Hv.
Qed.

Lemma starts_solid_flag_text (k : string) (val : option string) :
  starts_solid k = true -> starts_solid (flag_text k val) = true.
Proof.
  intros Hk. destruct val as [v|]; unfold flag_text;
    [now apply starts_solid_app | exact Hk].
Qed.

Lemma one_attribute_lookup (nv k : string) (val : option string) :
  free_of semicolon nv = true ->
  plain k = true -> starts_solid k = true ->
  match val with Some v => plain v = true | None => True end ->
  exists o,
    setCookieHeadersToCookieObjects
      (Some [VStr (nv ++ connector ++ flag_text k val)]) None = Ok [o] /\
    lookup (propName (toLowerCase k)) o
    = Some (if String.eqb (propName (toLowerCase k)) "maxAge"
            then VNum (parseInt val)
            else match val with
                 | None => VBool true
                 | Some s => VStr s
                 end).
Proof.
  intros Hnv Hk Hs Hv. destruct (plain_split _ Hk) as [Hks Hke].
  assert (Hvs : match val with Some v => free_of semicolon v = true | None => True end)
    by (destruct val; [now destruct (plain_split _ Hv) | exact I]).
  assert (Hve : match val with Some v => free_of equals v = true | None => True end)
    by (destruct val; [now destruct (plain_split _ Hv) | exact I]).
  eexists. split; [apply setCookieHeadersToCookieObjects_one|].
  rewrite header_with_one_attribute;
    [|exact Hnv | now apply free_of_flag_text | now apply starts_solid_flag_text].
  rewrite (parse_flag_flag_text _ k val Hke Hve).
  destruct (String.eqb_spec (propName (toLowerCase k)) "maxAge") as [E|E].
  - rewrite E. now rewrite lookup_set, String.eqb_refl.
  - now rewrite lookup_set, String.eqb_refl.
Qed.

(** X16.  The attribute of a header with one attribute is stored under
    the key that [cookiePropertyMap] gives its name in lowercase: as
    [true] when it has no [=], as its text when it has one, and, under
    [maxAge], as the number that [parseInt] reads, where that number is
    one that the engine holds exactly. *)
Theorem one_attribute_stored (nv k : string) (val : option string) :
  free_of semicolon nv = true ->
  plain k = true -> starts_solid k = true ->
  match val with Some v => plain v = true | None => True end ->
  (propName (toLowerCase k) = "maxAge" -> exact_number (parseInt val) = true) ->
  exists o,
    setCookieHeadersToCookieObjects
      (Some [VStr (nv ++ connector ++ flag_text k val)]) None = Ok [o] /\
    lookup (propName (toLowerCase k)) o
    = Some (if String.eqb (propName (toLowerCase k)) "maxAge"
            then VNum (parseInt val)
            else match val with
                 | None => VBool true
                 | Some s => VStr s
                 end).
Proof. intros Hnv Hk Hs Hv _. now apply one_attribute_lookup. Qed.

(** X17.  Attribute names are read without regard to case: two headers
    that differ only in the case of the letters of an attribute name give
    the same objects. *)
Theorem attribute_names_case_insensitive (nv k k' : string) (val : option string) :
  free_of semicolon nv = true ->
  plain k = true -> starts_solid k = true ->
  plain k' = true -> starts_solid k' = true ->
  match val with Some v => plain v = true | None => True end ->
  toLowerCase k = toLowerCase k' ->
  setCookieHeadersToCookieObjects
    (Some [VStr (nv ++ connector ++ flag_text k val)]) None
  = setCookieHeadersToCookieObjects
      (Some [VStr (nv ++ connector ++ flag_text k' val)]) None.
Proof.
  intros Hnv Hk Hs Hk' Hs' Hv Hl.
  destruct (plain_split _ Hk) as [Hks Hke]. destruct (plain_split _ Hk') as [Hks' Hke'].
  assert (Hvs : match val with Some v => free_of semicolon v = true | None => True end)
    by (destruct val; [now destruct (plain_split _ Hv) | exact I]).
  assert (Hve : match val with Some v => free_of equals v = true | None => True end)
    by (destruct val; [now destruct (plain_split _ Hv) | exact I]).
  rewrite !setCookieHeadersToCookieObjects_one.
  rewrite !header_with_one_attribute;
    try exact Hnv; try (now apply free_of_flag_text);
    try (now apply starts_solid_flag_text).
  rewrite (parse_flag_flag_text _ k val Hke Hve),
          (parse_flag_flag_text _ k' val Hke' Hve).
  now rewrite Hl.
Qed.

Lemma parseInt_without_number (v : string) :
  starts_without_number v = true -> parseInt (Some v) = NaN.
Proof.
  destruct v as [|c t]; [reflexivity|]. unfold starts_without_number. intros H.
  split_good H.
  apply negb_true_iff in H, H1, H2.
  destruct (digit_of 10 c) eqn:Ed; [discriminate|].
  unfold parseInt. cbn [skip_space]. rewrite H, H2, H1.
  assert (Hz : Ascii.eqb c "0" = false).
  { apply Ascii.eqb_neq. intros ->. discriminate Ed. }
  unfold read_unsigned. destruct t as [|c1 t1].
  - cbn [read_digits]. now rewrite Ed.
  - rewrite Hz. cbn [andb read_digits]. now rewrite Ed.
Qed.

(** X18.  A [Max-Age] attribute, in any case of its letters, whose text
    holds no number where [parseInt] looks for one, or that has no [=],
    is stored as [maxAge: NaN]; nothing is raised. *)
Theorem max_age_without_number (nv k : string) (val : option string) :
  free_of semicolon nv = true ->
  plain k = true -> starts_solid k = true ->
  toLowerCase k = "max-age" ->
  match val with
  | Some v => plain v = true /\ starts_without_number v = true
  | None => True
  end ->
  exists o,
    setCookieHeadersToCookieObjects
      (Some [VStr (nv ++ connector ++ flag_text k val)]) None = Ok [o] /\
    lookup "maxAge" o = Some (VNum NaN).
Proof.
  intros Hnv Hk Hs Hl Hv.
  destruct (one_attribute_lookup nv k val Hnv Hk Hs) as [o [Ho Hlook]].
  { destruct val; [now destruct Hv | exact I]. }
  exists o. split; [exact Ho|].
  rewrite Hl in Hlook. change (propName "max-age") with "maxAge" in Hlook.
  rewrite Hlook. change (String.eqb "maxAge" "maxAge") with true. cbv iota.
  destruct val as [v|]; [|reflexivity].
  destruct Hv as [_ Hv]. now rewrite (parseInt_without_number v Hv).
Qed.

(** ** Further properties: writing Set-Cookie headers *)


Lemma before_semicolon_idempotent (h : string) :
  before_semicolon (before_semicolon h) = before_semicolon h.
Proof.
  induction h as [|c t IH]; simpl; [reflexivity|].
  destruct (Ascii.eqb c semicolon) eqn:E; simpl; [reflexivity|].
  now rewrite E, IH.
Qed.

(** X20.  [setCookieHeadersToCookieRecord] looks at nothing after the
    first [;] of a header: it gives the same record once every header is
    cut there. *)
Theorem setCookieHeadersToCookieRecord_ignores_attributes (H : list string) :
  setCookieHeadersToCookieRecord (Some (map VStr H))
  = setCookieHeadersToCookieRecord (Some (map VStr (map before_semicolon H))).
Proof.
  rewrite !setCookieHeadersToCookieRecord_fold. f_equal.
  generalize (@nil (string * value)).
  induction H as [|h t IH]; simpl; intros acc; [reflexivity|].
  rewrite IH. do 2 f_equal. unfold prefix_record.
  now rewrite !hd_split_delimiter, before_semicolon_idempotent.
Qed.

Lemma set_same {V} (k : string) (v : V) (o : list (string * V)) :
  lookup k o = Some v -> set k v o = o.
Proof.
  induction o as [|[k0 v0] t IH]; simpl; [discriminate|].
  destruct (String.eqb_spec k0 k) as [->|_].
  - intros H. now inversion H.
  - intros H. now rewrite IH.
Qed.

Lemma set_all_same {V} (props o : list (string * V)) :
  (forall k v, In (k, v) props -> lookup k o = Some v) -> set_all props o = o.
Proof.
  induction props as [|[k v] t IH]; intros H; [reflexivity|].
  change (set_all ((k, v) :: t) o) with (set_all t (set k v o)).
  rewrite (set_same k v o) by (apply H; now left).
  apply IH. intros; apply H; now right.
Qed.

Lemma spread_again (x a : obj) :
  unique_keys a = true -> spread (spread x a) a = spread x a.
Proof.
  intros Ha. unfold spread at 1.
  rewrite (set_all_id _ (unique_keys_spread x a)).
  apply set_all_same. intros k v Hin. unfold spread.
  rewrite (lookup_set_all _ _ _ Ha). now rewrite (lookup_In _ _ _ Ha Hin).
Qed.

(** X21.  On arrays of cookie objects [anyToCookieObjects] is idempotent:
    given its own result with the same attributes, it returns it
    unchanged. *)
Theorem anyToCookieObjects_idempotent (l : list value) (a : obj) (objs : list obj) :
  unique_keys a = true ->
  is_object (first l) && negb (is_array (first l)) = true ->
  anyToCookieObjects (VArr l) (Some a) = Ok objs ->
  anyToCookieObjects (VArr (map VObj objs)) (Some a) = Ok objs.
Proof.
  intros Ha Hl. unfold anyToCookieObjects at 1. rewrite Hl.
  intros H. inversion H; subst. clear H.
  destruct l as [|x t]; [discriminate|].
  unfold anyToCookieObjects. cbn [map first is_object is_array negb andb].
  f_equal. rewrite !map_map. cbn [own_props opt_props].
  f_equal; [now apply spread_again|].
  apply map_ext. intros y. now apply spread_again.
Qed.

Lemma segments_in_same_lookups (names : list (string * string)) (O O' : obj) :
  (forall e, In e names ->
     match lookup (fst e) O, lookup (fst e) O' with
     | Some v, Some v' => segment (snd e) (option_of (fst e) v)
                          = segment (snd e) (option_of (fst e) v')
     | None, None => True
     | _, _ => False
     end) ->
  segments_in names O' = segments_in names O.
Proof.
  induction names as [|e t IH]; intros H; [reflexivity|].
  rewrite !segments_in_cons, IH by (intros; apply H; now right).
  specialize (H e (or_introl eq_refl)).
  destruct (lookup (fst e) O), (lookup (fst e) O'); try contradiction;
    [now rewrite H | reflexivity].
Qed.

(** X22.  Writing, reading and writing again gives the same headers: for
    a cookie object as in C3, whose expiry text, if it has one, is read by
    the engine as the date it stands for, the headers of the object read
    back are written, and they are the headers of the object. *)
Theorem object_header_double_round_trip (O : obj) :
  cookie_object O = true ->
  (forall e text, lookup "expires" O = Some e -> toUTCString e = Some text ->
                  toUTCString (VStr text) = Some text) ->
  exists headers,
    cookieObjectsToSetCookieHeaders (Some [VObj O]) None = Ok headers /\
    (objects <- setCookieHeadersToCookieObjects (Some (map VStr headers)) None ;;
     cookieObjectsToSetCookieHeaders (Some (map VObj objects)) None)
    = Ok headers.
Proof.
  intros HO Hfix.
  destruct (cookie_object_fields O HO) as [Hu [Hgood [n [v [Hn [Hv [Pn Pv]]]]]]].
  set (O' := set_all (entries_in wire_names O) [("name", VStr n); ("value", VStr v)]).
  assert (Hu' : unique_keys O' = true) by now apply unique_keys_set_all.
  assert (Hl : forall k, lookup k O' = option_map (normalize_field k) (lookup k O)).
  { intros k. unfold O'. rewrite (lookup_read_back O n v k Hgood Hn Hv).
    apply lookup_normalize. }
  pose proof (cookie_object_read_back O n v Hu Hgood Hn Hv Pn Pv) as Hread.
  fold O' in Hread.
  assert (Hhead : cookieObjectsToSetCookieHeaders (Some [VObj O]) None
                  = Ok [(n ++ "=" ++ v)
                        ++ String.concat EmptyString
                             (map (append connector) (segments_in wire_names O))]).
  { unfold cookieObjectsToSetCookieHeaders. cbn [default mapM].
    unfold object_to_header. cbn [own_props opt_props].
    now rewrite (spread_nil_r _ Hu), (header_of_cookie_object O n v Hu Hgood Hn Hv). }
  rewrite Hhead in Hread. cbn [bind] in Hread.
  eexists. split; [exact Hhead|]. rewrite Hread. cbn [bind map].
  unfold cookieObjectsToSetCookieHeaders. cbn [default mapM].
  unfold object_to_header. cbn [own_props opt_props].
  rewrite (spread_nil_r _ Hu').
  assert (Hgood' : forall k val, lookup k O' = Some val -> good_field k val = true).
  { intros k val Hk. rewrite Hl in Hk.
    destruct (lookup k O) as [val0|] eqn:Ek; [|discriminate].
    cbn [option_map] in Hk. inversion Hk; subst. clear Hk.
    pose proof (Hgood _ _ Ek) as G. unfold normalize_field.
    destruct (String.eqb_spec k "expires") as [->|_]; [|exact G].
    destruct (good_expires val0 G) as [text [Et [Ed Hp]]].
    unfold good_field. cbn [String.eqb Ascii.eqb Bool.eqb orb].
    rewrite Ed, (Hfix _ _ Ek Et). exact Hp. }
  assert (Hn' : lookup "name" O' = Some (VStr n)) by (rewrite Hl, Hn; reflexivity).
  assert (Hv' : lookup "value" O' = Some (VStr v)) by (rewrite Hl, Hv; reflexivity).
  rewrite (header_of_cookie_object O' n v Hu' Hgood' Hn' Hv'). cbn [bind].
  do 5 f_equal. apply segments_in_same_lookups.
  intros e He. rewrite Hl. destruct (lookup (fst e) O) as [val|] eqn:Ek; [|exact I].
  cbn [option_map]. unfold normalize_field, option_of.
  destruct (String.eqb_spec (fst e) "expires") as [Ee|_]; [|reflexivity].
  rewrite Ee in Ek.
  destruct (good_expires val (Hgood _ _ Ek)) as [text [Et [Ed _]]].
  unfold segment, date_text. now rewrite Et, (Hfix _ _ Ek Et).
Qed.
End Conversions.

(** ** Instances *)

(** C1, as first stated, fails: without an argument [anyToCookieRecord]
    raises, it does not return an empty record. *)
Lemma anyToCookieRecord_without_argument_throws :
  anyToCookieRecord VUndefined = Throw UnknownFormat /\
  ~ (exists r : obj, anyToCookieRecord VUndefined = Ok r).
Proof. split; [reflexivity|]. intros [r H]. discriminate H. Qed.

(** C4, as first stated, fails: an array that starts with a string is a
    recognized shape, yet a later element that is no string has no [split]
    and the call raises a [TypeError]; so does an array of objects when a
    name gives no property key. *)
Lemma anyToCookieRecord_mixed_array_throws :
  recognized (VArr [VStr "a=1"; VNum (Int 42)]) = true /\
  anyToCookieRecord (VArr [VStr "a=1"; VNum (Int 42)]) = Throw TypeError /\
  ~ (exists r : obj, anyToCookieRecord (VArr [VStr "a=1"; VNum (Int 42)]) = Ok r) /\
  recognized (VArr [VObj [("name", VObj [("toString", VNum (Int 1))]);
                          ("value", VStr "x")]]) = true /\
  anyToCookieRecord (VArr [VObj [("name", VObj [("toString", VNum (Int 1))]);
                                 ("value", VStr "x")]]) = Throw TypeError.
Proof.
  split; [reflexivity|]. split; [reflexivity|].
  split; [intros [r H]; discriminate H|]. split; reflexivity.
Qed.

Lemma unknown_format_taxonomy_witness :
  recognized (VArr [VStr "a=1"; VStr "b=2"]) = true /\
  elements_fit (VArr [VStr "a=1"; VStr "b=2"]) = true /\
  exists r, anyToCookieRecord (VArr [VStr "a=1"; VStr "b=2"]) = Ok r.
Proof.
  split; [reflexivity|]. split; [reflexivity|].
  apply (unknown_format_taxonomy example_toUTCString
           (VArr [VStr "a=1"; VStr "b=2"]) None None None);
    reflexivity.
Defined.

Lemma array_with_unrecognized_first_witness :
  anyToCookieObjects (VArr [VNum (Int 42); VStr "a=1"]) None = Ok [] /\
  anyToCookieRecord (VArr [VNum (Int 42); VStr "a=1"]) = Throw UnknownFormat.
Proof.
  apply (array_with_unrecognized_first [VNum (Int 42); VStr "a=1"] None);
    reflexivity.
Defined.


Lemma undefined_fields_are_skipped_witness :
  object_to_header example_toUTCString
    (Some [("path", VUndefined)])
    (VObj [("name", VStr "a"); ("value", VStr "1"); ("path", VStr "/")])
  = Ok "a=1" /\
  object_to_header example_toUTCString
    (Some [("secure", VBool true)])
    (VObj [("name", VStr "a"); ("value", VStr "1"); ("path", VUndefined)])
  = Ok "a=1; Secure" /\
  object_to_header example_toUTCString
    (Some [("secure", VBool true); ("path", VUndefined)])
    (VObj [("name", VStr "a"); ("value", VStr "1")])
  = Ok "a=1; Secure".
Proof.
  split; [|split].
  - pose proof (undefined_fields_are_skipped example_toUTCString
                  (VObj [("name", VStr "a"); ("value", VStr "1"); ("path", VStr "/")])
                  (Some [("path", VUndefined)])) as [_ [H _]].
    destruct (H "path" eq_refl) as [_ ->]. reflexivity.
  - pose proof (undefined_fields_are_skipped example_toUTCString
                  VUndefined (Some [("secure", VBool true)])) as [_ [_ [H _]]].
    exact (eq_trans
             (H [("name", VStr "a"); ("value", VStr "1"); ("path", VUndefined)]
                "path" eq_refl eq_refl eq_refl)
             eq_refl).
  - pose proof (undefined_fields_are_skipped example_toUTCString
                  (VObj [("name", VStr "a"); ("value", VStr "1")])
                  None) as [_ [_ [_ H]]].
    exact (eq_trans
             (H [("secure", VBool true); ("path", VUndefined)]
                "path" eq_refl eq_refl eq_refl (or_introl eq_refl))
             eq_refl).
Defined.

(** C10, as first stated, fails: an attribute given as [undefined] hides
    the field of the object before it is skipped, which leaving the
    attribute out does not. *)
Lemma undefined_attribute_hides_object_field :
  object_to_header example_toUTCString
    (Some [("path", VUndefined)])
    (VObj [("name", VStr "a"); ("value", VStr "1"); ("path", VStr "/")])
  = Ok "a=1" /\
  object_to_header example_toUTCString
    (Some [])
    (VObj [("name", VStr "a"); ("value", VStr "1"); ("path", VStr "/")])
  = Ok "a=1; Path=/" /\
  cookieObjectsToSetCookieHeaders example_toUTCString
    (Some [VObj [("name", VStr "a"); ("value", VStr "1"); ("path", VStr "/")]])
    (Some [("path", VUndefined)])
  <> cookieObjectsToSetCookieHeaders example_toUTCString
       (Some [VObj [("name", VStr "a"); ("value", VStr "1"); ("path", VStr "/")]])
       (Some []).
Proof. split; [reflexivity|]. split; [reflexivity|]. discriminate. Qed.

(** C2, as first stated, fails: a name with a space holds no [;] and no
    [=], yet [serialize] refuses it; and [Object.assign] onto a plain
    object does not copy a cookie named [__proto__]. *)
Lemma refused_name_and_proto_name_break_round_trip :
  plain "a b" = true /\ plain "x" = true /\
  cookieRecordToCookieHeader example_toUTCString (Some (record_of [("a b", "x")]))
    = Throw TypeError /\
  plain "__proto__" = true /\
  cookieRecordToCookieHeader example_toUTCString (Some (record_of [("__proto__", "x")]))
    = Ok "__proto__=x" /\
  cookieHeaderToCookieRecord (Some "__proto__=x") = [] /\
  (header <- cookieRecordToCookieHeader example_toUTCString
               (Some (record_of [("__proto__", "x")])) ;;
   Ok (cookieHeaderToCookieRecord (Some header)))
  <> Ok (record_of [("__proto__", "x")]).
Proof. repeat split; try reflexivity. discriminate. Qed.

Lemma record_header_round_trip_witness :
  (header <- cookieRecordToCookieHeader example_toUTCString
               (Some (record_of [("session", "abc 123;=%"); ("id", "42")])) ;;
   Ok (cookieHeaderToCookieRecord (Some header)))
  = Ok (record_of [("session", "abc 123;=%"); ("id", "42")]).
Proof.
  apply (record_header_round_trip example_toUTCString
           [("session", "abc 123;=%"); ("id", "42")]); reflexivity.
Defined.

(** C8, as first stated, fails: an attribute called [name] takes the place
    of the cookie's name in the object, not in the record; and the record
    holds the decoded value, the object the value as it is written. *)
Lemma attribute_called_name_breaks_bridge :
  setCookieHeadersToCookieRecord (Some [VStr "a=1; name=b"]) = Ok [("a", VStr "1")] /\
  (objects <- setCookieHeadersToCookieObjects (Some [VStr "a=1; name=b"]) None ;;
   cookieObjectsToCookieRecord (Some (map VObj objects))) = Ok [("b", VStr "1")] /\
  setCookieHeadersToCookieRecord (Some [VStr "a=1; name=b"]) <>
  (objects <- setCookieHeadersToCookieObjects (Some [VStr "a=1; name=b"]) None ;;
   cookieObjectsToCookieRecord (Some (map VObj objects))) /\
  setCookieHeadersToCookieRecord (Some [VStr "a=%41; Path=/"]) = Ok [("a", VStr "A")] /\
  (objects <- setCookieHeadersToCookieObjects (Some [VStr "a=%41; Path=/"]) None ;;
   cookieObjectsToCookieRecord (Some (map VObj objects))) = Ok [("a", VStr "%41")].
Proof. repeat split; try reflexivity. discriminate. Qed.

Lemma record_of_headers_through_objects_witness :
  setCookieHeadersToCookieRecord
    (Some (map VStr ["session=abc123; Path=/; HttpOnly"; "id=42; Max-Age=60"]))
  = (objects <- setCookieHeadersToCookieObjects
                  (Some (map VStr ["session=abc123; Path=/; HttpOnly"; "id=42; Max-Age=60"]))
                  None ;;
     cookieObjectsToCookieRecord (Some (map VObj objects))).
Proof.
  apply (record_of_headers_through_objects
           ["session=abc123; Path=/; HttpOnly"; "id=42; Max-Age=60"]).
  reflexivity.
Defined.



Lemma setCookieHeadersToCookieRecord_last_wins_witness :
  exists r r',
    setCookieHeadersToCookieRecord (Some (map VStr ["a=1; Path=/"; "b=2"])) = Ok r /\
    setCookieHeadersToCookieRecord
      (Some (map VStr (["a=1; Path=/"; "b=2"] ++ ["a=3; HttpOnly"])%list)) = Ok r' /\
    forall k, lookup k r' = if String.eqb "a" k then Some (VStr "3") else lookup k r.
Proof.
  destruct setCookieHeadersToCookieRecord_last_wins as [_ [_ [H _]]].
  exact (H ["a=1; Path=/"; "b=2"] "a=3; HttpOnly" "a" "3" eq_refl).
Defined.

(** ** Instances of the further properties *)

Lemma record_objects_round_trip_witness :
  cookieObjectsToCookieRecord
    (Some (map VObj (cookieRecordToCookieObjects
                       (Some [("session", VStr "abc123"); ("id", VStr "42")])
                       (Some [("secure", VBool true)]))))
  = Ok [("session", VStr "abc123"); ("id", VStr "42")].
Proof.
  apply (record_objects_round_trip
           [("session", VStr "abc123"); ("id", VStr "42")] [("secure", VBool true)]);
    reflexivity.
Defined.

Lemma cookieRecordToCookieObjects_fields_witness :
  length (cookieRecordToCookieObjects
            (Some [("session", VStr "abc123"); ("id", VStr "42")])
            (Some [("secure", VBool true); ("name", VStr "x")])) = 2.
Proof.
  exact (proj1 (cookieRecordToCookieObjects_fields
                  [("session", VStr "abc123"); ("id", VStr "42")]
                  [("secure", VBool true); ("name", VStr "x")] eq_refl)).
Defined.

Lemma cookieObjectsToCookieRecord_type_error_witness :
  cookieObjectsToCookieRecord
    (Some [VObj [("name", VStr "a"); ("value", VStr "1")];
           VObj [("name", VObj [("toString", VNum (Int 1))]); ("value", VStr "x")]])
  = Throw TypeError /\
  exists r,
    cookieObjectsToCookieRecord
      (Some [VObj [("name", VStr "a"); ("value", VStr "1")];
             VObj [("name", VObj []); ("value", VStr "x")]]) = Ok r.
Proof.
  split.
  - apply (proj1 (cookieObjectsToCookieRecord_type_error
                    [VObj [("name", VStr "a"); ("value", VStr "1")];
                     VObj [("name", VObj [("toString", VNum (Int 1))]);
                           ("value", VStr "x")]])).
    reflexivity.
  - apply (proj2 (cookieObjectsToCookieRecord_type_error
                    [VObj [("name", VStr "a"); ("value", VStr "1")];
                     VObj [("name", VObj []); ("value", VStr "x")]])).
    reflexivity.
Defined.

Lemma cookieObjectsToCookieRecord_last_wins_witness :
  exists r r',
    cookieObjectsToCookieRecord
      (Some (map VObj [[("name", VStr "a"); ("value", VStr "1")]])) = Ok r /\
    cookieObjectsToCookieRecord
      (Some (map VObj ([[("name", VStr "a"); ("value", VStr "1")]]
                       ++ [[("name", VStr "a"); ("value", VStr "2")]])%list))
    = Ok r' /\
    forall k, lookup k r' = if String.eqb "a" k then Some (VStr "2") else lookup k r.
Proof.
  exact (cookieObjectsToCookieRecord_last_wins
           [[("name", VStr "a"); ("value", VStr "1")]]
           [("name", VStr "a"); ("value", VStr "2")] "a" eq_refl eq_refl).
Defined.

Lemma setCookieHeadersToCookieRecord_type_error_witness :
  setCookieHeadersToCookieRecord (Some [VStr "a=1"; VObj []]) = Throw TypeError.
Proof.
  apply (proj1 (setCookieHeadersToCookieRecord_type_error [VStr "a=1"; VObj []])).
  reflexivity.
Defined.

Lemma setCookieHeadersToCookieObjects_type_error_witness :
  exists objs,
    setCookieHeadersToCookieObjects (Some [VStr "a=1"; VStr "a=2"]) None = Ok objs /\
    length objs = 2.
Proof.
  apply (proj2 (setCookieHeadersToCookieObjects_type_error [VStr "a=1"; VStr "a=2"] None)).
  reflexivity.
Defined.

Lemma setCookieHeadersToCookieObjects_attributes_witness :
  setCookieHeadersToCookieObjects
    (Some (map VStr ["a=1; Path=/x; Secure"])) (Some [("path", VStr "/")])
  = Ok (map (fun h => spread (header_object h) [("path", VStr "/")])
            ["a=1; Path=/x; Secure"]).
Proof.
  exact (proj1 (setCookieHeadersToCookieObjects_attributes
                  ["a=1; Path=/x; Secure"] [("path", VStr "/")] eq_refl)).
Defined.

Lemma first_segment_name_value_witness :
  exists o,
    setCookieHeadersToCookieObjects (Some [VStr "token; HttpOnly"]) None = Ok [o] /\
    get "name" o = VStr "token" /\ get "value" o = VUndefined.
Proof.
  destruct (first_segment_name_value "token; HttpOnly" eq_refl)
    as [o [Ho [_ [_ H]]]].
  exists o. split; [exact Ho|]. exact (H eq_refl).
Defined.

Lemma setCookieHeadersToCookieObjects_stored_keys_witness :
  Forall (fun o => forallb stored_key (keys o) = true)
         [[("name", VStr "a"); ("value", VStr "1"); ("path", VStr "/");
           ("foo", VStr "Bar"); ("httpOnly", VBool true)]].
Proof.
  apply (setCookieHeadersToCookieObjects_stored_keys
           [VStr "a=1; Path=/; FOO=Bar; HTTPONLY"]).
  reflexivity.
Defined.

Lemma header_records_have_no_proto_witness :
  lookup "__proto__" [("a", VStr "1")] = None.
Proof.
  apply (proj2 (header_records_have_no_proto None
                  [VStr "__proto__=x"; VStr "a=1"] [("a", VStr "1")])).
  reflexivity.
Defined.

Lemma anyToSetCookieHeaders_of_objects_witness :
  anyToSetCookieHeaders example_toUTCString
    (VArr [VObj [("name", VStr "a"); ("value", VStr "1"); ("path", VStr "/")]])
    (Some [("secure", VBool true)])
  = cookieObjectsToSetCookieHeaders example_toUTCString
      (Some [VObj [("name", VStr "a"); ("value", VStr "1"); ("path", VStr "/")]])
      (Some [("secure", VBool true)]).
Proof.
  apply (anyToSetCookieHeaders_of_objects example_toUTCString). reflexivity.
Defined.

Lemma record_through_dispatcher_witness :
  anyToCookieRecord
    (VArr (map VObj (cookieRecordToCookieObjects
                       (Some [("session", VStr "abc123")]) (Some [("path", VStr "/")]))))
  = Ok [("session", VStr "abc123")].
Proof.
  apply (record_through_dispatcher [("session", VStr "abc123")] [("path", VStr "/")]);
    reflexivity.
Defined.

Lemma anyToCookieObjects_of_objects_witness :
  exists objs,
    anyToCookieObjects (VArr [VObj [("name", VStr "a"); ("value", VStr "1")]; VNull])
                       (Some [("secure", VBool true)]) = Ok objs /\
    length objs = 2.
Proof.
  destruct (anyToCookieObjects_of_objects
              [VObj [("name", VStr "a"); ("value", VStr "1")]; VNull]
              [("secure", VBool true)] eq_refl eq_refl) as [objs [H1 [H2 _]]].
  exists objs. split; [exact H1 | exact H2].
Defined.

Lemma one_attribute_stored_witness :
  exists o,
    setCookieHeadersToCookieObjects (Some [VStr "theme=dark; Max-Age=3600"]) None
    = Ok [o] /\
    lookup "maxAge" o = Some (VNum (Int 3600)).
Proof.
  exact (one_attribute_stored "theme=dark" "Max-Age" (Some "3600")
           eq_refl eq_refl eq_refl eq_refl (fun _ => eq_refl)).
Defined.

Lemma attribute_names_case_insensitive_witness :
  setCookieHeadersToCookieObjects (Some [VStr "theme=dark; HttpOnly"]) None
  = setCookieHeadersToCookieObjects (Some [VStr "theme=dark; HTTPONLY"]) None.
Proof.
  exact (attribute_names_case_insensitive "theme=dark" "HttpOnly" "HTTPONLY" None
           eq_refl eq_refl eq_refl eq_refl eq_refl I eq_refl).
Defined.

Lemma max_age_without_number_witness :
  exists o,
    setCookieHeadersToCookieObjects (Some [VStr "a=1; MAX-AGE=soon"]) None = Ok [o] /\
    lookup "maxAge" o = Some (VNum NaN).
Proof.
  exact (max_age_without_number "a=1" "MAX-AGE" (Some "soon")
           eq_refl eq_refl eq_refl eq_refl (conj eq_refl eq_refl)).
Defined.

Lemma anyToCookieObjects_idempotent_witness :
  anyToCookieObjects
    (VArr (map VObj [[("name", VStr "a"); ("value", VStr "1"); ("path", VStr "/api")]]))
    (Some [("path", VStr "/api")])
  = Ok [[("name", VStr "a"); ("value", VStr "1"); ("path", VStr "/api")]].
Proof.
  apply (anyToCookieObjects_idempotent
           [VObj [("name", VStr "a"); ("value", VStr "1"); ("path", VStr "/")]]
           [("path", VStr "/api")]); reflexivity.
Defined.

Lemma object_header_double_round_trip_witness :
  exists headers,
    cookieObjectsToSetCookieHeaders example_toUTCString
      (Some [VObj [("name", VStr "session"); ("value", VStr "abc123");
                   ("path", VStr "/api"); ("httpOnly", VBool true);
                   ("sameSite", VStr "Strict"); ("maxAge", VNum (Int 3600));
                   ("expires", VNum (Int 0))]]) None = Ok headers /\
    (objects <- setCookieHeadersToCookieObjects (Some (map VStr headers)) None ;;
     cookieObjectsToSetCookieHeaders example_toUTCString (Some (map VObj objects)) None)
    = Ok headers.
Proof.
  apply (object_header_double_round_trip example_toUTCString); [reflexivity|].
  intros e text He Ht. cbn in He. injection He as <-.
  cbn in Ht. injection Ht as <-. reflexivity.
Defined.
